(** * pgmoneta worker pool: a shallow embedding of [src/libpgmoneta/workers.c]

    The development follows the layout of the C file:
    - the memory that the code manipulates through pointers (tasks,
      semaphores, pools, worker records) is a store of typed heaps;
    - every C function is a computation in a small state-and-error monad
      over that store ([Fault] is a memory fault: a NULL or dangling
      dereference, a write past an array, a double free);
    - the threads ([worker_do] and the callers of the pool API) are
      interleaved by an executable step function at the granularity of the
      critical sections of the C code.  *)

From stdpp Require Import gmap list.
From Stdlib Require Import ZArith Lia.

Local Open Scope Z_scope.

(** ** C integers *)

Definition INT_MIN : Z := -2147483648.
Definition INT_MAX : Z := 2147483647.

(** Two's complement reduction of a mathematical integer to an [int]. *)
Definition wrap_int (z : Z) : Z := (z + 2147483648) mod 4294967296 - 2147483648.

Definition in_int (z : Z) : Prop := INT_MIN <= z <= INT_MAX.

(** ** Pointers and the objects behind them

    The structures are declared in [workers.h], which is not among the
    sources; each record below lists the fields that [workers.c] reads or
    writes, under the names it uses.  Where a field name is also the name
    of a structure the record projection is renamed: [workers->queue] is
    [wqueue], [workers->worker] is [worker_array], [worker->pthread] and
    [worker->workers] are [w_pthread] and [w_workers]. *)

Definition addr := positive.

(** A C pointer: [None] is [NULL]. *)
Definition ptr := option addr.

(** Modelled from the spec: [struct task] (workers.h is missing), with the
    fields of the spec's Task: the function pointer, its argument and the
    link to the task queued after this one. *)
Record task := Task {
  function : Z;
  wc : ptr;
  previous : ptr
}.

(** Modelled from the spec: [struct semaphore] (workers.h is missing), the
    spec's BinaryGate; the mutex and the condition variable carry no data. *)
Record semaphore := Semaphore {
  value : Z
}.

(** Modelled from the spec: [struct queue] (workers.h is missing), the
    spec's TaskQueue: count, head, tail and the semaphore [has_tasks]. *)
Record queue := Queue {
  number_of_tasks : Z;
  front : ptr;
  rear : ptr;
  has_tasks : ptr
}.

(** Modelled from the spec: [struct worker] (workers.h is missing): the
    thread handle and the back-reference to the pool. *)
Record worker := Worker {
  w_pthread : nat;
  w_workers : ptr
}.

(** Modelled from the spec: [struct workers] (workers.h is missing), the
    spec's WorkerPool: the two counters, the outcome flag, the queue and
    the array of worker records.  It has no run flag of its own. *)
Record workers := Workers {
  number_of_alive : Z;
  number_of_working : Z;
  outcome : bool;
  wqueue : queue;
  worker_array : list ptr
}.

(** Modelled from the spec: [struct worker_input] (workers.h is missing),
    the spec's file-operation descriptor: [common.workers], three character
    arrays of [MAX_PATH] bytes each, the level and three result pointers. *)
Record worker_input := WorkerInput {
  common_workers : ptr;
  directory : list Byte.byte;
  from : list Byte.byte;
  to : list Byte.byte;
  level : Z;
  data : ptr;
  failed : ptr;
  all : ptr
}.

(** Program points of [worker_do]. *)
Inductive wpc :=
| W_start            (* lines 316-318: number_of_alive += 1 *)
| W_loop             (* line 320: while (worker_keepalive) *)
| W_wait             (* line 322: semaphore_wait *)
| W_recheck          (* line 324: if (worker_keepalive) *)
| W_begin            (* lines 326-328: number_of_working++ *)
| W_pull             (* line 330: queue_pull *)
| W_call (t : ptr)   (* lines 331-337: run the task, free it *)
| W_end              (* lines 339-345: number_of_working--, idle signal *)
| W_exit             (* lines 349-351: number_of_alive-- *)
| W_done.            (* line 353: returned *)

(** A thread started by [pthread_create]: its argument, the local
    [workers] read at line 314, and its program point. *)
Record thread := Thread {
  t_self : addr;
  t_pool : ptr;
  t_pc : wpc
}.

(** What the code does to the outside: condition variables, log, threads,
    task bodies and the results handed back to callers. *)
Inductive event :=
| EvSemSignal (s : addr)               (* pthread_cond_signal(&semaphore->cond) *)
| EvSemBroadcast (s : addr)            (* pthread_cond_broadcast(&semaphore->cond) *)
| EvIdleSignal (p : addr)              (* pthread_cond_signal(&workers->worker_all_idle) *)
| EvThreadCreate (tid : nat)           (* pthread_create *)
| EvRun (f : Z) (arg : ptr)            (* func_ref(t->wc) *)
| EvLogError                           (* pgmoneta_log_error *)
| EvInitializeReturn (num : Z) (rc : Z) (out : ptr)
| EvDestroyReturn (p : addr).

(** A caller that is inside one of the two blocking loops of the API. *)
Inductive call :=
| InInitialize (num : Z) (w : addr)          (* line 105 *)
| InDestroy (p : addr) (worker_total : Z).   (* lines 183-194 *)

(** The store. [worker_keepalive] is the file-scope variable of line 41;
    [brk] is the next address [malloc] hands out and [oom] tells which of
    the coming [malloc] calls return [NULL]. *)
Record world := World {
  worker_keepalive : Z;
  tasks : gmap addr task;
  sems : gmap addr semaphore;
  pools : gmap addr workers;
  wrecs : gmap addr worker;
  inputs : gmap addr worker_input;
  threads : list thread;
  pending : list call;
  brk : addr;
  oom : list bool;
  trace : list event
}.

Definition set_keepalive (k : Z) (st : world) : world :=
  World k (tasks st) (sems st) (pools st) (wrecs st) (inputs st) (threads st) (pending st) (brk st) (oom st) (trace st).
Definition set_tasks (h : gmap addr task) (st : world) : world :=
  World (worker_keepalive st) h (sems st) (pools st) (wrecs st) (inputs st) (threads st) (pending st) (brk st) (oom st) (trace st).
Definition set_sems (h : gmap addr semaphore) (st : world) : world :=
  World (worker_keepalive st) (tasks st) h (pools st) (wrecs st) (inputs st) (threads st) (pending st) (brk st) (oom st) (trace st).
Definition set_pools (h : gmap addr workers) (st : world) : world :=
  World (worker_keepalive st) (tasks st) (sems st) h (wrecs st) (inputs st) (threads st) (pending st) (brk st) (oom st) (trace st).
Definition set_wrecs (h : gmap addr worker) (st : world) : world :=
  World (worker_keepalive st) (tasks st) (sems st) (pools st) h (inputs st) (threads st) (pending st) (brk st) (oom st) (trace st).
Definition set_inputs (h : gmap addr worker_input) (st : world) : world :=
  World (worker_keepalive st) (tasks st) (sems st) (pools st) (wrecs st) h (threads st) (pending st) (brk st) (oom st) (trace st).
Definition set_threads (l : list thread) (st : world) : world :=
  World (worker_keepalive st) (tasks st) (sems st) (pools st) (wrecs st) (inputs st) l (pending st) (brk st) (oom st) (trace st).
Definition set_pending (l : list call) (st : world) : world :=
  World (worker_keepalive st) (tasks st) (sems st) (pools st) (wrecs st) (inputs st) (threads st) l (brk st) (oom st) (trace st).
Definition set_alloc (b : addr) (o : list bool) (st : world) : world :=
  World (worker_keepalive st) (tasks st) (sems st) (pools st) (wrecs st) (inputs st) (threads st) (pending st) b o (trace st).
Definition set_trace (l : list event) (st : world) : world :=
  World (worker_keepalive st) (tasks st) (sems st) (pools st) (wrecs st) (inputs st) (threads st) (pending st) (brk st) (oom st) l.

(** The process image before [main]: static storage is zero, nothing is
    allocated. *)
Definition world0 : world :=
  World 0 ∅ ∅ ∅ ∅ ∅ [] [] 1%positive [] [].

(** ** The monad of the C functions *)

Inductive result (A : Type) :=
| Ok (a : A) (st : world)
| Fault
| OutOfFuel.
Arguments Ok {A} a st.
Arguments Fault {A}.
Arguments OutOfFuel {A}.

Definition M (A : Type) : Type := world -> result A.

Definition ret {A} (a : A) : M A := fun st => Ok a st.

Definition bind {A B} (m : M A) (k : A -> M B) : M B :=
  fun st => match m st with
            | Ok a st' => k a st'
            | Fault => Fault
            | OutOfFuel => OutOfFuel
            end.

Definition fault {A} : M A := fun _ => Fault.

Declare Scope cmd_scope.
Delimit Scope cmd_scope with cmd.
Notation "x <- m ;; k" := (bind m (fun x => k))
  (at level 100, m at next level, right associativity) : cmd_scope.
Notation "m ;;; k" := (bind m (fun _ => k))
  (at level 100, right associativity) : cmd_scope.
Local Open Scope cmd_scope.

Definition emit (e : event) : M unit :=
  fun st => Ok tt (set_trace (trace st ++ [e]) st).

(** [pgmoneta_log_error] *)
Definition pgmoneta_log_error : M unit := emit EvLogError.

(** [malloc]: [NULL] when the oracle says so, otherwise a fresh address.
    The object is created by the first store to it. *)
Definition malloc : M ptr :=
  fun st => match oom st with
            | true :: o => Ok None (set_alloc (brk st) o st)
            | _ => Ok (Some (brk st)) (set_alloc (Pos.succ (brk st)) (tl (oom st)) st)
            end.

(** Loads and stores through a pointer to [struct task]. *)
Definition load_task (p : ptr) : M task :=
  fun st => match p with
            | Some a => match tasks st !! a with
                        | Some t => Ok t st
                        | None => Fault
                        end
            | None => Fault
            end.

Definition store_task (p : ptr) (t : task) : M unit :=
  fun st => match p with
            | Some a => Ok tt (set_tasks (<[a := t]> (tasks st)) st)
            | None => Fault
            end.

(** [free] of a task pointer: [free(NULL)] does nothing. *)
Definition free_task (p : ptr) : M unit :=
  fun st => match p with
            | Some a => match tasks st !! a with
                        | Some _ => Ok tt (set_tasks (delete a (tasks st)) st)
                        | None => Fault
                        end
            | None => Ok tt st
            end.

Definition load_sem (p : ptr) : M semaphore :=
  fun st => match p with
            | Some a => match sems st !! a with
                        | Some s => Ok s st
                        | None => Fault
                        end
            | None => Fault
            end.

Definition store_sem (p : ptr) (s : semaphore) : M unit :=
  fun st => match p with
            | Some a => Ok tt (set_sems (<[a := s]> (sems st)) st)
            | None => Fault
            end.

Definition free_sem (p : ptr) : M unit :=
  fun st => match p with
            | Some a => match sems st !! a with
                        | Some _ => Ok tt (set_sems (delete a (sems st)) st)
                        | None => Fault
                        end
            | None => Ok tt st
            end.

Definition load_pool (p : ptr) : M workers :=
  fun st => match p with
            | Some a => match pools st !! a with
                        | Some w => Ok w st
                        | None => Fault
                        end
            | None => Fault
            end.

Definition store_pool (p : ptr) (w : workers) : M unit :=
  fun st => match p with
            | Some a => Ok tt (set_pools (<[a := w]> (pools st)) st)
            | None => Fault
            end.

Definition free_pool (p : ptr) : M unit :=
  fun st => match p with
            | Some a => match pools st !! a with
                        | Some _ => Ok tt (set_pools (delete a (pools st)) st)
                        | None => Fault
                        end
            | None => Ok tt st
            end.

Definition store_wrec (p : ptr) (w : worker) : M unit :=
  fun st => match p with
            | Some a => Ok tt (set_wrecs (<[a := w]> (wrecs st)) st)
            | None => Fault
            end.

Definition free_wrec (p : ptr) : M unit :=
  fun st => match p with
            | Some a => match wrecs st !! a with
                        | Some _ => Ok tt (set_wrecs (delete a (wrecs st)) st)
                        | None => Fault
                        end
            | None => Ok tt st
            end.

(** ** Semaphores (lines 464-520) *)

(** [semaphore_init]: returns 1 on a bad value or a NULL semaphore. *)
Definition semaphore_init (s : ptr) (v : Z) : M Z :=
  if (v <? 0) || (v >? 1) || bool_decide (s = None)
  then pgmoneta_log_error ;;; ret 1
  else store_sem s (Semaphore v) ;;; ret 0.

(** [semaphore_reset]: destroying the mutex dereferences the pointer. *)
Definition semaphore_reset (s : ptr) : M unit :=
  _ <- load_sem s ;;
  _ <- semaphore_init s 0 ;;
  ret tt.

Definition the_addr (s : ptr) : M addr :=
  match s with Some a => ret a | None => fault end.

Definition semaphore_post (s : ptr) : M unit :=
  _ <- load_sem s ;;
  store_sem s (Semaphore 1) ;;;
  a <- the_addr s ;;
  emit (EvSemSignal a).

Definition semaphore_post_all (s : ptr) : M unit :=
  _ <- load_sem s ;;
  store_sem s (Semaphore 1) ;;;
  a <- the_addr s ;;
  emit (EvSemBroadcast a).

(** [semaphore_wait] can only return when the value is 1; the scheduler
    below runs it only then. *)
Definition semaphore_ready (s : ptr) (st : world) : bool :=
  match s with
  | Some a => match sems st !! a with
              | Some sm => value sm =? 1
              | None => false
              end
  | None => false
  end.

Definition semaphore_wait (s : ptr) : M unit :=
  _ <- load_sem s ;;
  store_sem s (Semaphore 0).

(** ** The task queue (lines 362-462) *)

Definition set_previous (p : ptr) (t : task) : task :=
  Task (function t) (wc t) p.

(** [queue_init]: the queue is filled in place, the return code says
    whether the semaphore could be set up. *)
Definition queue_init : M (Z * queue) :=
  s <- malloc ;;
  let q := Queue 0 None None s in
  match s with
  | None => ret (1, q)
  | Some _ =>
      rc <- semaphore_init s 0 ;;
      if rc =? 0 then ret (0, q) else ret (1, q)
  end.

(** [queue_push] *)
Definition queue_push (q : queue) (t : ptr) : M queue :=
  tk <- load_task t ;;
  store_task t (set_previous None tk) ;;;
  q1 <- (if number_of_tasks q =? 0
         then ret (Queue (number_of_tasks q) t t (has_tasks q))
         else r <- load_task (rear q) ;;
              store_task (rear q) (set_previous t r) ;;;
              ret (Queue (number_of_tasks q) (front q) t (has_tasks q))) ;;
  let q2 := Queue (wrap_int (number_of_tasks q1 + 1)) (front q1) (rear q1) (has_tasks q1) in
  semaphore_post (has_tasks q2) ;;;
  ret q2.

(** [queue_pull] *)
Definition queue_pull (q : queue) : M (ptr * queue) :=
  let t := front q in
  if number_of_tasks q =? 0 then ret (t, q)
  else if number_of_tasks q =? 1 then
    ret (t, Queue 0 None None (has_tasks q))
  else
    tk <- load_task t ;;
    let q' := Queue (wrap_int (number_of_tasks q - 1)) (previous tk) (rear q) (has_tasks q) in
    semaphore_post (has_tasks q') ;;;
    ret (t, q').

(** The loop of [queue_clear], lines 391-394. *)
Fixpoint queue_clear_loop (fuel : nat) (q : queue) : M queue :=
  if number_of_tasks q =? 0 then ret q
  else match fuel with
       | O => fun _ => OutOfFuel
       | S fuel' =>
           r <- queue_pull q ;;
           free_task (fst r) ;;;
           queue_clear_loop fuel' (snd r)
       end.

(** The number of iterations the loop of [queue_clear] can make before
    the [int] counter, decremented once per iteration, reaches zero. *)
Definition clear_fuel (q : queue) : nat :=
  Z.to_nat (number_of_tasks q mod 4294967296).

(** [queue_clear] *)
Definition queue_clear (q : queue) : M queue :=
  q1 <- queue_clear_loop (clear_fuel q) q ;;
  semaphore_reset (has_tasks q1) ;;;
  ret (Queue 0 None None (has_tasks q1)).

(** [queue_destroy] *)
Definition queue_destroy (q : queue) : M queue :=
  q1 <- queue_clear q ;;
  free_sem (has_tasks q1) ;;;
  ret q1.

(** ** The pool API (lines 59-279) *)

Definition set_queue (q : queue) (w : workers) : workers :=
  Workers (number_of_alive w) (number_of_working w) (outcome w) q (worker_array w).
Definition set_alive (n : Z) (w : workers) : workers :=
  Workers n (number_of_working w) (outcome w) (wqueue w) (worker_array w).
Definition set_working (n : Z) (w : workers) : workers :=
  Workers (number_of_alive w) n (outcome w) (wqueue w) (worker_array w).
Definition set_worker_array (l : list ptr) (w : workers) : workers :=
  Workers (number_of_alive w) (number_of_working w) (outcome w) (wqueue w) l.

(** Runs a queue function on [&workers->queue]. *)
Definition on_queue {A} (p : ptr) (f : queue -> M (A * queue)) : M A :=
  w <- load_pool p ;;
  r <- f (wqueue w) ;;
  w' <- load_pool p ;;
  store_pool p (set_queue (snd r) w') ;;;
  ret (fst r).

(** [pgmoneta_workers_add].  The [previous] field of the new task is not
    written here; [queue_push] writes it before anything reads it. *)
Definition pgmoneta_workers_add (workers : ptr) (f : Z) (arg : ptr) : M Z :=
  match workers with
  | Some _ =>
      t <- malloc ;;
      match t with
      | None => pgmoneta_log_error ;;; ret 1
      | Some _ =>
          store_task t (Task f arg None) ;;;
          on_queue workers (fun q => q' <- queue_push q t ;; ret (tt, q')) ;;;
          ret 0
      end
  | None => ret 1
  end.

(** The loop condition of [pgmoneta_workers_wait], line 159: the caller
    stays in [pthread_cond_wait] while it holds. *)
Definition workers_wait_condition (p : addr) (st : world) : bool :=
  match pools st !! p with
  | Some w => negb (number_of_tasks (wqueue w) =? 0) || negb (number_of_working w =? 0)
  | None => false
  end.

(** [pthread_create] of [worker_do] on a worker record: the new thread
    starts at line 314 and reads its pool from the record. *)
Definition pthread_create (w : addr) : M nat :=
  fun st => match wrecs st !! w with
            | Some r =>
                let tid := length (threads st) in
                Ok tid (set_trace (trace st ++ [EvThreadCreate tid])
                          (set_threads (threads st ++ [Thread w (w_workers r) W_start]) st))
            | None => Fault
            end.

(** [worker_init]: returns the code and the value left in [*worker]. *)
Definition worker_init (workers : ptr) : M (Z * ptr) :=
  w <- malloc ;;
  match w with
  | None => pgmoneta_log_error ;;; ret (1, None)
  | Some a =>
      store_wrec w (Worker 0 workers) ;;;
      tid <- pthread_create a ;;
      store_wrec w (Worker tid workers) ;;;
      ret (0, w)
  end.

(** The loop of lines 100-103: [n] more calls of [worker_init], each
    filling the next slot of [w->worker]. *)
Fixpoint spawn_workers (n : nat) (workers : ptr) : M unit :=
  match n with
  | O => ret tt
  | S n' =>
      r <- worker_init workers ;;
      w <- load_pool workers ;;
      store_pool workers (set_worker_array (worker_array w ++ [snd r]) w) ;;;
      spawn_workers n' workers
  end.

(** How [pgmoneta_workers_initialize] reaches its polling loop. *)
Inductive init_stage :=
| InitFailed                (* took [goto error]: returns 1, [*workers] is NULL *)
| InitWaiting (w : addr).   (* at line 105 with the pool [w] *)

(** The error path of lines 114-122 when [w] is not NULL. *)
Definition initialize_error (w : ptr) : M init_stage :=
  p <- load_pool w ;;
  _ <- queue_destroy (wqueue p) ;;
  free_pool w ;;;
  ret InitFailed.

(** [pgmoneta_workers_initialize] up to line 105. *)
Definition workers_initialize_setup (num : Z) : M init_stage :=
  (fun st => Ok tt (set_keepalive 1 st)) ;;;
  if num <? 1 then ret InitFailed
  else
    w <- malloc ;;
    match w with
    | None => pgmoneta_log_error ;;; ret InitFailed
    | Some a =>
        rq <- queue_init ;;
        store_pool w (Workers 0 0 true (snd rq) []) ;;;
        if negb (fst rq =? 0) then pgmoneta_log_error ;;; initialize_error w
        else
          arr <- malloc ;;
          match arr with
          | None => pgmoneta_log_error ;;; initialize_error w
          | Some _ =>
              spawn_workers (Z.to_nat num) w ;;;
              ret (InitWaiting a)
          end
    end.

(** The test of line 105: the caller sleeps while it holds. *)
Definition initialize_must_wait (num : Z) (w : addr) (st : world) : bool :=
  match pools st !! w with
  | Some p => negb (number_of_alive p =? num)
  | None => false
  end.

(** [pgmoneta_workers_destroy], lines 177-180. *)
Definition workers_destroy_begin (workers : ptr) : M (option Z) :=
  match workers with
  | Some _ =>
      w <- load_pool workers ;;
      (fun st => Ok tt (set_keepalive 0 st)) ;;;
      ret (Some (number_of_alive w))
  | None => ret None
  end.

(** One test of the loops of lines 183-194; [true] when the body ran.
    Both loops have this body and differ in the pause between rounds. *)
Definition workers_destroy_round (workers : ptr) : M bool :=
  w <- load_pool workers ;;
  if negb (number_of_alive w =? 0)
  then semaphore_post_all (has_tasks (wqueue w)) ;;; ret true
  else ret false.

(** The loop of lines 198-201 from index [n] for [k] rounds. *)
Fixpoint destroy_workers (k : nat) (n : nat) (workers : ptr) : M unit :=
  match k with
  | O => ret tt
  | S k' =>
      w <- load_pool workers ;;
      match worker_array w !! n with
      | Some p => free_wrec p ;;; destroy_workers k' (S n) workers
      | None => fault
      end
  end.

(** [pgmoneta_workers_destroy], lines 196-204. *)
Definition workers_destroy_finish (workers : ptr) (worker_total : Z) : M unit :=
  on_queue workers (fun q => q' <- queue_destroy q ;; ret (tt, q')) ;;;
  destroy_workers (Z.to_nat worker_total) 0 workers ;;;
  free_pool workers.

(** ** [pgmoneta_get_number_of_workers] (lines 208-232) *)

(** Modelled from the spec: the configuration (pgmoneta.h is missing), an
    external collaborator of which the function reads the count of each
    server, [servers[i].workers], and the global count, [config->workers]. *)
Record server := Server {
  s_workers : Z
}.

(** Modelled from the spec: see [server]; [workers_cfg] is [config->workers]. *)
Record main_configuration := MainConfiguration {
  servers : list server;
  workers_cfg : Z
}.

(** The build: with [HAVE_LINUX] the bound is [get_nprocs()], otherwise 16. *)
Inductive platform :=
| HaveLinux (nprocs : Z)
| NoLinux.

(** Modelled from the spec: the macro [MIN] comes from a header that is not
    part of the sources; the spec says the count is clamped to an upper
    bound, so [MIN a b] is the smaller of its arguments. *)
Definition MIN (a b : Z) : Z := if a <? b then a else b.

(** [None] when [server] is outside the array [config->common.servers]. *)
Definition pgmoneta_get_number_of_workers
    (pf : platform) (config : main_configuration) (srv : Z) : option Z :=
  if srv <? 0 then None
  else match servers config !! Z.to_nat srv with
       | Some s =>
           let nw := if negb (s_workers s =? -1) then s_workers s else workers_cfg config in
           Some (match pf with
                 | HaveLinux nprocs => MIN nw nprocs
                 | NoLinux => MIN nw 16
                 end)
       | None => None
       end.

(** ** [pgmoneta_create_worker_input] (lines 234-279) *)

Section WorkerInput.

(** The capacity of the three path fields, a macro of a header that is not
    part of the sources. *)
Variable MAX_PATH : nat.

(** [memcpy(field, src, strlen(src))] into an array of [MAX_PATH] bytes:
    the first bytes of the field are replaced; a copy longer than the
    field writes past its end. *)
Definition memcpy_field (field src : list Byte.byte) : M (list Byte.byte) :=
  if (length src <=? MAX_PATH)%nat
  then ret (src ++ drop (length src) field)
  else fault.

(** One of the three guarded copies: [src] is a C string given by its
    characters, or NULL. *)
Definition copy_path (field : list Byte.byte) (src : option (list Byte.byte)) : M (list Byte.byte) :=
  match src with
  | Some s => if (0 <? length s)%nat then memcpy_field field s else ret field
  | None => ret field
  end.

Definition store_input (p : ptr) (w : worker_input) : M unit :=
  fun st => match p with
            | Some a => Ok tt (set_inputs (<[a := w]> (inputs st)) st)
            | None => Fault
            end.

(** Returns the code and the value left in [*wi]. *)
Definition pgmoneta_create_worker_input
    (dir src dst : option (list Byte.byte)) (lvl : Z) (workers : ptr) : M (Z * ptr) :=
  w <- malloc ;;
  match w with
  | None => ret (1, None)
  | Some _ =>
      let zero := replicate MAX_PATH Byte.x00 in
      d <- copy_path zero dir ;;
      f <- copy_path zero src ;;
      t <- copy_path zero dst ;;
      store_input w (WorkerInput workers d f t lvl None None None) ;;;
      ret (0, w)
  end.

End WorkerInput.

(** A path argument that does not fit its field. *)
Definition too_long (MAX_PATH : nat) (src : option (list Byte.byte)) : Prop :=
  ∃ s, src = Some s ∧ (MAX_PATH < length s)%nat.

(** ** [worker_do] (lines 309-354), one critical section at a time *)

Definition set_pc (pc : wpc) (t : thread) : thread :=
  Thread (t_self t) (t_pool t) pc.

Definition goto (i : nat) (pc : wpc) : M unit :=
  fun st => match threads st !! i with
            | Some t => Ok tt (set_threads (<[i := set_pc pc t]> (threads st)) st)
            | None => Fault
            end.

Definition read_keepalive : M Z := fun st => Ok (worker_keepalive st) st.

(** Whether thread [t] can take its next step: it cannot inside
    [semaphore_wait] while the value is not 1, nor after it returned. *)
Definition worker_ready (t : thread) (st : world) : bool :=
  match t_pc t with
  | W_wait => match t_pool t ≫= (pools st !!.) with
              | Some w => semaphore_ready (has_tasks (wqueue w)) st
              | None => true
              end
  | W_done => false
  | _ => true
  end.

Definition worker_step (i : nat) (t : thread) : M unit :=
  let workers := t_pool t in
  match t_pc t with
  | W_start =>
      w <- load_pool workers ;;
      store_pool workers (set_alive (wrap_int (number_of_alive w + 1)) w) ;;;
      goto i W_loop
  | W_loop =>
      k <- read_keepalive ;;
      if negb (k =? 0) then goto i W_wait else goto i W_exit
  | W_wait =>
      w <- load_pool workers ;;
      semaphore_wait (has_tasks (wqueue w)) ;;;
      goto i W_recheck
  | W_recheck =>
      k <- read_keepalive ;;
      if negb (k =? 0) then goto i W_begin else goto i W_loop
  | W_begin =>
      w <- load_pool workers ;;
      store_pool workers (set_working (wrap_int (number_of_working w + 1)) w) ;;;
      goto i W_pull
  | W_pull =>
      t <- on_queue workers queue_pull ;;
      goto i (W_call t)
  | W_call t =>
      match t with
      | Some _ =>
          tk <- load_task t ;;
          emit (EvRun (function tk) (wc tk)) ;;;
          free_task t ;;;
          goto i W_end
      | None => goto i W_end
      end
  | W_end =>
      w <- load_pool workers ;;
      let n := wrap_int (number_of_working w - 1) in
      store_pool workers (set_working n w) ;;;
      (if n =? 0
       then p <- the_addr workers ;; emit (EvIdleSignal p)
       else ret tt) ;;;
      goto i W_loop
  | W_exit =>
      w <- load_pool workers ;;
      store_pool workers (set_alive (wrap_int (number_of_alive w - 1)) w) ;;;
      goto i W_done
  | W_done => fault
  end.

(** ** The interleaving of the workers and the callers of the API *)

Inductive label :=
| L_worker (i : nat)                          (* thread [i] runs to its next program point *)
| L_add (p : ptr) (f : Z) (arg : ptr)         (* a call of [pgmoneta_workers_add] *)
| L_initialize (num : Z)                      (* [pgmoneta_workers_initialize] up to its loop *)
| L_initialize_return (num : Z) (w : addr)    (* the loop of line 105 ends, the call returns 0 *)
| L_destroy (p : ptr)                         (* [pgmoneta_workers_destroy] up to its loops *)
| L_destroy_round (p : addr) (total : Z)      (* one more post_all *)
| L_destroy_return (p : addr) (total : Z).    (* the loops end, the pool is released *)

Global Instance call_eq_dec : EqDecision call.
Proof. solve_decision. Defined.

Global Instance wpc_eq_dec : EqDecision wpc.
Proof. solve_decision. Defined.

(** Removes the first occurrence of a pending call. *)
Fixpoint remove_call (c : call) (l : list call) : list call :=
  match l with
  | [] => []
  | c' :: l' => if decide (c = c') then l' else c' :: remove_call c l'
  end.

Definition is_pending (c : call) (st : world) : bool :=
  bool_decide (c ∈ pending st).

Definition add_pending (c : call) : M unit :=
  fun st => Ok tt (set_pending (pending st ++ [c]) st).

Definition drop_pending (c : call) : M unit :=
  fun st => Ok tt (set_pending (remove_call c (pending st)) st).

(** Whether the step named by a label can be taken now. *)
Definition enabled (l : label) (st : world) : bool :=
  match l with
  | L_worker i => match threads st !! i with
                  | Some t => worker_ready t st
                  | None => false
                  end
  | L_add _ _ _ => true
  | L_initialize _ => true
  | L_initialize_return num w =>
      is_pending (InInitialize num w) st && negb (initialize_must_wait num w st)
  | L_destroy _ => true
  | L_destroy_round p total =>
      is_pending (InDestroy p total) st
  | L_destroy_return p total =>
      is_pending (InDestroy p total) st &&
      match pools st !! p with
      | Some w => number_of_alive w =? 0
      | None => true
      end
  end.

Definition step (l : label) : M unit :=
  match l with
  | L_worker i =>
      fun st => match threads st !! i with
                | Some t => worker_step i t st
                | None => Fault
                end
  | L_add p f arg =>
      _ <- pgmoneta_workers_add p f arg ;; ret tt
  | L_initialize num =>
      r <- workers_initialize_setup num ;;
      match r with
      | InitFailed => emit (EvInitializeReturn num 1 None)
      | InitWaiting w => add_pending (InInitialize num w)
      end
  | L_initialize_return num w =>
      _ <- load_pool (Some w) ;;
      drop_pending (InInitialize num w) ;;;
      emit (EvInitializeReturn num 0 (Some w))
  | L_destroy p =>
      r <- workers_destroy_begin p ;;
      match p, r with
      | Some a, Some total => add_pending (InDestroy a total)
      | _, _ => ret tt
      end
  | L_destroy_round p total =>
      _ <- workers_destroy_round (Some p) ;; ret tt
  | L_destroy_return p total =>
      _ <- load_pool (Some p) ;;
      drop_pending (InDestroy p total) ;;;
      workers_destroy_finish (Some p) total ;;;
      emit (EvDestroyReturn p)
  end.

(** One step of the whole program; [None] when the step is not enabled or
    ends in a memory fault. *)
Definition exec (l : label) (st : world) : option world :=
  if enabled l st
  then match step l st with
       | Ok _ st' => Some st'
       | _ => None
       end
  else None.

Fixpoint run (ls : list label) (st : world) : option world :=
  match ls with
  | [] => Some st
  | l :: ls' => match exec l st with
                | Some st' => run ls' st'
                | None => None
                end
  end.

(** The states the program can be in, starting from the initial image. *)
Definition reachable (st : world) : Prop :=
  ∃ ls, run ls world0 = Some st.

(** The events a step adds to the trace. *)
Definition emitted (st st' : world) : list event :=
  drop (length (trace st)) (trace st').

(** The next [n] calls of [malloc] succeed. *)
Definition allocs_succeed (n : nat) (st : world) : bool :=
  forallb negb (take n (oom st)).

(** Ways in which a computation can leave the store alone.  [quiet]: it
    adds no idle signal to the trace.  [calm]: it keeps the run flag and
    the threads already started.  [still]: both. *)
Definition is_idle_signal (e : event) : bool :=
  match e with
  | EvIdleSignal _ => true
  | _ => false
  end.

Definition quiet (st st' : world) : Prop :=
  ∃ evs, trace st' = trace st ++ evs ∧ forallb (λ e, negb (is_idle_signal e)) evs = true.

Definition calm (st st' : world) : Prop :=
  worker_keepalive st' = worker_keepalive st ∧
  ∃ new, threads st' = threads st ++ new.

Definition still (st st' : world) : Prop := quiet st st' ∧ calm st st'.

(** [keeps R m]: every return of [m] relates the stores before and after. *)
Definition keeps (R : world → world → Prop) {A} (m : M A) : Prop :=
  ∀ st a st', m st = Ok a st' → R st st'.

(** ** The shape of a queue in memory *)

(** [chain h p l]: following the [previous] links from [p] visits exactly
    the tasks [l], in this order, and then reaches [NULL]. *)
Fixpoint chain (h : gmap addr task) (p : ptr) (l : list addr) : Prop :=
  match l with
  | [] => p = None
  | a :: l' => p = Some a ∧ ∃ t, h !! a = Some t ∧ chain h (previous t) l'
  end.

(** The invariant of the data model: the count is zero exactly when both
    ends are [NULL], and it is the number of tasks linked from [front]. *)
Definition queue_invariant (st : world) (q : queue) : Prop :=
  (number_of_tasks q = 0 ↔ front q = None ∧ rear q = None) ∧
  ∃ l, chain (tasks st) (front q) l ∧ number_of_tasks q = Z.of_nat (length l).

(** The representation invariant that the operations maintain: the queue
    holds the tasks [l], oldest first. *)
Record queue_wf (st : world) (q : queue) (l : list addr) : Prop := QueueWf {
  wf_chain : chain (tasks st) (front q) l;
  wf_rear : rear q = last l;
  wf_count : number_of_tasks q = Z.of_nat (length l);
  wf_nodup : NoDup l;
  wf_bound : Z.of_nat (length l) <= INT_MAX;
  wf_sem : ∃ s sm, has_tasks q = Some s ∧ sems st !! s = Some sm
}.

(** ** Straight-line programs over one queue, and their list model *)

Inductive qop :=
| Push (a : addr)
| Pull.

(** Runs the operations in order and collects what the pulls returned. *)
Fixpoint run_ops (ops : list qop) (q : queue) : M (list ptr * queue) :=
  match ops with
  | [] => ret ([], q)
  | Push a :: ops' =>
      q1 <- queue_push q (Some a) ;;
      run_ops ops' q1
  | Pull :: ops' =>
      r <- queue_pull q ;;
      rs <- run_ops ops' (snd r) ;;
      ret (fst r :: fst rs, snd rs)
  end.

(** The tasks pushed by a program, in program order. *)
Fixpoint pushed (ops : list qop) : list addr :=
  match ops with
  | [] => []
  | Push a :: ops' => a :: pushed ops'
  | Pull :: ops' => pushed ops'
  end.

(** The same program on a first-in first-out list. *)
Fixpoint fifo_ops (ops : list qop) (l : list addr) : list ptr * list addr :=
  match ops with
  | [] => ([], l)
  | Push a :: ops' => fifo_ops ops' (l ++ [a])
  | Pull :: ops' =>
      match l with
      | [] => let r := fifo_ops ops' [] in (None :: fst r, snd r)
      | x :: l' => let r := fifo_ops ops' l' in (Some x :: fst r, snd r)
      end
  end.

(** The non-[NULL] results of the pulls. *)
Definition successes (rs : list ptr) : list addr := omap id rs.

(** The pool at [p] is live and its queue holds the tasks [l]. *)
Definition pool_holds (st : world) (p : addr) (l : list addr) : Prop :=
  ∃ w, pools st !! p = Some w ∧ queue_wf st (wqueue w) l.

(** ** Sample runs *)

Definition pool1 : addr := 1%positive.

(** One pool of one worker, started and returned to its caller. *)
Definition boot : list label :=
  [L_initialize 1; L_worker 0; L_initialize_return 1 pool1].

(** Then two tasks are submitted while the worker has not woken up. *)
Definition two_tasks : list label :=
  boot ++ [L_add (Some pool1) 7 None; L_add (Some pool1) 8 None].

Definition after (ls : list label) : world :=
  default world0 (run ls world0).

Definition queue_of (p : addr) (st : world) : queue :=
  match pools st !! p with
  | Some w => wqueue w
  | None => Queue 0 None None None
  end.

(** The started pool with two task objects allocated by a caller but not
    yet handed to the queue. *)
Definition two_allocated : world :=
  set_tasks (<[10%positive := Task 7 None None]>
             (<[11%positive := Task 8 None None]> (tasks (after boot))))
            (after boot).

Definition sample_ops : list qop :=
  [Push 10%positive; Pull; Push 11%positive; Pull; Pull].

(** The worker wakes up, takes the first task and runs it; its next step
    is the critical section of lines 339-345. *)
Definition first_task_run : list label :=
  two_tasks ++ replicate 6 (L_worker 0).

(** A second pool of one worker next to the first one: thread 0 serves
    the pool at address 1, thread 1 the pool at address 5, and both are at
    the head of their loop. *)
Definition pool2 : addr := 5%positive.

Definition two_pools : list label :=
  boot ++ [L_initialize 1; L_worker 1; L_initialize_return 1 pool2].

(** A whole life of the first pool: two tasks are submitted and run by the
    worker, then the pool is destroyed. *)
Definition lifecycle : list label :=
  two_tasks ++ replicate 14 (L_worker 0) ++
  [L_destroy (Some pool1); L_destroy_round pool1 1; L_worker 0; L_worker 0;
   L_destroy_return pool1 1].

(** ** More programs over the store *)

(** [n] calls of [semaphore_post] in a row. *)
Fixpoint semaphore_posts (n : nat) (s : ptr) : M unit :=
  match n with
  | O => ret tt
  | S n' => semaphore_post s ;;; semaphore_posts n' s
  end.

(** The task bodies started in a piece of trace, in order. *)
Definition runs (evs : list event) : list (Z * ptr) :=
  omap (λ e, match e with EvRun f arg => Some (f, arg) | _ => None end) evs.

(** What [free] does to a heap for a list of pointers, NULL ones included. *)
Definition free_all {A} (h : gmap addr A) (ps : list ptr) : gmap addr A :=
  foldl (λ h p, match p with Some a => delete a h | None => h end) h ps.

(** The worker records in an array can each be freed once. *)
Definition records_ok (h : gmap addr worker) (arr : list ptr) : Prop :=
  NoDup (omap id arr) ∧ ∀ a, Some a ∈ arr → is_Some (h !! a).

(** The first pool after destroy has been called and its worker has left. *)
Definition stopped : list label :=
  boot ++ [L_destroy (Some pool1); L_destroy_round pool1 1; L_worker 0; L_worker 0].

(** Thread [i] serves the pool [p] and is at the head of its loop with
    the run flag set; the queue of [p] holds the tasks [l], the semaphore
    being armed unless [l] is empty; [n] workers of [p] are busy. *)
Definition serving (st : world) (i : nat) (p : addr) (l : list addr) (n : Z) : Prop :=
  ∃ self w s,
    threads st !! i = Some (Thread self (Some p) W_loop) ∧
    worker_keepalive st ≠ 0 ∧
    pools st !! p = Some w ∧
    queue_wf st (wqueue w) l ∧
    has_tasks (wqueue w) = Some s ∧
    (l ≠ [] → sems st !! s = Some (Semaphore 1)) ∧
    number_of_working w = n.

(** The function and the argument stored in a task. *)
Definition task_call (st : world) (a : addr) : Z * ptr :=
  match tasks st !! a with
  | Some t => (function t, wc t)
  | None => (0, None)
  end.

(** One turn of the loop of [worker_do], from line 320 back to it. *)
Definition one_turn (i : nat) : list label := replicate 7 (L_worker i).

(** [k] turns of the loop in a row. *)
Definition turns (k : nat) (i : nat) : list label := replicate (7 * k) (L_worker i).

(** Two workers and two tasks, scheduled so that both tasks have been run
    and the semaphore is left armed over an empty queue: worker 0 has
    passed [semaphore_wait] for the first task when the second one is
    submitted, and worker 1 pulls before it. *)
Definition armed_empty : list label :=
  [L_initialize 2; L_worker 0; L_worker 1; L_initialize_return 2 pool1;
   L_add (Some pool1) 7 None; L_worker 0; L_worker 0;
   L_add (Some pool1) 8 None] ++ turns 1 1 ++ replicate 5 (L_worker 0).

(** What is left of [pgmoneta_workers_destroy] on a pool with one worker
    once the run flag is 0: one round of [semaphore_post_all], the four
    steps that take the worker from [semaphore_wait] to its return, and
    the release of the pool. *)
Definition shutdown (p : addr) (i : nat) : list label :=
  [L_destroy_round p 1] ++ replicate 4 (L_worker i) ++ [L_destroy_return p 1].

(** The first pool with two submitted tasks and its worker inside
    [semaphore_wait]. *)
Definition waiting_with_tasks : list label :=
  boot ++ [L_worker 0; L_add (Some pool1) 7 None; L_add (Some pool1) 8 None].

(** A path argument fits a field of [MAX_PATH] bytes. *)
Definition fits (MAX_PATH : nat) (src : option (list Byte.byte)) : Prop :=
  ∀ s, src = Some s → (length s ≤ MAX_PATH)%nat.

(** The characters of a path argument (none for NULL) followed by zero
    bytes up to [MAX_PATH]. *)
Definition padded (MAX_PATH : nat) (src : option (list Byte.byte)) : list Byte.byte :=
  let s := default [] src in
  s ++ replicate (MAX_PATH - length s) Byte.x00.

(** ** The counters of a pool and the program points of its threads *)

(** The program points at which a thread has counted itself alive, and
    those at which it has counted itself working. *)
Definition counts_alive (pc : wpc) : bool :=
  match pc with
  | W_start | W_done => false
  | _ => true
  end.

Definition counts_working (pc : wpc) : bool :=
  match pc with
  | W_pull | W_call _ | W_end => true
  | _ => false
  end.

(** The number of threads of pool [p] whose program point satisfies [f]. *)
Fixpoint threads_at (f : wpc → bool) (p : addr) (ts : list thread) : Z :=
  match ts with
  | [] => 0
  | t :: ts' =>
      (if bool_decide (t_pool t = Some p) && f (t_pc t) then 1 else 0)
      + threads_at f p ts'
  end.

(** The two counters of every pool are the numbers of its threads at the
    corresponding program points (as [int]s); pools and the pools of
    threads are at addresses that [malloc] has already handed out. *)
Record counters_ok (st : world) : Prop := CountersOk {
  co_counts : ∀ p w, pools st !! p = Some w →
      number_of_alive w = wrap_int (threads_at counts_alive p (threads st)) ∧
      number_of_working w = wrap_int (threads_at counts_working p (threads st));
  co_pools : ∀ p, is_Some (pools st !! p) → (p < brk st)%positive;
  co_threads : ∀ t, t ∈ threads st → ∃ p, t_pool t = Some p ∧ (p < brk st)%positive
}.

(** Three ways in which a computation treats the pools and the threads.
    [untouched]: it leaves both alone.  [same_counters]: every pool it
    leaves behind was there before with the same two counters, and the
    threads are the same.  [grows a]: it may also create the pool [a] with
    both counters at 0 and start threads of [a]. *)
Definition untouched (st st' : world) : Prop :=
  pools st' = pools st ∧ threads st' = threads st ∧ (brk st ≤ brk st')%positive.

Definition same_counters (st st' : world) : Prop :=
  (∀ p w', pools st' !! p = Some w' →
     ∃ w, pools st !! p = Some w ∧
          number_of_alive w' = number_of_alive w ∧
          number_of_working w' = number_of_working w) ∧
  threads st' = threads st ∧ (brk st ≤ brk st')%positive.

Definition grows (a : addr) (st st' : world) : Prop :=
  (∀ p w', pools st' !! p = Some w' →
     (∃ w, pools st !! p = Some w ∧
           number_of_alive w' = number_of_alive w ∧
           number_of_working w' = number_of_working w) ∨
     (p = a ∧ number_of_alive w' = 0 ∧ number_of_working w' = 0)) ∧
  (∃ new, threads st' = threads st ++ new ∧
          Forall (λ t, t_pool t = Some a ∧ t_pc t = W_start) new) ∧
  (brk st ≤ brk st')%positive.

(** What one step of a thread [t] (at index [i]) to the program point
    [pc'] does to the pools: the counters of the other pools stay, those
    of its own pool move with the program point. *)
Definition worker_moves (i : nat) (t : thread) (pc' : wpc) (st st' : world) : Prop :=
  threads st' = <[i := set_pc pc' t]> (threads st) ∧
  (brk st ≤ brk st')%positive ∧
  ∀ q w', pools st' !! q = Some w' →
    ∃ w, pools st !! q = Some w ∧
      (t_pool t ≠ Some q →
         number_of_alive w' = number_of_alive w ∧
         number_of_working w' = number_of_working w) ∧
      (t_pool t = Some q → ∀ ca cw,
         number_of_alive w = wrap_int ca → number_of_working w = wrap_int cw →
         number_of_alive w' =
           wrap_int (ca + (Z.b2z (counts_alive pc') - Z.b2z (counts_alive (t_pc t)))) ∧
         number_of_working w' =
           wrap_int (cw + (Z.b2z (counts_working pc') - Z.b2z (counts_working (t_pc t))))).

(** ** Wake-ups *)

(** The steps of [pgmoneta_workers_destroy]. *)
Definition is_destroy (l : label) : bool :=
  match l with
  | L_destroy _ | L_destroy_round _ _ | L_destroy_return _ _ => true
  | _ => false
  end.

(** The program points of a thread that has come out of [semaphore_wait]
    and has not yet called [queue_pull]. *)
Definition woken (pc : wpc) : bool :=
  match pc with
  | W_recheck | W_begin | W_pull => true
  | _ => false
  end.

(** A computation that writes no semaphore but [s], and leaves the pools,
    the threads and the run flag alone. *)
Definition touches (s : ptr) (st st' : world) : Prop :=
  (∀ s', Some s' ≠ s → sems st' !! s' = sems st !! s') ∧
  pools st' = pools st ∧ threads st' = threads st ∧
  worker_keepalive st' = worker_keepalive st ∧
  (brk st ≤ brk st')%positive.

(** A computation that leaves the tasks, the semaphores, the run flag and
    the queue of every pool alone, and releases no pool; it may start
    threads. *)
Definition same_queues (st st' : world) : Prop :=
  tasks st' = tasks st ∧
  sems st' = sems st ∧
  worker_keepalive st' = worker_keepalive st ∧
  (brk st ≤ brk st')%positive ∧
  (∃ new, threads st' = threads st ++ new) ∧
  (∀ p w', pools st' !! p = Some w' →
     ∃ w, pools st !! p = Some w ∧ wqueue w' = wqueue w) ∧
  (∀ p, is_Some (pools st !! p) → is_Some (pools st' !! p)).

(** What one step of a thread [t] (at index [i]) to the program point
    [pc'] does to the queues and the semaphores. *)
Definition worker_wakes (i : nat) (t : thread) (pc' : wpc) (st st' : world) : Prop :=
  threads st' = <[i := set_pc pc' t]> (threads st) ∧
  worker_keepalive st' = worker_keepalive st ∧
  (brk st ≤ brk st')%positive ∧
  (∀ q w', pools st' !! q = Some w' →
     ∃ w, pools st !! q = Some w ∧
          has_tasks (wqueue w') = has_tasks (wqueue w) ∧
          (¬ (t_pool t = Some q ∧ t_pc t = W_pull) → wqueue w' = wqueue w)) ∧
  (sems st' = sems st ∨
   ∃ p w s, t_pool t = Some p ∧ pools st !! p = Some w ∧
            has_tasks (wqueue w) = Some s ∧
            (∀ s', s' ≠ s → sems st' !! s' = sems st !! s') ∧
            (t_pc t = W_pull ∨ pc' = W_recheck)) ∧
  (t_pc t = W_pull → ∀ p w' s,
     t_pool t = Some p → pools st' !! p = Some w' →
     has_tasks (wqueue w') = Some s →
     number_of_tasks (wqueue w') = 0 ∨ sems st' !! s = Some (Semaphore 1)) ∧
  (woken (t_pc t) = true → t_pc t ≠ W_pull → worker_keepalive st ≠ 0 →
   woken pc' = true).

(** While no pool is being destroyed: the run flag is set as soon as a
    thread exists; every pool has a semaphore of its own; and a queue that
    counts a task has its semaphore armed, or a thread of the pool has
    been woken and is on its way to [queue_pull]. *)
Record wakeups_ok (st : world) : Prop := WakeupsOk {
  wk_flag : threads st = [] ∨ worker_keepalive st ≠ 0;
  wk_sem : ∀ p w, pools st !! p = Some w →
      ∃ s, has_tasks (wqueue w) = Some s ∧ (s < brk st)%positive;
  wk_distinct : ∀ p1 p2 w1 w2,
      pools st !! p1 = Some w1 → pools st !! p2 = Some w2 →
      has_tasks (wqueue w1) = has_tasks (wqueue w2) → p1 = p2;
  wk_armed : ∀ p w s,
      pools st !! p = Some w → has_tasks (wqueue w) = Some s →
      number_of_tasks (wqueue w) ≠ 0 →
      sems st !! s = Some (Semaphore 1) ∨
      ∃ i t, threads st !! i = Some t ∧ t_pool t = Some p ∧ woken (t_pc t) = true
}.

(** ** Runs in which [malloc] may fail *)

(** The process image before [main] with an oracle for [malloc], and the
    states the program can be in from there.  [reachable] is the case of
    the oracle under which every [malloc] succeeds. *)
Definition image (o : list bool) : world := set_alloc 1%positive o world0.

Definition started (st : world) : Prop :=
  ∃ o ls, run ls (image o) = Some st.

(** The number of [malloc] calls an oracle makes fail. *)
Definition failing (o : list bool) : nat := length (List.filter id o).

(** The number of threads started for pool [p], wherever they are. *)
Definition threads_of (p : addr) (ts : list thread) : Z :=
  threads_at (λ _, true) p ts.

(** The store in which [pgmoneta_workers_initialize] starts its threads
    when the pool, the semaphore and the array have been allocated. *)
Definition ready_to_spawn (o : list bool) (st : world) : world :=
  set_alloc (Pos.succ (Pos.succ (Pos.succ (brk st)))) o
    (set_pools (<[brk st := Workers 0 0 true
                              (Queue 0 None None (Some (Pos.succ (brk st)))) []]>
                  (pools st))
       (set_sems (<[Pos.succ (brk st) := Semaphore 0]> (sems st))
          (set_keepalive 1 st))).

(** ** The tasks in memory *)

(** [c] gives the content of the queue of every pool.  The queues are well
    formed and hold allocated tasks; no task is in two queues; a task a
    worker has pulled and not yet run is allocated, in no queue and in no
    other worker's hands; every task lies below the allocation pointer;
    every thread has a live pool. *)
Record heap_ok (c : gmap addr (list addr)) (st : world) : Prop := HeapOk {
  ho_wf : ∀ p w, pools st !! p = Some w →
      ∃ l, c !! p = Some l ∧ queue_wf st (wqueue w) l;
  ho_alloc : ∀ p l a, c !! p = Some l → a ∈ l → is_Some (tasks st !! a);
  ho_disjoint : ∀ p1 p2 l1 l2 a,
      c !! p1 = Some l1 → c !! p2 = Some l2 → a ∈ l1 → a ∈ l2 → p1 = p2;
  ho_held : ∀ i t a, threads st !! i = Some t → t_pc t = W_call (Some a) →
      is_Some (tasks st !! a) ∧ ∀ p l, c !! p = Some l → a ∉ l;
  ho_single : ∀ i j t t' a,
      threads st !! i = Some t → threads st !! j = Some t' →
      t_pc t = W_call (Some a) → t_pc t' = W_call (Some a) → i = j;
  ho_fresh : ∀ a, is_Some (tasks st !! a) → (a < brk st)%positive;
  ho_pool : ∀ i t, threads st !! i = Some t →
      ∃ p, t_pool t = Some p ∧ is_Some (pools st !! p) ∧ (p < brk st)%positive
}.

(** ** What is run was submitted *)

(** The calls the allocated tasks stand for, and the calls submitted by
    the steps of a run. *)
Definition calls_in (h : gmap addr task) : list (Z * ptr) :=
  (λ kv, (function kv.2, wc kv.2)) <$> map_to_list h.

Definition submitted (ls : list label) : list (Z * ptr) :=
  omap (λ l, match l with L_add _ f arg => Some (f, arg) | _ => None end) ls.

(** A computation that starts the body of a task only by giving up the
    task, and makes no new task: the calls run so far together with the
    calls still allocated do not grow. *)
Definition accounted (st st' : world) : Prop :=
  runs (trace st') ++ calls_in (tasks st') ⊆+ runs (trace st) ++ calls_in (tasks st).

(** * Properties *)

(** ** Arithmetic on [int] counters *)

Lemma wrap_int_id (z : Z) : in_int z → wrap_int z = z.
Proof.
  unfold in_int, INT_MIN, INT_MAX, wrap_int. intros Hz.
  rewrite Z.mod_small; lia.
Qed.

Lemma wrap_int_mod (z : Z) : wrap_int z mod 4294967296 = z mod 4294967296.
Proof.
  unfold wrap_int.
  rewrite <- (Zminus_mod_idemp_l ((z + 2147483648) mod 4294967296)).
  rewrite Z.mod_mod by lia.
  rewrite Zminus_mod_idemp_l. f_equal. lia.
Qed.

(** ** Reading the store after a write *)

Lemma semaphore_post_ok st s sm :
  sems st !! s = Some sm →
  semaphore_post (Some s) st =
    Ok tt (set_trace (trace st ++ [EvSemSignal s])
             (set_sems (<[s := Semaphore 1]> (sems st)) st)).
Proof.
  intros Hs. unfold semaphore_post, bind, load_sem, store_sem, the_addr, ret, emit.
  rewrite Hs. reflexivity.
Qed.

(** ** Chains *)

Lemma chain_unique h p l1 l2 : chain h p l1 → chain h p l2 → l1 = l2.
Proof.
  revert p l2. induction l1 as [|a l1 IH]; intros p [|b l2]; simpl.
  - done.
  - intros -> [? _]. done.
  - intros [-> _] ?. done.
  - intros [-> (t & Ht & Hc)] [[= <-] (t' & Ht' & Hc')].
    rewrite Ht in Ht'. injection Ht' as <-. f_equal. eauto.
Qed.

Lemma chain_insert_fresh h p l a t :
  a ∉ l → chain h p l → chain (<[a := t]> h) p l.
Proof.
  revert p. induction l as [|b l IH]; simpl; intros p Ha; [done|].
  intros [-> (tb & Hb & Hc)]. split; [done|].
  exists tb. split.
  - rewrite lookup_insert_ne; [done|]. intros ->. apply Ha. left.
  - apply IH; [|done]. intros Hin. apply Ha. by right.
Qed.

Lemma chain_delete_fresh h p l a :
  a ∉ l → chain h p l → chain (delete a h) p l.
Proof.
  revert p. induction l as [|b l IH]; simpl; intros p Ha; [done|].
  intros [-> (tb & Hb & Hc)]. split; [done|].
  exists tb. split.
  - rewrite lookup_delete_ne; [done|]. intros ->. apply Ha. left.
  - apply IH; [|done]. intros Hin. apply Ha. by right.
Qed.

(** Linking a new last task behind the current last one. *)
Lemma chain_snoc h p l r rt a ta :
  chain h p l → last l = Some r → NoDup l → a ∉ l →
  h !! r = Some rt → h !! a = Some ta → previous ta = None →
  chain (<[r := set_previous (Some a) rt]> h) p (l ++ [a]).
Proof.
  revert p. induction l as [|b l IH]; intros p Hc Hl Hnd Ha Hr Hta Hprev; [done|].
  destruct Hc as [-> (tb & Hb & Hc)].
  assert (a ≠ r) as Har.
  { intros ->. apply Ha. apply list_elem_of_lookup.
    rewrite last_lookup in Hl. eauto. }
  apply NoDup_cons in Hnd as [Hbl Hnd].
  simpl. split; [done|].
  destruct l as [|c l].
  - simpl in Hl. injection Hl as ->. rewrite Hr in Hb. injection Hb as <-.
    simpl in Hc. exists (set_previous (Some a) rt). rewrite lookup_insert_eq.
    split; [done|]. simpl. split; [done|].
    exists ta. rewrite lookup_insert_ne by done. by rewrite Hprev.
  - assert (last (c :: l) = Some r) as Hl' by (by rewrite last_cons_cons in Hl).
    assert (b ≠ r) as Hbr.
    { intros ->. apply Hbl. apply list_elem_of_lookup.
      rewrite last_lookup in Hl'. eauto. }
    exists tb. rewrite lookup_insert_ne by done. split; [done|].
    apply IH; try done.
    intros Hin. apply Ha. by right.
Qed.

(** ** What [queue_push] and [queue_pull] do to a well-formed queue *)

Lemma queue_wf_invariant st q l : queue_wf st q l → queue_invariant st q.
Proof.
  intros [Hc Hr Hn Hnd Hb Hg]. split.
  - rewrite Hn, Hr. destruct l as [|a l]; simpl in *.
    + by rewrite Hc.
    + destruct Hc as [-> _]. split; [lia|]. by intros [? _].
  - by exists l.
Qed.

Lemma chain_allocated h p l a : chain h p l → a ∈ l → is_Some (h !! a).
Proof.
  revert p. induction l as [|x l IH]; intros p Hc Hin; [by apply not_elem_of_nil in Hin|].
  destruct Hc as [-> (t & Ht & Hc)].
  apply elem_of_cons in Hin as [->|Hin]; eauto.
Qed.

(** Pushing a task that is allocated and not queued: the new queue, and
    the new store up to the task heap [h']. *)
Lemma queue_push_wf st q l a ta :
  queue_wf st q l → tasks st !! a = Some ta → a ∉ l →
  Z.of_nat (length l) < INT_MAX →
  ∃ st' q' h' s,
    queue_push q (Some a) st = Ok q' st' ∧
    queue_wf st' q' (l ++ [a]) ∧
    st' = set_trace (trace st ++ [EvSemSignal s])
            (set_sems (<[s := Semaphore 1]> (sems st)) (set_tasks h' st)) ∧
    dom h' = dom (tasks st) ∧
    h' !! a = Some (set_previous None ta) ∧
    has_tasks q' = has_tasks q ∧
    has_tasks q = Some s.
Proof.
  intros [Hc Hr Hn Hnd Hb (s & sm & Hs & Hsm)] Hta Ha Hlt.
  unfold queue_push, bind, load_task, store_task. rewrite Hta. simpl.
  destruct l as [|b l].
  - simpl in Hn. rewrite Hn. simpl. unfold ret. simpl. rewrite Hs.
    erewrite semaphore_post_ok by (simpl; exact Hsm).
    eexists _, _, _, s. split; [reflexivity|].
    split; [|split; [reflexivity|split; [|split; [|done]]]].
    + constructor; simpl.
      * split; [done|]. eexists. rewrite lookup_insert_eq. done.
      * done.
      * by rewrite wrap_int_id by (unfold in_int, INT_MIN, INT_MAX; lia).
      * apply NoDup_singleton.
      * unfold INT_MAX. lia.
      * exists s, (Semaphore 1). by rewrite lookup_insert_eq.
    + apply dom_insert_lookup_L. eauto.
    + by rewrite lookup_insert_eq.
  - assert ((number_of_tasks q =? 0) = false) as -> by (apply Z.eqb_neq; simpl in Hn; lia).
    destruct (last_is_Some (b :: l)) as [_ Hsome].
    destruct Hsome as [r Hlast]; [done|].
    rewrite Hr, Hlast. simpl.
    assert (r ∈ b :: l) as Hrin.
    { apply list_elem_of_lookup. rewrite last_lookup in Hlast. eauto. }
    assert (a ≠ r) as Har by (intros ->; done).
    destruct (chain_allocated _ _ _ r Hc Hrin) as [rt Hrt].
    rewrite lookup_insert_ne by done. rewrite Hrt. unfold ret. simpl. rewrite Hs.
    erewrite semaphore_post_ok by (simpl; exact Hsm).
    eexists _, _, _, s. split; [reflexivity|].
    split; [|split; [reflexivity|split; [|split; [|done]]]].
    + constructor; simpl.
      * change (b :: l ++ [a]) with ((b :: l) ++ [a]).
        apply (chain_snoc _ _ (b :: l) r rt a (set_previous None ta)); try done.
        -- apply chain_insert_fresh; done.
        -- by rewrite lookup_insert_ne.
        -- by rewrite lookup_insert_eq.
      * change (b :: l ++ [a]) with ((b :: l) ++ [a]). by rewrite last_snoc.
      * rewrite Hn. simpl length in *. rewrite length_app. simpl.
        rewrite wrap_int_id by (unfold in_int, INT_MIN, INT_MAX in *; lia). lia.
      * change (b :: l ++ [a]) with ((b :: l) ++ [a]).
        apply NoDup_app. split; [done|]. split; [|apply NoDup_singleton].
        intros x Hx Hxa. apply list_elem_of_singleton in Hxa as ->. done.
      * rewrite length_app. simpl length in *. lia.
      * exists s, (Semaphore 1). by rewrite lookup_insert_eq.
    + rewrite dom_insert_lookup_L.
      * apply dom_insert_lookup_L. eauto.
      * rewrite lookup_insert_ne by done. eauto.
    + rewrite lookup_insert_ne by done. by rewrite lookup_insert_eq.
Qed.

(** Pulling from a queue that holds [a :: l]: the result, the new queue
    and the new store, all explicit. *)
Lemma queue_pull_cons st q a l :
  queue_wf st q (a :: l) →
  ∃ st' q', queue_pull q st = Ok (Some a, q') st' ∧
            queue_wf st' q' l ∧
            tasks st' = tasks st ∧
            has_tasks q' = has_tasks q ∧
            number_of_tasks q' = number_of_tasks q - 1 ∧
            (l = [] → st' = st) ∧
            (l ≠ [] → ∃ s, has_tasks q = Some s ∧
                           st' = set_trace (trace st ++ [EvSemSignal s])
                                   (set_sems (<[s := Semaphore 1]> (sems st)) st)).
Proof.
  intros [Hc Hr Hn Hnd Hb (s & sm & Hs & Hsm)].
  destruct Hc as [Hf (ta & Hta & Hc)].
  apply NoDup_cons in Hnd as [Hal Hnd].
  unfold queue_pull. rewrite Hf.
  assert ((number_of_tasks q =? 0) = false) as -> by (apply Z.eqb_neq; simpl in Hn; lia).
  destruct l as [|b l].
  - simpl in Hn. rewrite Hn. simpl. unfold ret.
    eexists _, _. split; [reflexivity|].
    split; [|repeat split; try done].
    constructor; simpl; try done; eauto.
  - assert ((number_of_tasks q =? 1) = false) as ->
      by (apply Z.eqb_neq; simpl in Hn; lia).
    unfold bind, load_task. rewrite Hta. simpl. rewrite Hs.
    erewrite semaphore_post_ok by exact Hsm. unfold ret.
    eexists _, _. split; [reflexivity|].
    split; [|repeat split; try done].
    + constructor; simpl; try done.
      * rewrite Hn. simpl length in *.
        rewrite wrap_int_id by (unfold in_int, INT_MIN, INT_MAX in *; lia). lia.
      * simpl length in *. lia.
      * exists s, (Semaphore 1). by rewrite lookup_insert_eq.
    + simpl. rewrite Hn. simpl length in *.
      rewrite wrap_int_id by (unfold in_int, INT_MIN, INT_MAX in *; lia). lia.
    + intros _. exists s. done.
Qed.

Lemma queue_pull_nil st q :
  queue_wf st q [] → queue_pull q st = Ok (None, q) st.
Proof.
  intros [Hc Hr Hn Hnd Hb Hg]. simpl in *.
  unfold queue_pull. rewrite Hn, Hc. reflexivity.
Qed.

Lemma semaphore_init_ok st s :
  semaphore_init (Some s) 0 st = Ok 0 (set_sems (<[s := Semaphore 0]> (sems st)) st).
Proof. reflexivity. Qed.

Lemma queue_init_wf st rc q st' :
  queue_init st = Ok (rc, q) st' → rc = 0 → queue_wf st' q [].
Proof.
  unfold queue_init, bind, malloc.
  destruct (oom st) as [|[] o]; simpl; unfold ret; intros [= <- <- <-] Hrc; try done.
  - constructor; simpl; try done; [apply NoDup_nil_2|].
    exists (brk st), (Semaphore 0). by rewrite lookup_insert_eq.
  - constructor; simpl; try done; [apply NoDup_nil_2|].
    exists (brk st), (Semaphore 0). by rewrite lookup_insert_eq.
Qed.

(** Freeing a task that is no longer linked keeps the queue well formed. *)
Lemma queue_wf_free st q l a :
  queue_wf st q l → a ∉ l →
  queue_wf (set_tasks (delete a (tasks st)) st) q l.
Proof.
  intros [Hc Hr Hn Hnd Hb Hg] Ha. constructor; simpl; try done.
  by apply chain_delete_fresh.
Qed.

(** The loop of [queue_clear] on a queue holding [l]: it ends, every task
    of [l] has been freed and the queue is empty. *)
Lemma queue_clear_loop_wf l : ∀ fuel st q,
  queue_wf st q l → (length l ≤ fuel)%nat →
  ∃ st' q', queue_clear_loop fuel q st = Ok q' st' ∧
            queue_wf st' q' [] ∧
            has_tasks q' = has_tasks q ∧
            tasks st' = foldl (λ h a, delete a h) (tasks st) l.
Proof.
  induction l as [|a l IH]; intros fuel st q Hwf Hfuel.
  - exists st, q. split.
    + destruct Hwf as [_ _ Hn _ _ _]. simpl in Hn.
      destruct fuel; simpl; rewrite Hn; reflexivity.
    + done.
  - destruct fuel as [|fuel]; [simpl in Hfuel; lia|].
    pose proof Hwf as [(Hf & ta & Hta & _) _ Hn Hnd _ _].
    apply NoDup_cons in Hnd as [Hal _].
    destruct (queue_pull_cons _ _ _ _ Hwf) as (st1 & q1 & Hpull & Hwf1 & Htasks & Hsem & _).
    simpl.
    assert ((number_of_tasks q =? 0) = false) as -> by (apply Z.eqb_neq; simpl in Hn; lia).
    unfold bind at 1. rewrite Hpull. simpl.
    unfold bind at 1. unfold free_task. rewrite Htasks, Hta.
    destruct (IH fuel (set_tasks (delete a (tasks st)) st1) q1) as (st2 & q2 & Hloop & Hwf2 & Hg2 & Hfreed).
    + pose proof (queue_wf_free st1 q1 l a Hwf1 Hal) as H. by rewrite Htasks in H.
    + simpl in Hfuel. lia.
    + exists st2, q2. split; [done|]. split; [done|]. split; [congruence|]. done.
Qed.

Lemma clear_fuel_wf st q l : queue_wf st q l → clear_fuel q = length l.
Proof.
  intros [_ _ Hn _ Hb _]. unfold clear_fuel. rewrite Hn.
  unfold INT_MAX in Hb. rewrite Z.mod_small by lia. lia.
Qed.

Lemma queue_clear_wf st q l :
  queue_wf st q l →
  ∃ st' q', queue_clear q st = Ok q' st' ∧
            queue_wf st' q' [] ∧
            has_tasks q' = has_tasks q ∧
            tasks st' = foldl (λ h a, delete a h) (tasks st) l.
Proof.
  intros Hwf.
  destruct (queue_clear_loop_wf l (clear_fuel q) st q Hwf) as (st1 & q1 & Hloop & Hwf1 & Hg & Ht).
  { by rewrite (clear_fuel_wf st q l). }
  destruct Hwf1 as [_ _ _ _ _ (s & sm & Hs & Hsm)].
  unfold queue_clear, bind. rewrite Hloop, Hs.
  unfold semaphore_reset, bind, load_sem. rewrite Hsm.
  rewrite semaphore_init_ok. unfold ret.
  eexists _, _. split; [reflexivity|]. split; [|split; [simpl; congruence|done]].
  constructor; simpl; try done; [apply NoDup_nil_2|].
  exists s, (Semaphore 0). by rewrite lookup_insert_eq.
Qed.

Lemma free_task_fuel p st : free_task p st ≠ OutOfFuel.
Proof. unfold free_task. repeat case_match; done. Qed.

Lemma load_task_fuel p st : load_task p st ≠ OutOfFuel.
Proof. unfold load_task. repeat case_match; done. Qed.

Lemma semaphore_post_fuel p st : semaphore_post p st ≠ OutOfFuel.
Proof.
  unfold semaphore_post, bind, load_sem, store_sem, the_addr, emit, ret, fault.
  repeat case_match; done.
Qed.

(** The fuel given to the loop of [queue_clear] is enough on every queue,
    well formed or not: the loop ends or stops on a memory fault. *)
Lemma queue_clear_loop_fuel : ∀ fuel q st,
  in_int (number_of_tasks q) →
  (clear_fuel q ≤ fuel)%nat →
  queue_clear_loop fuel q st ≠ OutOfFuel.
Proof.
  induction fuel as [|fuel IH]; intros q st Hint Hfuel.
  - simpl. destruct (number_of_tasks q =? 0) eqn:Hz; [done|].
    apply Z.eqb_neq in Hz. exfalso.
    unfold clear_fuel, in_int, INT_MIN, INT_MAX in *.
    pose proof (Z.mod_pos_bound (number_of_tasks q) 4294967296).
    assert (number_of_tasks q mod 4294967296 = 0) as Hm by lia.
    apply Z.mod_divide in Hm; [|lia]. destruct Hm as [k Hk]. lia.
  - simpl. destruct (number_of_tasks q =? 0) eqn:Hz; [done|].
    apply Z.eqb_neq in Hz.
    unfold bind at 1. unfold queue_pull. rewrite (proj2 (Z.eqb_neq _ _) Hz).
    destruct (number_of_tasks q =? 1) eqn:H1.
    + unfold ret. unfold bind at 1.
      pose proof (free_task_fuel (front q) st).
      destruct (free_task _ _); try done.
      destruct fuel; simpl; done.
    + unfold bind at 1.
      pose proof (load_task_fuel (front q) st).
      destruct (load_task _ _) as [tk st1| |]; try done.
      unfold bind at 1.
      pose proof (semaphore_post_fuel (has_tasks q) st1).
      simpl has_tasks.
      destruct (semaphore_post _ _) as [[] st2| |]; try done.
      unfold ret. unfold bind at 1.
      pose proof (free_task_fuel (front q) st2). simpl fst.
      destruct (free_task _ _) as [[] st3| |]; try done.
      simpl. apply IH.
      * simpl. unfold wrap_int, in_int, INT_MIN, INT_MAX.
        pose proof (Z.mod_pos_bound (number_of_tasks q - 1 + 2147483648) 4294967296). lia.
      * simpl. unfold clear_fuel in *. simpl. rewrite wrap_int_mod.
        assert (number_of_tasks q mod 4294967296 ≠ 0) as Hm.
        { intros Hm. apply Z.mod_divide in Hm; [|lia]. destruct Hm as [k Hk].
          unfold in_int, INT_MIN, INT_MAX in *. apply Z.eqb_neq in H1. lia. }
        pose proof (Z.mod_pos_bound (number_of_tasks q) 4294967296).
        assert ((number_of_tasks q - 1) mod 4294967296 = number_of_tasks q mod 4294967296 - 1) as ->.
        { symmetry. apply Z.mod_unique_pos with (q := number_of_tasks q / 4294967296); [lia|].
          pose proof (Z.div_mod (number_of_tasks q) 4294967296). lia. }
        lia.
Qed.

(** ** The list model of straight-line programs *)

Lemma fifo_ops_order ops : ∀ l,
  successes (fst (fifo_ops ops l)) ++ snd (fifo_ops ops l) = l ++ pushed ops.
Proof.
  induction ops as [|[a|] ops IH]; intros l; simpl.
  - by rewrite app_nil_r.
  - rewrite IH. by rewrite <- app_assoc.
  - destruct l as [|x l]; simpl; rewrite IH; done.
Qed.

Lemma run_ops_refines ops : ∀ st q l,
  queue_wf st q l →
  NoDup (l ++ pushed ops) →
  (∀ a, a ∈ pushed ops → a ∈ dom (tasks st)) →
  Z.of_nat (length (l ++ pushed ops)) <= INT_MAX →
  ∃ st' q', run_ops ops q st = Ok (fst (fifo_ops ops l), q') st' ∧
            queue_wf st' q' (snd (fifo_ops ops l)).
Proof.
  induction ops as [|[a|] ops IH]; intros st q l Hwf Hnd Hdom Hlen; simpl.
  - by exists st, q.
  - simpl in Hnd, Hlen.
    assert (a ∉ l) as Hal.
    { apply NoDup_app in Hnd as (_ & Hd & _). intros Hin. apply (Hd a Hin). left. }
    destruct (proj1 (elem_of_dom (tasks st) a)) as [ta Hta].
    { apply Hdom. left. }
    rewrite length_app in Hlen. simpl in Hlen.
    destruct (queue_push_wf st q l a ta Hwf Hta Hal)
      as (st1 & q1 & h1 & s1 & Hpush & Hwf1 & Hst1 & Hdom1 & _); [lia|].
    assert (dom (tasks st1) = dom (tasks st)) as Hdom1' by (by rewrite Hst1).
    destruct (IH st1 q1 (l ++ [a])) as (st2 & q2 & Hrun & Hwf2).
    + done.
    + by rewrite <- app_assoc.
    + intros b Hb. rewrite Hdom1'. apply Hdom. by right.
    + rewrite <- app_assoc. simpl. rewrite length_app. simpl. lia.
    + exists st2, q2. unfold bind. rewrite Hpush. done.
  - destruct l as [|x l].
    + destruct (IH st q [] Hwf Hnd Hdom Hlen) as (st2 & q2 & Hrun & Hwf2).
      exists st2, q2. unfold bind. rewrite (queue_pull_nil st q Hwf).
      simpl. rewrite Hrun. done.
    + destruct (queue_pull_cons st q x l Hwf) as (st1 & q1 & Hpull & Hwf1 & Htasks & _).
      destruct (IH st1 q1 l) as (st2 & q2 & Hrun & Hwf2).
      * done.
      * simpl in Hnd. by apply NoDup_cons in Hnd as [_ ?].
      * by rewrite Htasks.
      * simpl in Hlen. lia.
      * exists st2, q2. unfold bind. rewrite Hpull. simpl. rewrite Hrun. done.
Qed.

(** ** The claims about the queue *)

(** C1. On a queue that holds at least one task, [queue_pull] removes the
    oldest one; when tasks remain afterwards it posts the semaphore
    [has_tasks] (the value becomes 1 and the condition is signalled once)
    before it returns, and when the queue is left empty it does not touch
    the semaphore. *)
Theorem queue_pull_reposts_semaphore st q l
    (Hwf : queue_wf st q l) (Hne : number_of_tasks q ≠ 0) :
  ∃ a q' st' s,
    queue_pull q st = Ok (Some a, q') st' ∧
    head l = Some a ∧
    has_tasks q = Some s ∧
    number_of_tasks q' = number_of_tasks q - 1 ∧
    (0 < number_of_tasks q' →
       trace st' = trace st ++ [EvSemSignal s] ∧
       sems st' !! s = Some (Semaphore 1)) ∧
    (number_of_tasks q' = 0 →
       trace st' = trace st ∧ sems st' = sems st).
Proof.
  destruct l as [|a l].
  { destruct Hwf as [_ _ Hn _ _ _]. simpl in Hn. done. }
  destruct (queue_pull_cons st q a l Hwf)
    as (st' & q' & Hpull & Hwf' & _ & _ & Hcount & Hempty & Hrest).
  pose proof Hwf as [_ _ _ _ _ (s & sm & Hs & _)].
  exists a, q', st', s. repeat split; try done.
  - destruct l as [|b l].
    + destruct Hwf' as [_ _ Hn' _ _ _]. simpl in Hn'. lia.
    + destruct Hrest as (s' & Hs' & ->); [done|]. simpl. congruence.
  - destruct l as [|b l].
    + destruct Hwf' as [_ _ Hn' _ _ _]. simpl in Hn'. lia.
    + destruct Hrest as (s' & Hs' & ->); [done|]. simpl.
      assert (s' = s) as -> by congruence. by rewrite lookup_insert_eq.
  - rewrite Hempty; [done|]. destruct Hwf' as [_ _ Hn' _ _ _].
    destruct l; [done|]. simpl in Hn'. lia.
  - rewrite Hempty; [done|]. destruct Hwf' as [_ _ Hn' _ _ _].
    destruct l; [done|]. simpl in Hn'. lia.
Qed.

Lemma two_tasks_wf :
  queue_wf (after two_tasks) (queue_of pool1 (after two_tasks)) [5%positive; 6%positive].
Proof.
  constructor.
  - vm_compute. split; [reflexivity|]. eexists. split; [reflexivity|].
    split; [reflexivity|]. eexists. split; reflexivity.
  - reflexivity.
  - reflexivity.
  - apply NoDup_cons. split; [|apply NoDup_singleton].
    intros H. apply list_elem_of_singleton in H. discriminate.
  - vm_compute. discriminate.
  - exists 2%positive, (Semaphore 1). split; reflexivity.
Defined.

Lemma queue_pull_reposts_semaphore_witness :
  ∃ a q' st' s,
    queue_pull (queue_of pool1 (after two_tasks)) (after two_tasks) = Ok (Some a, q') st' ∧
    head [5%positive; 6%positive] = Some a ∧
    has_tasks (queue_of pool1 (after two_tasks)) = Some s ∧
    number_of_tasks q' = number_of_tasks (queue_of pool1 (after two_tasks)) - 1 ∧
    (0 < number_of_tasks q' →
       trace st' = trace (after two_tasks) ++ [EvSemSignal s] ∧
       sems st' !! s = Some (Semaphore 1)) ∧
    (number_of_tasks q' = 0 →
       trace st' = trace (after two_tasks) ∧ sems st' = sems (after two_tasks)).
Proof.
  apply (queue_pull_reposts_semaphore _ _ _ two_tasks_wf).
  vm_compute. discriminate.
Defined.

(** C10. On an empty queue (count zero, invariant in force) [queue_pull]
    returns NULL and changes nothing: the queue is the same and so is the
    whole store, semaphore and trace included. *)
Theorem queue_pull_empty st q
    (Hinv : queue_invariant st q) (Hzero : number_of_tasks q = 0) :
  queue_pull q st = Ok (None, q) st.
Proof.
  destruct Hinv as [Hiff _]. destruct (proj1 Hiff Hzero) as [Hf _].
  unfold queue_pull. rewrite Hzero, Hf. reflexivity.
Qed.

Lemma boot_wf : queue_wf (after boot) (queue_of pool1 (after boot)) [].
Proof.
  constructor.
  - reflexivity.
  - reflexivity.
  - reflexivity.
  - apply NoDup_nil_2.
  - vm_compute. discriminate.
  - exists 2%positive, (Semaphore 0). split; reflexivity.
Defined.

Lemma queue_pull_empty_witness :
  queue_pull (queue_of pool1 (after boot)) (after boot)
  = Ok (None, queue_of pool1 (after boot)) (after boot).
Proof.
  apply queue_pull_empty.
  - apply (queue_wf_invariant _ _ _ boot_wf).
  - reflexivity.
Defined.

(** C3. Any program of pushes and pulls on a well-formed queue, each task
    being pushed once, behaves like the same program on a first-in
    first-out list: a pull returns NULL only on an empty queue, and the
    tasks returned by the successful pulls, followed by the tasks still
    queued, are the tasks already queued followed by the pushed ones, in
    the order of the pushes. *)
Theorem queue_fifo ops st q l
    (Hwf : queue_wf st q l)
    (Hnd : NoDup (l ++ pushed ops))
    (Hdom : ∀ a, a ∈ pushed ops → is_Some (tasks st !! a))
    (Hlen : Z.of_nat (length (l ++ pushed ops)) <= INT_MAX) :
  ∃ rs q' st' rest,
    run_ops ops q st = Ok (rs, q') st' ∧
    rs = fst (fifo_ops ops l) ∧
    queue_wf st' q' rest ∧
    successes rs ++ rest = l ++ pushed ops ∧
    successes rs = take (length (successes rs)) (l ++ pushed ops).
Proof.
  destruct (run_ops_refines ops st q l Hwf Hnd) as (st' & q' & Hrun & Hwf'); [|done|].
  { intros a Ha. apply elem_of_dom. by apply Hdom. }
  exists (fst (fifo_ops ops l)), q', st', (snd (fifo_ops ops l)).
  pose proof (fifo_ops_order ops l) as Hord.
  split; [done|]. split; [done|]. split; [done|]. split; [done|].
  rewrite <- Hord. by rewrite take_app_length.
Qed.

Lemma two_allocated_wf :
  queue_wf two_allocated (queue_of pool1 (after boot)) [].
Proof.
  constructor.
  - reflexivity.
  - reflexivity.
  - reflexivity.
  - apply NoDup_nil_2.
  - vm_compute. discriminate.
  - exists 2%positive, (Semaphore 0). split; reflexivity.
Defined.

Lemma queue_fifo_witness :
  ∃ rs q' st' rest,
    run_ops sample_ops (queue_of pool1 (after boot)) two_allocated = Ok (rs, q') st' ∧
    rs = [Some 10%positive; Some 11%positive; None] ∧
    queue_wf st' q' rest ∧
    successes rs ++ rest = [10%positive; 11%positive] ∧
    successes rs = take (length (successes rs)) [10%positive; 11%positive].
Proof.
  apply (queue_fifo sample_ops two_allocated _ [] two_allocated_wf).
  - simpl. apply NoDup_cons. split; [|apply NoDup_singleton].
    intros H. apply list_elem_of_singleton in H. discriminate.
  - intros a Ha. simpl in Ha.
    apply elem_of_cons in Ha as [->|Ha]; [by eexists|].
    apply list_elem_of_singleton in Ha as ->. by eexists.
  - vm_compute. discriminate.
Defined.

(** C5. The queue invariant.  A queue that represents the tasks [l]
    satisfies the invariant of the data model (the count is zero exactly
    when front and rear are both NULL, and the count is the number of
    tasks linked from front), and each of push (of a task that is not
    queued, below [INT_MAX] tasks), pull and clear returns and leaves a
    queue that represents the expected tasks and so satisfies it again. *)
Theorem queue_invariant_preserved st q l (Hwf : queue_wf st q l) :
  queue_invariant st q ∧
  (∀ a ta, tasks st !! a = Some ta → a ∉ l → Z.of_nat (length l) < INT_MAX →
     ∃ st' q', queue_push q (Some a) st = Ok q' st' ∧
               queue_wf st' q' (l ++ [a]) ∧ queue_invariant st' q') ∧
  (∃ st' q', queue_pull q st = Ok (head l, q') st' ∧
             queue_wf st' q' (tail l) ∧ queue_invariant st' q') ∧
  (∃ st' q', queue_clear q st = Ok q' st' ∧
             queue_wf st' q' [] ∧ queue_invariant st' q').
Proof.
  split; [by eapply queue_wf_invariant|]. split; [|split].
  - intros a ta Hta Hal Hlt.
    destruct (queue_push_wf st q l a ta Hwf Hta Hal Hlt) as (st' & q' & h' & s' & Hpush & Hwf' & _).
    exists st', q'. split; [done|]. split; [done|]. by eapply queue_wf_invariant.
  - destruct l as [|a l].
    + exists st, q. rewrite (queue_pull_nil st q Hwf).
      split; [done|]. split; [done|]. by eapply queue_wf_invariant.
    + destruct (queue_pull_cons st q a l Hwf) as (st' & q' & Hpull & Hwf' & _).
      exists st', q'. split; [done|]. split; [done|]. by eapply queue_wf_invariant.
  - destruct (queue_clear_wf st q l Hwf) as (st' & q' & Hclear & Hwf' & _).
    exists st', q'. split; [done|]. split; [done|]. by eapply queue_wf_invariant.
Qed.

Lemma queue_invariant_preserved_witness :
  queue_invariant (after two_tasks) (queue_of pool1 (after two_tasks)) ∧
  (∀ a ta, tasks (after two_tasks) !! a = Some ta → a ∉ [5%positive; 6%positive] →
     Z.of_nat (length [5%positive; 6%positive]) < INT_MAX →
     ∃ st' q', queue_push (queue_of pool1 (after two_tasks)) (Some a) (after two_tasks) = Ok q' st' ∧
               queue_wf st' q' ([5%positive; 6%positive] ++ [a]) ∧ queue_invariant st' q') ∧
  (∃ st' q', queue_pull (queue_of pool1 (after two_tasks)) (after two_tasks) = Ok (Some 5%positive, q') st' ∧
             queue_wf st' q' [6%positive] ∧ queue_invariant st' q') ∧
  (∃ st' q', queue_clear (queue_of pool1 (after two_tasks)) (after two_tasks) = Ok q' st' ∧
             queue_wf st' q' [] ∧ queue_invariant st' q').
Proof.
  apply (queue_invariant_preserved _ _ _ two_tasks_wf).
Defined.

(** ** The pool API *)

Lemma queue_wf_ext st st' q l :
  tasks st' = tasks st → sems st' = sems st →
  queue_wf st q l → queue_wf st' q l.
Proof.
  intros Ht Hs [Hc Hr Hn Hnd Hb Hg]. constructor; try done.
  - by rewrite Ht.
  - by rewrite Hs.
Qed.

(** Creating an object at an unused address leaves the queue as it is. *)
Lemma queue_wf_store_fresh st q l a t :
  queue_wf st q l → tasks st !! a = None →
  queue_wf (set_tasks (<[a := t]> (tasks st)) st) q l ∧ a ∉ l.
Proof.
  intros Hwf Hfresh.
  assert (a ∉ l) as Hal.
  { intros Hin. destruct Hwf as [Hc _ _ _ _ _].
    destruct (chain_allocated _ _ _ a Hc Hin) as [x Hx]. congruence. }
  split; [|done].
  destruct Hwf as [Hc Hr Hn Hnd Hb Hg]. constructor; simpl; try done.
  by apply chain_insert_fresh.
Qed.

(** C6. [pgmoneta_workers_add] on NULL or on a live pool always returns,
    whatever the workers are doing; it returns 1 exactly when the pool
    pointer is NULL or [malloc] fails, and then the tasks, the semaphores,
    the pools (hence the queue) and the threads are as before; otherwise it
    returns 0, the new task carries the function and the argument and is
    the last task of the queue, and the pool is otherwise unchanged. *)
Theorem workers_add_spec st workers f arg l
    (Hpool : ∀ p, workers = Some p →
               pool_holds st p l ∧ Z.of_nat (length l) < INT_MAX)
    (Hfresh : tasks st !! brk st = None) :
  ∃ rc st',
    pgmoneta_workers_add workers f arg st = Ok rc st' ∧
    enabled (L_add workers f arg) st = true ∧
    (rc = 0 ∨ rc = 1) ∧
    (rc = 1 ↔ workers = None ∨ head (oom st) = Some true) ∧
    (rc = 1 →
       tasks st' = tasks st ∧ sems st' = sems st ∧
       pools st' = pools st ∧ threads st' = threads st) ∧
    (rc = 0 → ∀ p, workers = Some p →
       ∃ w w' t,
         pools st !! p = Some w ∧ pools st' !! p = Some w' ∧
         queue_wf st' (wqueue w') (l ++ [brk st]) ∧
         tasks st' !! brk st = Some t ∧ function t = f ∧ wc t = arg ∧
         set_queue (wqueue w) w' = w).
Proof.
  destruct workers as [p|].
  2:{ exists 1, st. repeat split; try done; eauto. }
  destruct (Hpool p eq_refl) as [(w & Hw & Hwf) Hlt].
  unfold pgmoneta_workers_add, bind at 1, malloc.
  destruct (oom st) as [|[] o] eqn:Hoom.
  - (* malloc returns a fresh address *)
    set (st1 := set_alloc (Pos.succ (brk st)) (tl []) st).
    unfold bind at 1, store_task.
    set (st2 := set_tasks (<[brk st := Task f arg None]> (tasks st1)) st1).
    destruct (queue_wf_store_fresh st (wqueue w) l (brk st) (Task f arg None) Hwf Hfresh)
      as [Hwf2 Hal].
    apply (queue_wf_ext _ st2) in Hwf2; [|done|done].
    destruct (queue_push_wf st2 (wqueue w) l (brk st) (Task f arg None) Hwf2)
      as (st3 & q3 & h3 & s3 & Hpush & Hwf3 & Hst3 & Hdom3 & Hh3 & _); try done.
    { simpl. by rewrite lookup_insert_eq. }
    unfold bind at 1, on_queue, bind at 1, load_pool. simpl. rewrite Hw.
    unfold bind at 1. unfold bind at 1. rewrite Hpush. unfold ret at 2.
    unfold bind at 1. rewrite Hst3. simpl. rewrite Hw.
    unfold bind, store_pool, ret.
    eexists 0, _. split; [reflexivity|]. split; [reflexivity|].
    split; [by left|]. split; [split; [done|by intros [|]]|]. split; [done|].
    intros _ p' [= <-]. exists w, (set_queue q3 w), (set_previous None (Task f arg None)).
    split; [done|]. split; [simpl; by rewrite lookup_insert_eq|].
    split; [|split; [simpl; done|split; [done|split; [done|by destruct w]]]].
    simpl. eapply queue_wf_ext; [| |exact Hwf3]; by rewrite Hst3.
  - (* malloc returns NULL *)
    unfold bind, pgmoneta_log_error, emit, ret.
    eexists 1, _. split; [reflexivity|]. split; [reflexivity|].
    split; [by right|]. split; [split; [by right|done]|]. split; [done|]. done.
  - set (st1 := set_alloc (Pos.succ (brk st)) (tl (false :: o)) st).
    unfold bind at 1, store_task.
    set (st2 := set_tasks (<[brk st := Task f arg None]> (tasks st1)) st1).
    destruct (queue_wf_store_fresh st (wqueue w) l (brk st) (Task f arg None) Hwf Hfresh)
      as [Hwf2 Hal].
    apply (queue_wf_ext _ st2) in Hwf2; [|done|done].
    destruct (queue_push_wf st2 (wqueue w) l (brk st) (Task f arg None) Hwf2)
      as (st3 & q3 & h3 & s3 & Hpush & Hwf3 & Hst3 & Hdom3 & Hh3 & _); try done.
    { simpl. by rewrite lookup_insert_eq. }
    unfold bind at 1, on_queue, bind at 1, load_pool. simpl. rewrite Hw.
    unfold bind at 1. unfold bind at 1. rewrite Hpush. unfold ret at 2.
    unfold bind at 1. rewrite Hst3. simpl. rewrite Hw.
    unfold bind, store_pool, ret.
    eexists 0, _. split; [reflexivity|]. split; [reflexivity|].
    split; [by left|]. split; [split; [done|by intros [|]]|]. split; [done|].
    intros _ p' [= <-]. exists w, (set_queue q3 w), (set_previous None (Task f arg None)).
    split; [done|]. split; [simpl; by rewrite lookup_insert_eq|].
    split; [|split; [simpl; done|split; [done|split; [done|by destruct w]]]].
    simpl. eapply queue_wf_ext; [| |exact Hwf3]; by rewrite Hst3.
Qed.

(** ** Frame properties of the C functions *)

Section Keeps.
Variable R : world → world → Prop.
Hypothesis R_refl : ∀ st, R st st.
Hypothesis R_trans : ∀ a b c, R a b → R b c → R a c.

Lemma keeps_ret {A} (a : A) : keeps R (ret a).
Proof. intros st x st' [= _ <-]. apply R_refl. Qed.

Lemma keeps_fault {A} : keeps R (@fault A).
Proof. intros st x st' H. discriminate. Qed.

Lemma keeps_bind {A B} (m : M A) (k : A → M B) :
  keeps R m → (∀ a, keeps R (k a)) → keeps R (bind m k).
Proof.
  intros Hm Hk st b st'. unfold bind.
  destruct (m st) as [a st1| |] eqn:E; try done.
  intros Hk'. eapply R_trans; [by eapply Hm|by eapply Hk].
Qed.
End Keeps.

Lemma keeps_weaken (R R' : world → world → Prop) {A} (m : M A) :
  (∀ st st', R st st' → R' st st') → keeps R m → keeps R' m.
Proof. intros HR Hm st a st' H. apply HR. by eapply Hm. Qed.

Lemma quiet_refl st : quiet st st.
Proof. exists []. by rewrite app_nil_r. Qed.

Lemma quiet_trans a b c : quiet a b → quiet b c → quiet a c.
Proof.
  intros (e1 & H1 & Q1) (e2 & H2 & Q2). exists (e1 ++ e2).
  rewrite H2, H1, app_assoc. split; [done|].
  rewrite forallb_app. by rewrite Q1, Q2.
Qed.

Lemma calm_refl st : calm st st.
Proof. split; [done|]. exists []. by rewrite app_nil_r. Qed.

Lemma calm_trans a b c : calm a b → calm b c → calm a c.
Proof.
  intros (K1 & n1 & H1) (K2 & n2 & H2). split; [congruence|].
  exists (n1 ++ n2). by rewrite H2, H1, app_assoc.
Qed.

Lemma still_refl st : still st st.
Proof. split; [apply quiet_refl|apply calm_refl]. Qed.

Lemma still_trans a b c : still a b → still b c → still a c.
Proof.
  intros [Q1 C1] [Q2 C2]. split; [by eapply quiet_trans|by eapply calm_trans].
Qed.

(** A step that only touches the heaps, the allocator or the pending calls. *)
Lemma still_heaps st st' :
  worker_keepalive st' = worker_keepalive st → threads st' = threads st →
  trace st' = trace st → still st st'.
Proof.
  intros Hk Ht Htr. split.
  - exists []. by rewrite app_nil_r.
  - split; [done|]. exists []. by rewrite app_nil_r.
Qed.

Lemma still_emit st e :
  is_idle_signal e = false → still st (set_trace (trace st ++ [e]) st).
Proof.
  intros He. split.
  - exists [e]. split; [done|]. simpl. by rewrite He.
  - split; [done|]. exists []. simpl. by rewrite app_nil_r.
Qed.

Lemma still_bind {A B} (m : M A) (k : A → M B) :
  keeps still m → (∀ a, keeps still (k a)) → keeps still (bind m k).
Proof. apply keeps_bind. exact still_trans. Qed.

Lemma still_ret {A} (a : A) : keeps still (ret a).
Proof. apply keeps_ret. exact still_refl. Qed.

Lemma quiet_bind {A B} (m : M A) (k : A → M B) :
  keeps quiet m → (∀ a, keeps quiet (k a)) → keeps quiet (bind m k).
Proof. apply keeps_bind. exact quiet_trans. Qed.

Lemma quiet_ret {A} (a : A) : keeps quiet (ret a).
Proof. apply keeps_ret. exact quiet_refl. Qed.

(** Closes [keeps still m] for a primitive [m] whose new store is explicit. *)
Ltac keeps_prim :=
  let st := fresh "st" in let a := fresh "a" in
  let st' := fresh "st'" in let H := fresh "H" in
  intros st a st' H;
  repeat match type of H with
         | context [match ?x with _ => _ end] => destruct x eqn:?; try discriminate
         end;
  injection H as <- <-;
  apply still_heaps; reflexivity.

Lemma keeps_malloc : keeps still malloc.
Proof. unfold malloc. keeps_prim. Qed.
Lemma keeps_load_task p : keeps still (load_task p).
Proof. unfold load_task. keeps_prim. Qed.
Lemma keeps_store_task p t : keeps still (store_task p t).
Proof. unfold store_task. keeps_prim. Qed.
Lemma keeps_free_task p : keeps still (free_task p).
Proof. unfold free_task. keeps_prim. Qed.
Lemma keeps_load_sem p : keeps still (load_sem p).
Proof. unfold load_sem. keeps_prim. Qed.
Lemma keeps_store_sem p s : keeps still (store_sem p s).
Proof. unfold store_sem. keeps_prim. Qed.
Lemma keeps_free_sem p : keeps still (free_sem p).
Proof. unfold free_sem. keeps_prim. Qed.
Lemma keeps_load_pool p : keeps still (load_pool p).
Proof. unfold load_pool. keeps_prim. Qed.
Lemma keeps_store_pool p w : keeps still (store_pool p w).
Proof. unfold store_pool. keeps_prim. Qed.
Lemma keeps_free_pool p : keeps still (free_pool p).
Proof. unfold free_pool. keeps_prim. Qed.
Lemma keeps_store_wrec p w : keeps still (store_wrec p w).
Proof. unfold store_wrec. keeps_prim. Qed.
Lemma keeps_free_wrec p : keeps still (free_wrec p).
Proof. unfold free_wrec. keeps_prim. Qed.
Lemma keeps_the_addr p : keeps still (the_addr p).
Proof. unfold the_addr, ret, fault. keeps_prim. Qed.
Lemma keeps_add_pending c : keeps still (add_pending c).
Proof. unfold add_pending. keeps_prim. Qed.
Lemma keeps_drop_pending c : keeps still (drop_pending c).
Proof. unfold drop_pending. keeps_prim. Qed.
Lemma keeps_read_keepalive : keeps still read_keepalive.
Proof. unfold read_keepalive. keeps_prim. Qed.

Lemma keeps_emit e : is_idle_signal e = false → keeps still (emit e).
Proof. intros He st a st' [= _ <-]. by apply still_emit. Qed.

Lemma keeps_pthread_create w : keeps still (pthread_create w).
Proof.
  intros st a st' H. unfold pthread_create in H.
  destruct (wrecs st !! w); [|done]. injection H as <- <-. split.
  - exists [EvThreadCreate (length (threads st))]. done.
  - split; [done|]. by eexists.
Qed.

Create HintDb frame discriminated.
#[global] Hint Resolve keeps_malloc keeps_load_task keeps_store_task keeps_free_task
  keeps_load_sem keeps_store_sem keeps_free_sem keeps_load_pool keeps_store_pool
  keeps_free_pool keeps_store_wrec keeps_free_wrec keeps_the_addr keeps_add_pending
  keeps_drop_pending keeps_read_keepalive keeps_pthread_create : frame.
#[global] Hint Extern 1 (keeps still (emit _)) => (apply keeps_emit; reflexivity) : frame.
#[global] Hint Extern 1 (keeps still pgmoneta_log_error) => (apply keeps_emit; reflexivity) : frame.

(** Decomposes a composite computation down to its primitives. *)
Ltac keeps_tac :=
  repeat first
    [ apply still_ret
    | apply keeps_fault
    | apply still_bind; [|intros ?]
    | match goal with
      | |- keeps _ (match ?x with _ => _ end) => destruct x
      | |- keeps _ (if ?x then _ else _) => destruct x
      | |- keeps _ (let _ := _ in _) => cbv zeta
      end
    | solve [eauto with frame] ].

Lemma keeps_semaphore_init s v : keeps still (semaphore_init s v).
Proof. unfold semaphore_init. keeps_tac. Qed.
#[global] Hint Resolve keeps_semaphore_init : frame.

Lemma keeps_semaphore_reset s : keeps still (semaphore_reset s).
Proof. unfold semaphore_reset. keeps_tac. Qed.

Lemma keeps_semaphore_post s : keeps still (semaphore_post s).
Proof. unfold semaphore_post. keeps_tac. Qed.

Lemma keeps_semaphore_post_all s : keeps still (semaphore_post_all s).
Proof. unfold semaphore_post_all. keeps_tac. Qed.

Lemma keeps_semaphore_wait s : keeps still (semaphore_wait s).
Proof. unfold semaphore_wait. keeps_tac. Qed.
#[global] Hint Resolve keeps_semaphore_reset keeps_semaphore_post
  keeps_semaphore_post_all keeps_semaphore_wait : frame.

Lemma keeps_queue_init : keeps still queue_init.
Proof. unfold queue_init. keeps_tac. Qed.

Lemma keeps_queue_push q t : keeps still (queue_push q t).
Proof. unfold queue_push. keeps_tac. Qed.

Lemma keeps_queue_pull q : keeps still (queue_pull q).
Proof. unfold queue_pull. keeps_tac. Qed.
#[global] Hint Resolve keeps_queue_init keeps_queue_push keeps_queue_pull : frame.

Lemma keeps_queue_clear_loop fuel : ∀ q, keeps still (queue_clear_loop fuel q).
Proof.
  induction fuel as [|fuel IH]; intros q; simpl.
  - destruct (number_of_tasks q =? 0); [apply still_ret|]. intros st a st' H. done.
  - keeps_tac.
Qed.
#[global] Hint Resolve keeps_queue_clear_loop : frame.

Lemma keeps_queue_clear q : keeps still (queue_clear q).
Proof. unfold queue_clear. keeps_tac. Qed.
#[global] Hint Resolve keeps_queue_clear : frame.

Lemma keeps_queue_destroy q : keeps still (queue_destroy q).
Proof. unfold queue_destroy. keeps_tac. Qed.
#[global] Hint Resolve keeps_queue_destroy : frame.

Lemma keeps_on_queue {A} p (f : queue → M (A * queue)) :
  (∀ q, keeps still (f q)) → keeps still (on_queue p f).
Proof. intros Hf. unfold on_queue. keeps_tac. Qed.

Lemma keeps_workers_add p f arg : keeps still (pgmoneta_workers_add p f arg).
Proof.
  unfold pgmoneta_workers_add. keeps_tac.
Qed.

Lemma keeps_worker_init p : keeps still (worker_init p).
Proof. unfold worker_init. keeps_tac. Qed.
#[global] Hint Resolve keeps_worker_init : frame.

Lemma keeps_spawn_workers n p : keeps still (spawn_workers n p).
Proof. induction n as [|n IH]; simpl; keeps_tac. Qed.
#[global] Hint Resolve keeps_spawn_workers : frame.

Lemma keeps_initialize_error w : keeps still (initialize_error w).
Proof. unfold initialize_error. keeps_tac. Qed.
#[global] Hint Resolve keeps_initialize_error : frame.

Lemma keeps_destroy_round p : keeps still (workers_destroy_round p).
Proof. unfold workers_destroy_round. keeps_tac. Qed.

Lemma keeps_destroy_workers k : ∀ n p, keeps still (destroy_workers k n p).
Proof. induction k as [|k IH]; intros n p; simpl; keeps_tac. Qed.
#[global] Hint Resolve keeps_destroy_workers : frame.

Lemma keeps_destroy_finish p total : keeps still (workers_destroy_finish p total).
Proof.
  unfold workers_destroy_finish. keeps_tac.
Qed.
#[global] Hint Resolve keeps_workers_add keeps_destroy_round keeps_destroy_finish : frame.

(** ** The idle signal *)

Lemma still_quiet st st' : still st st' → quiet st st'.
Proof. by intros [? _]. Qed.

Lemma still_calm st st' : still st st' → calm st st'.
Proof. by intros [_ ?]. Qed.

Lemma keeps_goto i pc : keeps quiet (goto i pc).
Proof.
  intros st a st' H. unfold goto in H. destruct (threads st !! i); [|done].
  injection H as <- <-. exists []. by rewrite app_nil_r.
Qed.

Lemma keeps_set_keepalive k : keeps quiet (λ st, Ok tt (set_keepalive k st)).
Proof. intros st a st' [= _ <-]. exists []. by rewrite app_nil_r. Qed.

(** The same decomposition for [quiet], down to [still] primitives. *)
Ltac quiet_tac :=
  repeat first
    [ apply quiet_ret
    | apply keeps_fault
    | apply keeps_goto
    | apply keeps_set_keepalive
    | apply quiet_bind; [|intros ?]
    | match goal with
      | |- keeps _ (match ?x with _ => _ end) => destruct x
      | |- keeps _ (if ?x then _ else _) => destruct x
      | |- keeps _ (let _ := _ in _) => cbv zeta
      end
    | solve [apply (keeps_weaken still quiet); [exact still_quiet|eauto with frame]] ].

Lemma keeps_initialize_setup num : keeps quiet (workers_initialize_setup num).
Proof. unfold workers_initialize_setup. quiet_tac. Qed.

Lemma keeps_destroy_begin p : keeps quiet (workers_destroy_begin p).
Proof. unfold workers_destroy_begin. quiet_tac. Qed.

(** Every program point of [worker_do] but the last critical section of
    the loop body is quiet. *)
Lemma keeps_worker_step i t : t_pc t ≠ W_end → keeps quiet (worker_step i t).
Proof.
  intros Hpc. unfold worker_step. destruct (t_pc t); try done; quiet_tac.
Qed.

Lemma quiet_emitted st st' p : quiet st st' → EvIdleSignal p ∉ emitted st st'.
Proof.
  intros (evs & Htr & Hq) Hin. unfold emitted in Hin.
  rewrite Htr, drop_app_length in Hin.
  rewrite forallb_forall in Hq. apply list_elem_of_In in Hin.
  specialize (Hq _ Hin). done.
Qed.

(** The critical section of lines 339-345, explicitly. *)
Lemma worker_end_step i t st st' :
  threads st !! i = Some t → t_pc t = W_end →
  worker_step i t st = Ok tt st' →
  ∃ p w,
    t_pool t = Some p ∧ pools st !! p = Some w ∧
    let n := wrap_int (number_of_working w - 1) in
    pools st' = <[p := set_working n w]> (pools st) ∧
    trace st' = trace st ++ (if n =? 0 then [EvIdleSignal p] else []).
Proof.
  intros Ht Hpc. unfold worker_step. rewrite Hpc.
  unfold bind at 1, load_pool.
  destruct (t_pool t) as [p|]; [|done].
  destruct (pools st !! p) as [w|] eqn:Hw; [|done].
  unfold bind at 1, store_pool. unfold bind at 1.
  intros H. exists p, w. split; [done|]. split; [done|]. cbv zeta.
  destruct (wrap_int (number_of_working w - 1) =? 0).
  - unfold bind at 1, the_addr, ret, emit, goto in H. simpl in H.
    rewrite Ht in H. injection H as <-. done.
  - unfold ret, goto in H. simpl in H.
    rewrite Ht in H. injection H as <-. simpl. by rewrite app_nil_r.
Qed.

Lemma exec_step l st st' : exec l st = Some st' → step l st = Ok tt st'.
Proof.
  unfold exec. destruct (enabled l st); [|done].
  destruct (step l st) as [[] st1| |]; try done. by intros [= <-].
Qed.

(** A step that is not the end of a worker's loop body is quiet. *)
Lemma step_quiet l st st' :
  step l st = Ok tt st' →
  (∀ i t, l = L_worker i → threads st !! i = Some t → t_pc t ≠ W_end) →
  quiet st st'.
Proof.
  intros Hstep Hpc.
  destruct l as [i|p f arg|num|num w|p|p total|p total]; simpl in Hstep;
    [|revert Hstep; quiet_tac;
      try first [apply keeps_initialize_setup | apply keeps_destroy_begin]..].
  destruct (threads st !! i) as [t|] eqn:Ht; [|done].
  eapply (keeps_worker_step i t); [|exact Hstep]. by eapply Hpc.
Qed.

(** C2, as the code has it.  In every reachable state, a step signals the
    idle condition of a pool only when that pool's working count has just
    become zero; the task count of its queue is not looked at. *)
Theorem idle_signal_when_no_worker_busy st l st' p
    (Hreach : reachable st)
    (Hexec : exec l st = Some st')
    (Hsig : EvIdleSignal p ∈ emitted st st') :
  ∃ w, pools st' !! p = Some w ∧ number_of_working w = 0.
Proof.
  apply exec_step in Hexec.
  assert ((∃ i t, l = L_worker i ∧ threads st !! i = Some t ∧ t_pc t = W_end) ∨
          (∀ i t, l = L_worker i → threads st !! i = Some t → t_pc t ≠ W_end))
    as [(i & t & -> & Ht & Hpc)|Hno].
  { destruct l as [i| | | | | |]; try (right; intros; discriminate).
    destruct (threads st !! i) as [t|] eqn:Ht; [|right; intros ? ? [= <-] ?; congruence].
    destruct (decide (t_pc t = W_end)) as [Hpc|Hpc]; [left; eauto|].
    right. intros ? ? [= <-] ?. congruence. }
  - simpl in Hexec. rewrite Ht in Hexec.
    destruct (worker_end_step i t st st' Ht Hpc Hexec) as (p0 & w & Hp0 & Hw & Hpools & Htr).
    unfold emitted in Hsig. rewrite Htr, drop_app_length in Hsig.
    destruct (wrap_int (number_of_working w - 1) =? 0) eqn:Hz.
    + apply list_elem_of_singleton in Hsig as [= ->].
      exists (set_working (wrap_int (number_of_working w - 1)) w).
      rewrite Hpools, lookup_insert_eq. split; [done|]. simpl. by apply Z.eqb_eq.
    + by apply not_elem_of_nil in Hsig.
  - exfalso. eapply quiet_emitted; [|exact Hsig].
    by eapply step_quiet.
Qed.

Lemma idle_signal_when_no_worker_busy_witness :
  ∃ w, pools (after (first_task_run ++ [L_worker 0])) !! pool1 = Some w ∧
       number_of_working w = 0.
Proof.
  apply (idle_signal_when_no_worker_busy (after first_task_run) (L_worker 0)).
  - exists first_task_run. vm_compute. reflexivity.
  - vm_compute. reflexivity.
  - vm_compute. apply list_elem_of_singleton. reflexivity.
Defined.

(** C2, as the spec words it, fails: a single worker that has run the
    first of two queued tasks signals the idle condition while the second
    task is still in the queue. *)
Lemma idle_signal_with_task_queued :
  ¬ (∀ st l st' p w,
       reachable st → exec l st = Some st' →
       EvIdleSignal p ∈ emitted st st' →
       pools st' !! p = Some w →
       number_of_tasks (wqueue w) = 0 ∧ number_of_working w = 0).
Proof.
  intros Hclaim.
  destruct (Hclaim (after first_task_run) (L_worker 0)
              (after (first_task_run ++ [L_worker 0])) pool1
              (Workers 1 0 true (Queue 1 (Some 6%positive) (Some 6%positive) (Some 2%positive))
                 [Some 4%positive])) as [Hcount _].
  - exists first_task_run. vm_compute. reflexivity.
  - vm_compute. reflexivity.
  - vm_compute. apply list_elem_of_singleton. reflexivity.
  - vm_compute. reflexivity.
  - discriminate Hcount.
Qed.

(** ** The run flag *)

(** Turns [H : m st = Ok a st'] into [still st st'] when [m] is [still]. *)
Ltac keeps_in H :=
  match type of H with
  | ?m ?s = Ok _ _ =>
      let Hk := fresh "Hk" in
      assert (keeps still m) as Hk by keeps_tac; apply Hk in H; clear Hk
  end.

Lemma initialize_setup_flag num st r st' :
  workers_initialize_setup num st = Ok r st' →
  worker_keepalive st' = 1 ∧ ∃ new, threads st' = threads st ++ new.
Proof.
  unfold workers_initialize_setup, bind at 1. intros H.
  keeps_in H. destruct H as [_ [Hflag Hthreads]]. done.
Qed.

Lemma destroy_begin_flag p st r st' :
  workers_destroy_begin (Some p) st = Ok r st' →
  worker_keepalive st' = 0 ∧ threads st' = threads st.
Proof.
  unfold workers_destroy_begin, bind, load_pool.
  destruct (pools st !! p); [|done]. by intros [= _ <-].
Qed.

(** The test of line 320 reads the one flag of the process. *)
Lemma worker_loop_step i t st :
  threads st !! i = Some t → t_pc t = W_loop →
  ∃ st', exec (L_worker i) st = Some st' ∧
         threads st' !! i =
           Some (set_pc (if worker_keepalive st =? 0 then W_exit else W_wait) t).
Proof.
  intros Ht Hpc. unfold exec. simpl. rewrite Ht.
  unfold worker_ready, worker_step. rewrite Hpc.
  unfold bind, read_keepalive, goto.
  pose proof (lookup_lt_Some _ _ _ Ht) as Hlt.
  destruct (worker_keepalive st =? 0); simpl; rewrite Ht;
    eexists; (split; [reflexivity|]); simpl; by rewrite list_lookup_insert_eq.
Qed.

(** C8. There is one run flag for the whole process.  Take any thread of
    any pool that is about to test the flag at the head of its loop.  A
    call of destroy on any pool, its own or another, sets the flag to 0 and
    the thread leaves its loop at its next step; a call of initialize,
    whatever its argument and outcome, sets the flag to 1 and the thread
    goes on to wait for tasks. *)
Theorem keepalive_is_process_wide st i t
    (Ht : threads st !! i = Some t) (Hpc : t_pc t = W_loop) :
  (∀ p st1, exec (L_destroy (Some p)) st = Some st1 →
     worker_keepalive st1 = 0 ∧
     ∃ st2, exec (L_worker i) st1 = Some st2 ∧
            threads st2 !! i = Some (set_pc W_exit t)) ∧
  (∀ num st1, exec (L_initialize num) st = Some st1 →
     worker_keepalive st1 = 1 ∧
     ∃ st2, exec (L_worker i) st1 = Some st2 ∧
            threads st2 !! i = Some (set_pc W_wait t)).
Proof.
  split.
  - intros p st1 Hexec. apply exec_step in Hexec. unfold step in Hexec.
    unfold bind at 1 in Hexec.
    destruct (workers_destroy_begin (Some p) st) as [r sta| |] eqn:Hbegin; try done.
    apply destroy_begin_flag in Hbegin as [Hflag Hthreads].
    keeps_in Hexec. destruct Hexec as [_ [Hsame [new Hnew]]].
    assert (threads st1 !! i = Some t) as Ht1.
    { rewrite Hnew, Hthreads. by apply lookup_app_l_Some. }
    split; [congruence|].
    destruct (worker_loop_step i t st1 Ht1 Hpc) as (st2 & Hstep & Hpc2).
    exists st2. split; [done|]. rewrite Hpc2, Hsame, Hflag. done.
  - intros num st1 Hexec. apply exec_step in Hexec. unfold step in Hexec.
    unfold bind at 1 in Hexec.
    destruct (workers_initialize_setup num st) as [r sta| |] eqn:Hsetup; try done.
    apply initialize_setup_flag in Hsetup as [Hflag [new0 Hthreads]].
    keeps_in Hexec. destruct Hexec as [_ [Hsame [new Hnew]]].
    assert (threads st1 !! i = Some t) as Ht1.
    { rewrite Hnew, Hthreads. apply lookup_app_l_Some. by apply lookup_app_l_Some. }
    split; [congruence|].
    destruct (worker_loop_step i t st1 Ht1 Hpc) as (st2 & Hstep & Hpc2).
    exists st2. split; [done|]. rewrite Hpc2, Hsame, Hflag. done.
Qed.

Lemma keepalive_is_process_wide_witness :
  (∀ p st1, exec (L_destroy (Some p)) (after two_pools) = Some st1 →
     worker_keepalive st1 = 0 ∧
     ∃ st2, exec (L_worker 0) st1 = Some st2 ∧
            threads st2 !! 0%nat = Some (set_pc W_exit (Thread 4%positive (Some pool1) W_loop))) ∧
  (∀ num st1, exec (L_initialize num) (after two_pools) = Some st1 →
     worker_keepalive st1 = 1 ∧
     ∃ st2, exec (L_worker 0) st1 = Some st2 ∧
            threads st2 !! 0%nat = Some (set_pc W_wait (Thread 4%positive (Some pool1) W_loop))).
Proof.
  refine (keepalive_is_process_wide (after two_pools) 0
            (Thread 4%positive (Some pool1) W_loop) _ _).
  - vm_compute. reflexivity.
  - reflexivity.
Defined.

(** ** Starting a pool *)

(** The call of line 105 returns only when the live count is [num]. *)
Lemma initialize_return_alive num w st st' :
  exec (L_initialize_return num w) st = Some st' →
  ∃ pw, pools st' !! w = Some pw ∧ number_of_alive pw = num ∧
        emitted st st' = [EvInitializeReturn num 0 (Some w)].
Proof.
  unfold exec, enabled, initialize_must_wait.
  destruct (is_pending _ _); [|done]. simpl.
  unfold bind, load_pool.
  destruct (pools st !! w) as [pw|] eqn:Hw; [|by destruct (negb false)].
  destruct (number_of_alive pw =? num) eqn:Halive; [|done]. simpl.
  intros [= <-]. exists pw. simpl. split; [done|]. split; [by apply Z.eqb_eq|].
  unfold emitted. simpl. by rewrite drop_app_length.
Qed.

(** Initialising a pool of one worker when memory is available. *)
Lemma initialize_one st :
  allocs_succeed 4 st = true →
  ∃ st1,
    exec (L_initialize 1) st = Some st1 ∧
    worker_keepalive st1 = 1 ∧
    pools st1 !! brk st =
      Some (Workers 0 0 true (Queue 0 None None (Some (Pos.succ (brk st))))
              [Some (Pos.succ (Pos.succ (Pos.succ (brk st))))]) ∧
    threads st1 =
      threads st ++ [Thread (Pos.succ (Pos.succ (Pos.succ (brk st)))) (Some (brk st)) W_start] ∧
    pending st1 = pending st ++ [InInitialize 1 (brk st)] ∧
    trace st1 = trace st ++ [EvThreadCreate (length (threads st))].
Proof.
  unfold allocs_succeed. intros Halloc.
  unfold exec, enabled, step, workers_initialize_setup.
  change (1 <? 1) with false. cbv iota.
  unfold bind, queue_init, bind, malloc, worker_init, bind, malloc,
    store_wrec, pthread_create, load_pool, store_pool.
  destruct (oom st) as [|[] [|[] [|[] [|[] o]]]] eqn:Hoom;
    simpl in Halloc; try discriminate Halloc; simpl; rewrite ?Hoom; simpl;
    unfold bind, worker_init, bind, malloc, store_wrec, pthread_create; simpl;
    rewrite !lookup_insert_eq; simpl;
    unfold load_pool, store_pool; simpl; rewrite !lookup_insert_eq; simpl;
    (eexists; split; [reflexivity|]); simpl; rewrite ?lookup_insert_eq; done.
Qed.

(** Lines 316-318: a new thread counts itself alive. *)
Lemma worker_start_step st i t p w :
  threads st !! i = Some t → t_pc t = W_start →
  t_pool t = Some p → pools st !! p = Some w →
  exec (L_worker i) st =
    Some (set_threads (<[i := set_pc W_loop t]> (threads st))
            (set_pools (<[p := set_alive (wrap_int (number_of_alive w + 1)) w]> (pools st)) st)).
Proof.
  intros Ht Hpc Hp Hw. unfold exec. simpl. rewrite Ht.
  unfold worker_ready, worker_step. rewrite Hpc, Hp.
  unfold bind, load_pool, store_pool, goto. rewrite Hw. simpl. by rewrite Ht.
Qed.

Lemma initialize_fails_below_one st num :
  num < 1 →
  workers_initialize_setup num st = Ok InitFailed (set_keepalive 1 st) ∧
  exec (L_initialize num) st =
    Some (set_trace (trace st ++ [EvInitializeReturn num 1 None]) (set_keepalive 1 st)).
Proof.
  intros Hnum.
  assert (workers_initialize_setup num st = Ok InitFailed (set_keepalive 1 st)) as Hsetup.
  { unfold workers_initialize_setup, bind.
    by rewrite (proj2 (Z.ltb_lt num 1) Hnum). }
  split; [done|]. unfold exec. simpl. unfold bind. by rewrite Hsetup.
Qed.

(** C4. [pgmoneta_workers_initialize] at its boundary.
    - For [num < 1] the call takes the error path at once: it returns 1
      with [*workers] NULL, and apart from the run flag and that result
      the store is as before: no thread, no pool.
    - For [num = 1], when the four allocations succeed, the call creates
      one thread and waits; it cannot return while that thread has not
      counted itself alive; once the thread has done so the call returns 0
      with the new pool, whose live count is 1 and whose only thread is
      that one.
    - Whenever the call returns 0, for any [num], the live count of the
      pool it returns is [num] at that moment. *)
Theorem initialize_boundary st :
  (∀ num, num < 1 →
     workers_initialize_setup num st = Ok InitFailed (set_keepalive 1 st) ∧
     exec (L_initialize num) st =
       Some (set_trace (trace st ++ [EvInitializeReturn num 1 None]) (set_keepalive 1 st))) ∧
  (allocs_succeed 4 st = true →
     ∃ st1 st2 st3 w self,
       exec (L_initialize 1) st = Some st1 ∧
       threads st1 = threads st ++ [Thread self (Some (brk st)) W_start] ∧
       exec (L_initialize_return 1 (brk st)) st1 = None ∧
       exec (L_worker (length (threads st))) st1 = Some st2 ∧
       exec (L_initialize_return 1 (brk st)) st2 = Some st3 ∧
       emitted st2 st3 = [EvInitializeReturn 1 0 (Some (brk st))] ∧
       pools st3 !! brk st = Some w ∧ number_of_alive w = 1 ∧
       threads st3 = threads st ++ [Thread self (Some (brk st)) W_loop]) ∧
  (∀ num w st', exec (L_initialize_return num w) st = Some st' →
     ∃ pw, pools st' !! w = Some pw ∧ number_of_alive pw = num).
Proof.
  split; [intros num Hnum; by apply initialize_fails_below_one|]. split.
  - intros Halloc.
    destruct (initialize_one st Halloc) as (st1 & Hinit & Hflag & Hpool & Hthreads & Hpend & Htrace).
    set (self := Pos.succ (Pos.succ (Pos.succ (brk st)))) in *.
    set (t := Thread self (Some (brk st)) W_start) in *.
    assert (threads st1 !! length (threads st) = Some t) as Ht.
    { rewrite Hthreads. by rewrite list_lookup_middle. }
    pose proof (worker_start_step st1 _ t (brk st) _ Ht eq_refl eq_refl Hpool) as Hstart.
    simpl in Hstart. change (wrap_int (0 + 1)) with 1 in Hstart.
    eexists st1, _, _, _, self. split; [done|]. split; [done|].
    split; [|split; [exact Hstart|]].
    { unfold exec, enabled, initialize_must_wait. rewrite Hpool. simpl.
      by rewrite andb_false_r. }
    unfold exec, enabled, initialize_must_wait, is_pending. simpl.
    rewrite bool_decide_eq_true_2
      by (rewrite Hpend; apply elem_of_app; right; by apply list_elem_of_singleton).
    rewrite lookup_insert_eq. simpl.
    unfold bind, load_pool. simpl. rewrite lookup_insert_eq. simpl.
    split; [reflexivity|]. split.
    { unfold emitted. simpl. by rewrite drop_app_length. }
    simpl. rewrite lookup_insert_eq. split; [reflexivity|]. split; [done|].
    rewrite Hthreads. rewrite insert_app_r_alt by done.
    by rewrite Nat.sub_diag.
  - intros num w st' Hexec.
    destruct (initialize_return_alive num w st st' Hexec) as (pw & Hpw & Halive & _).
    eauto.
Qed.

Lemma initialize_boundary_witness :
  (exec (L_initialize 0) world0 =
     Some (set_trace [EvInitializeReturn 0 1 None] (set_keepalive 1 world0)) ∧
   exec (L_initialize (-1)) world0 =
     Some (set_trace [EvInitializeReturn (-1) 1 None] (set_keepalive 1 world0))) ∧
  (∃ st1 st2 st3 w self,
     exec (L_initialize 1) world0 = Some st1 ∧
     threads st1 = [Thread self (Some 1%positive) W_start] ∧
     exec (L_initialize_return 1 1%positive) st1 = None ∧
     exec (L_worker 0) st1 = Some st2 ∧
     exec (L_initialize_return 1 1%positive) st2 = Some st3 ∧
     emitted st2 st3 = [EvInitializeReturn 1 0 (Some 1%positive)] ∧
     pools st3 !! 1%positive = Some w ∧ number_of_alive w = 1 ∧
     threads st3 = [Thread self (Some 1%positive) W_loop]) ∧
  (∃ pw, pools (after boot) !! pool1 = Some pw ∧ number_of_alive pw = 1).
Proof.
  destruct (initialize_boundary world0) as (Hfail & Hone & _).
  destruct (initialize_boundary (after [L_initialize 1; L_worker 0])) as (_ & _ & Hret).
  split; [|split].
  - split.
    + apply (Hfail 0). lia.
    + apply (Hfail (-1)). lia.
  - apply Hone. reflexivity.
  - apply (Hret 1 pool1). vm_compute. reflexivity.
Defined.

(** ** The resolver of the worker count *)

Lemma MIN_min a b : MIN a b = Z.min a b.
Proof. unfold MIN. destruct (Z.ltb_spec a b); lia. Qed.

(** C9. For a server of the configuration, the resolver returns the
    count of the server unless it is -1, in which case it returns the
    global count; either way the result is clamped to the number of
    processors, or to 16 where there is no processor query. *)
Theorem get_number_of_workers_spec pf config srv s
    (Hsrv : 0 <= srv)
    (Hs : servers config !! Z.to_nat srv = Some s) :
  let wanted := if decide (s_workers s = -1) then workers_cfg config else s_workers s in
  let bound := match pf with HaveLinux nprocs => nprocs | NoLinux => 16 end in
  pgmoneta_get_number_of_workers pf config srv = Some (Z.min wanted bound) ∧
  Z.min wanted bound <= bound.
Proof.
  intros wanted bound. split; [|lia].
  unfold pgmoneta_get_number_of_workers.
  rewrite (proj2 (Z.ltb_ge srv 0) Hsrv), Hs.
  subst wanted bound. f_equal.
  destruct (decide (s_workers s = -1)) as [->|Hne].
  - simpl. destruct pf; apply MIN_min.
  - rewrite (proj2 (Z.eqb_neq _ _) Hne). simpl. destruct pf; apply MIN_min.
Qed.

Lemma get_number_of_workers_spec_witness :
  pgmoneta_get_number_of_workers (HaveLinux 8)
    (MainConfiguration [Server 3; Server (-1); Server 64] 12) 1 = Some 8 ∧
  8 <= 8.
Proof.
  apply (get_number_of_workers_spec (HaveLinux 8)
           (MainConfiguration [Server 3; Server (-1); Server 64] 12) 1 (Server (-1))).
  - lia.
  - reflexivity.
Defined.

(** ** The payload builder *)

Lemma copy_path_too_long MAX_PATH field src st :
  too_long MAX_PATH src → copy_path MAX_PATH field src st = Fault.
Proof.
  intros (s & -> & Hlen). unfold copy_path, memcpy_field.
  destruct (0 <? length s)%nat eqn:Hpos.
  - destruct (length s <=? MAX_PATH)%nat eqn:Hle; [|done].
    apply Nat.leb_le in Hle. lia.
  - apply Nat.ltb_ge in Hpos. lia.
Qed.

Lemma copy_path_cases MAX_PATH field src st :
  copy_path MAX_PATH field src st = Fault ∨
  ∃ f, copy_path MAX_PATH field src st = Ok f st.
Proof.
  unfold copy_path, memcpy_field, ret, fault.
  destruct src as [s|]; [|eauto].
  destruct (0 <? length s)%nat; [|eauto].
  destruct (length s <=? MAX_PATH)%nat; eauto.
Qed.

(** The builder returns 1 only when [malloc] fails. *)
Lemma create_worker_input_fails_only_on_malloc MAX_PATH dir src dst lvl workers st rc out st' :
  pgmoneta_create_worker_input MAX_PATH dir src dst lvl workers st = Ok (rc, out) st' →
  (rc = 1 ↔ head (oom st) = Some true) ∧ (rc = 0 ∨ rc = 1).
Proof.
  unfold pgmoneta_create_worker_input, bind at 1, malloc.
  destruct (oom st) as [|[] o]; simpl.
  - intros H.
    assert (rc = 0) as ->; [|split; [split; intros; done|by left]].
    revert H. unfold bind, store_input, ret. repeat case_match; try done. by intros [= <- _ _].
  - intros [= <- _ _]. split; [done|by right].
  - intros H.
    assert (rc = 0) as ->; [|split; [split; intros; done|by left]].
    revert H. unfold bind, store_input, ret. repeat case_match; try done. by intros [= <- _ _].
Qed.

(** C7, on the code.  When [malloc] succeeds and one of the three paths
    is longer than the field it is copied into, the builder neither
    truncates nor rejects: the [memcpy] writes past the end of the field. *)
Theorem create_worker_input_overrun MAX_PATH dir src dst lvl workers st
    (Halloc : allocs_succeed 1 st = true)
    (Hlong : too_long MAX_PATH dir ∨ too_long MAX_PATH src ∨ too_long MAX_PATH dst) :
  pgmoneta_create_worker_input MAX_PATH dir src dst lvl workers st = Fault.
Proof.
  unfold pgmoneta_create_worker_input, bind at 1, malloc.
  unfold allocs_succeed in Halloc.
  set (zero := replicate MAX_PATH Byte.x00).
  assert (∀ st1 : world,
            (d <- copy_path MAX_PATH zero dir ;;
             f <- copy_path MAX_PATH zero src ;;
             t <- copy_path MAX_PATH zero dst ;;
             store_input (Some (brk st)) (WorkerInput workers d f t lvl None None None) ;;;
             ret (0, Some (brk st))) st1 = Fault) as Hbody.
  { intros st1. unfold bind at 1.
    destruct (copy_path_cases MAX_PATH zero dir st1) as [Hd|[d Hd]]; rewrite Hd; [done|].
    unfold bind at 1.
    destruct (copy_path_cases MAX_PATH zero src st1) as [Hf|[f Hf]]; rewrite Hf; [done|].
    unfold bind at 1.
    destruct (copy_path_cases MAX_PATH zero dst st1) as [Ht|[t Ht]]; rewrite Ht; [done|].
    exfalso. destruct Hlong as [H|[H|H]].
    - pose proof (copy_path_too_long MAX_PATH zero dir st1 H). congruence.
    - pose proof (copy_path_too_long MAX_PATH zero src st1 H). congruence.
    - pose proof (copy_path_too_long MAX_PATH zero dst st1 H). congruence. }
  destruct (oom st) as [|[] o]; simpl in *; try done; apply Hbody.
Qed.

Lemma create_worker_input_overrun_witness :
  pgmoneta_create_worker_input 4
    (Some [Byte.x2f; Byte.x74; Byte.x6d; Byte.x70; Byte.x2f]) None None 0 (Some pool1)
    (after boot) = Fault.
Proof.
  apply create_worker_input_overrun.
  - reflexivity.
  - left. eexists. split; [reflexivity|]. simpl. lia.
Defined.

(** Paths that fit are stored at the start of zeroed fields. *)
Example create_worker_input_fits :
  match pgmoneta_create_worker_input 4 (Some [Byte.x2f; Byte.x74]) None
          (Some [Byte.x2f; Byte.x74; Byte.x6d; Byte.x70]) 3 (Some pool1) (after boot)
  with
  | Ok (rc, Some a) st' => Some (rc, inputs st' !! a)
  | _ => None
  end =
  Some (0, Some (WorkerInput (Some pool1)
                   [Byte.x2f; Byte.x74; Byte.x00; Byte.x00]
                   [Byte.x00; Byte.x00; Byte.x00; Byte.x00]
                   [Byte.x2f; Byte.x74; Byte.x6d; Byte.x70] 3 None None None)).
Proof. vm_compute. reflexivity. Qed.

Lemma workers_add_spec_witness :
  ∃ rc st',
    pgmoneta_workers_add (Some pool1) 7 None (after boot) = Ok rc st' ∧
    enabled (L_add (Some pool1) 7 None) (after boot) = true ∧
    (rc = 0 ∨ rc = 1) ∧
    (rc = 1 ↔ Some pool1 = None ∨ head (oom (after boot)) = Some true) ∧
    (rc = 1 →
       tasks st' = tasks (after boot) ∧ sems st' = sems (after boot) ∧
       pools st' = pools (after boot) ∧ threads st' = threads (after boot)) ∧
    (rc = 0 → ∀ p, Some pool1 = Some p →
       ∃ w w' t,
         pools (after boot) !! p = Some w ∧ pools st' !! p = Some w' ∧
         queue_wf st' (wqueue w') ([] ++ [brk (after boot)]) ∧
         tasks st' !! brk (after boot) = Some t ∧ function t = 7 ∧ wc t = None ∧
         set_queue (wqueue w) w' = w).
Proof.
  apply (workers_add_spec (after boot) (Some pool1) 7 None []).
  - intros p [= <-]. split.
    + eexists. split; [reflexivity|]. exact boot_wf.
    + vm_compute. reflexivity.
  - reflexivity.
Defined.

(** ** A whole run *)

(** The two tasks are run in the order of their submission, and after
    destroy nothing of the pool is left in the store. *)
Example lifecycle_trace :
  (λ st, (worker_keepalive st, pools st, tasks st, sems st, wrecs st, t_pc <$> threads st,
          List.filter (λ e, match e with EvRun _ _ | EvDestroyReturn _ => true | _ => false end)
                      (trace st)))
    <$> run lifecycle world0
  = Some (0, ∅, ∅, ∅, ∅, [W_done], [EvRun 7 None; EvRun 8 None; EvDestroyReturn pool1]).
Proof. vm_compute. reflexivity. Qed.

(** Destroying the second pool stops the worker of the first one. *)
Example destroy_stops_the_other_pool :
  (λ st, (λ t, (t_pool t, t_pc t)) <$> threads st)
    <$> run (two_pools ++ [L_destroy (Some pool2); L_worker 0; L_worker 1]) world0
  = Some [(Some pool1, W_exit); (Some pool2, W_exit)].
Proof. vm_compute. reflexivity. Qed.

(** Symbolic execution of the C functions: unfolds the monad and the
    primitives, reads the fields of the records just built and the cells
    just written; heaps and the rest of the store stay symbolic. *)
Ltac mcbv :=
  cbv [bind ret fault emit pgmoneta_log_error malloc
       load_task store_task free_task load_sem store_sem free_sem
       load_pool store_pool free_pool store_wrec free_wrec the_addr
       semaphore_reset semaphore_post semaphore_post_all semaphore_wait
       queue_init queue_clear queue_destroy initialize_error on_queue goto
       read_keepalive add_pending drop_pending pthread_create worker_init
       set_keepalive set_tasks set_sems set_pools set_wrecs set_inputs set_threads
       set_pending set_alloc set_trace
       set_queue set_alive set_working set_worker_array set_pc set_previous clear_fuel];
  simpl.

Ltac msimpl :=
  repeat (progress (mcbv; try change (0 mod 4294967296) with 0;
                    rewrite ?semaphore_init_ok, ?lookup_insert_eq)).

(** * Further properties of the code *)

(** ** Semaphores *)

Lemma semaphore_posts_ok n : ∀ st s sm,
  sems st !! s = Some sm →
  ∃ st', semaphore_posts (S n) (Some s) st = Ok tt st' ∧
         sems st' = <[s := Semaphore 1]> (sems st) ∧
         trace st' = trace st ++ replicate (S n) (EvSemSignal s) ∧
         tasks st' = tasks st ∧ pools st' = pools st ∧ threads st' = threads st.
Proof.
  induction n as [|n IH]; intros st s sm Hs.
  - simpl. unfold bind. rewrite (semaphore_post_ok st s sm Hs). unfold ret.
    eexists. split; [reflexivity|]. done.
  - change (semaphore_posts (S (S n)) (Some s))
      with (semaphore_post (Some s) ;;; semaphore_posts (S n) (Some s)).
    unfold bind at 1. rewrite (semaphore_post_ok st s sm Hs).
    edestruct (IH (set_trace (trace st ++ [EvSemSignal s])
                     (set_sems (<[s := Semaphore 1]> (sems st)) st)) s)
      as (st' & Hposts & Hsems & Htrace & Hrest).
    { simpl. apply lookup_insert_eq. }
    exists st'. split; [done|]. simpl in *.
    rewrite Hsems, Htrace, insert_insert_eq, <- app_assoc. done.
Qed.

(** X1. The semaphore is binary.  However many times it is posted in a
    row, each post signalling the condition once, its value is 1, one
    [semaphore_wait] goes through and takes it back to 0, and a second
    waiter would block. *)
Theorem semaphore_is_binary n st s sm (Hs : sems st !! s = Some sm) :
  ∃ st1 st2,
    semaphore_posts (S n) (Some s) st = Ok tt st1 ∧
    emitted st st1 = replicate (S n) (EvSemSignal s) ∧
    semaphore_ready (Some s) st1 = true ∧
    semaphore_wait (Some s) st1 = Ok tt st2 ∧
    sems st2 !! s = Some (Semaphore 0) ∧
    semaphore_ready (Some s) st2 = false.
Proof.
  destruct (semaphore_posts_ok n st s sm Hs) as (st1 & Hposts & Hsems & Htrace & _).
  exists st1. eexists. split; [done|]. split.
  { unfold emitted. by rewrite Htrace, drop_app_length. }
  unfold semaphore_ready, semaphore_wait, bind, load_sem, store_sem.
  rewrite Hsems, lookup_insert_eq. simpl. split; [done|]. split; [reflexivity|].
  simpl. rewrite lookup_insert_eq. done.
Qed.

Lemma semaphore_is_binary_witness :
  ∃ st1 st2,
    semaphore_posts 3 (Some 2%positive) (after boot) = Ok tt st1 ∧
    emitted (after boot) st1 = replicate 3 (EvSemSignal 2%positive) ∧
    semaphore_ready (Some 2%positive) st1 = true ∧
    semaphore_wait (Some 2%positive) st1 = Ok tt st2 ∧
    sems st2 !! 2%positive = Some (Semaphore 0) ∧
    semaphore_ready (Some 2%positive) st2 = false.
Proof.
  refine (semaphore_is_binary 2 (after boot) 2%positive (Semaphore 0) _).
  vm_compute. reflexivity.
Defined.

(** ** Setting up and clearing a queue *)

(** X2. [queue_init] fails exactly when [malloc] does; then the queue has
    no semaphore and nothing else has changed.  Otherwise the queue is
    empty and well formed, and its new semaphore is not armed. *)
Theorem queue_init_spec st :
  ∃ rc q st',
    queue_init st = Ok (rc, q) st' ∧
    (rc = 0 ∨ rc = 1) ∧
    (rc = 1 ↔ head (oom st) = Some true) ∧
    (rc = 1 → has_tasks q = None ∧ sems st' = sems st ∧ trace st' = trace st) ∧
    (rc = 0 → q = Queue 0 None None (Some (brk st)) ∧
              queue_wf st' q [] ∧
              sems st' = <[brk st := Semaphore 0]> (sems st) ∧
              semaphore_ready (has_tasks q) st' = false).
Proof.
  unfold queue_init, bind, malloc.
  destruct (oom st) as [|[] o] eqn:Hoom; simpl; unfold ret.
  - eexists 0, _, _. split; [reflexivity|]. split; [by left|].
    split; [done|]. split; [done|]. intros _. split; [done|].
    split; [|split; [done|]].
    + eapply queue_init_wf; [|reflexivity].
      unfold queue_init, bind, malloc. rewrite Hoom. reflexivity.
    + simpl. by rewrite lookup_insert_eq.
  - eexists 1, _, _. split; [reflexivity|]. split; [by right|]. done.
  - eexists 0, _, _. split; [reflexivity|]. split; [by left|].
    split; [done|]. split; [done|]. intros _. split; [done|].
    split; [|split; [done|]].
    + eapply queue_init_wf; [|reflexivity].
      unfold queue_init, bind, malloc. rewrite Hoom. reflexivity.
    + simpl. by rewrite lookup_insert_eq.
Qed.

Lemma lookup_free_all_tasks (l : list addr) : ∀ (h : gmap addr task) a,
  (a ∈ l → foldl (λ h a, delete a h) h l !! a = None) ∧
  (a ∉ l → foldl (λ h a, delete a h) h l !! a = h !! a).
Proof.
  induction l as [|b l IH]; intros h a.
  - split; [intros H; by apply not_elem_of_nil in H|done].
  - cbn [foldl]. destruct (IH (delete b h) a) as [IHin IHout]. split.
    + intros Hin. destruct (decide (a ∈ l)) as [Hl|Hl]; [by apply IHin|].
      rewrite IHout by done. apply elem_of_cons in Hin as [->|?]; [|done].
      apply lookup_delete_eq.
    + intros Hnin. rewrite IHout.
      * apply lookup_delete_ne. intros ->. apply Hnin. left.
      * intros Hl. apply Hnin. by right.
Qed.

(** The loop of [queue_clear] on a queue holding [l], with its store:
    the tasks of [l] are freed, the semaphore is posted once for each pull
    that leaves a task behind, nothing else changes. *)
Lemma queue_clear_loop_run l : ∀ fuel st q s,
  queue_wf st q l → has_tasks q = Some s → (length l ≤ fuel)%nat →
  ∃ st' q',
    queue_clear_loop fuel q st = Ok q' st' ∧
    queue_wf st' q' [] ∧ has_tasks q' = Some s ∧
    (sems st' = sems st ∨ sems st' = <[s := Semaphore 1]> (sems st)) ∧
    st' = set_trace (trace st ++ replicate (length l - 1) (EvSemSignal s))
            (set_sems (sems st')
               (set_tasks (foldl (λ h a, delete a h) (tasks st) l) st)).
Proof.
  induction l as [|a l IH]; intros fuel st q s Hwf Hs Hfuel.
  - exists st, q. split.
    + destruct Hwf as [_ _ Hn _ _ _]. simpl in Hn.
      destruct fuel; simpl; rewrite Hn; reflexivity.
    + split; [done|]. split; [done|]. split; [by left|].
      simpl. rewrite app_nil_r. by destruct st.
  - destruct fuel as [|fuel]; [simpl in Hfuel; lia|].
    pose proof Hwf as [(Hf & ta & Hta & _) _ Hn Hnd _ _].
    apply NoDup_cons in Hnd as [Hal _].
    destruct (queue_pull_cons _ _ _ _ Hwf)
      as (st1 & q1 & Hpull & Hwf1 & Htasks & Hsem & _ & Hnil & Hcons).
    simpl queue_clear_loop.
    assert ((number_of_tasks q =? 0) = false) as -> by (apply Z.eqb_neq; simpl in Hn; lia).
    unfold bind at 1. rewrite Hpull. simpl.
    unfold bind at 1. unfold free_task. rewrite Htasks, Hta.
    destruct (IH fuel (set_tasks (delete a (tasks st)) st1) q1 s)
      as (st2 & q2 & Hloop & Hwf2 & Hg2 & Hsems2 & Hst2).
    + pose proof (queue_wf_free st1 q1 l a Hwf1 Hal) as H. by rewrite Htasks in H.
    + congruence.
    + simpl in Hfuel. lia.
    + exists st2, q2. split; [done|]. split; [done|]. split; [done|].
      destruct l as [|b l].
      * rewrite (Hnil eq_refl) in *. simpl in *. split; [done|].
        rewrite Hst2 at 1. reflexivity.
      * destruct Hcons as (s' & Hs' & Hst1); [done|].
        assert (s' = s) as -> by congruence.
        rewrite Hst1 in *. simpl in Hsems2, Hst2. split.
        { right. destruct Hsems2 as [->| ->]; [done|by rewrite insert_insert_eq]. }
        rewrite Hst2 at 1. simpl.
        rewrite <- app_assoc. simpl. rewrite Nat.sub_0_r. reflexivity.
Qed.

(** [queue_clear] on a queue holding [l], with its store. *)
Lemma queue_clear_result st q l :
  queue_wf st q l →
  ∃ s,
    has_tasks q = Some s ∧
    queue_clear q st =
      Ok (Queue 0 None None (Some s))
         (set_trace (trace st ++ replicate (length l - 1) (EvSemSignal s))
            (set_sems (<[s := Semaphore 0]> (sems st))
               (set_tasks (foldl (λ h a, delete a h) (tasks st) l) st))).
Proof.
  intros Hwf. pose proof Hwf as [_ _ _ _ _ (s & sm & Hs & Hsm)].
  destruct (queue_clear_loop_run l (clear_fuel q) st q s Hwf Hs)
    as (st1 & q1 & Hloop & Hwf1 & Hg & Hsems & Hst1).
  { by rewrite (clear_fuel_wf st q l). }
  destruct Hwf1 as [_ _ _ _ _ (s1 & sm1 & Hs1 & Hsm1)].
  assert (s1 = s) as -> by congruence.
  exists s. split; [done|].
  unfold queue_clear, bind. rewrite Hloop, Hg.
  unfold semaphore_reset, bind, load_sem. rewrite Hsm1.
  rewrite semaphore_init_ok. unfold ret. f_equal.
  rewrite Hst1. simpl. f_equal.
  destruct Hsems as [->| ->]; [done|by rewrite insert_insert_eq].
Qed.

Lemma runs_signals n s : runs (replicate n (EvSemSignal s)) = [].
Proof. induction n; [done|]. simpl. done. Qed.

(** X3. [queue_clear] on a queue that holds the tasks [l] returns; every
    task of [l] has been freed and no other task has been touched; the
    queue is empty and its semaphore is not armed; no task body is run
    and nothing else in the store changes. *)
Theorem queue_clear_frees_all st q l (Hwf : queue_wf st q l) :
  ∃ st' s,
    has_tasks q = Some s ∧
    queue_clear q st = Ok (Queue 0 None None (Some s)) st' ∧
    (∀ a, a ∈ l → tasks st' !! a = None) ∧
    (∀ a, a ∉ l → tasks st' !! a = tasks st !! a) ∧
    sems st' = <[s := Semaphore 0]> (sems st) ∧
    runs (emitted st st') = [] ∧
    pools st' = pools st ∧ wrecs st' = wrecs st ∧ threads st' = threads st ∧
    worker_keepalive st' = worker_keepalive st.
Proof.
  destruct (queue_clear_result st q l Hwf) as (s & Hs & Hclear).
  eexists _, s. split; [done|]. split; [exact Hclear|]. simpl.
  split; [|split; [|split; [done|split; [|done]]]].
  - intros a Ha. by apply lookup_free_all_tasks.
  - intros a Ha. by apply lookup_free_all_tasks.
  - unfold emitted. simpl. rewrite drop_app_length. apply runs_signals.
Qed.

Lemma queue_clear_frees_all_witness :
  ∃ st' s,
    has_tasks (queue_of pool1 (after two_tasks)) = Some s ∧
    queue_clear (queue_of pool1 (after two_tasks)) (after two_tasks)
      = Ok (Queue 0 None None (Some s)) st' ∧
    (∀ a, a ∈ [5%positive; 6%positive] → tasks st' !! a = None) ∧
    (∀ a, a ∉ [5%positive; 6%positive] → tasks st' !! a = tasks (after two_tasks) !! a) ∧
    sems st' = <[s := Semaphore 0]> (sems (after two_tasks)) ∧
    runs (emitted (after two_tasks) st') = [] ∧
    pools st' = pools (after two_tasks) ∧ wrecs st' = wrecs (after two_tasks) ∧
    threads st' = threads (after two_tasks) ∧
    worker_keepalive st' = worker_keepalive (after two_tasks).
Proof. exact (queue_clear_frees_all _ _ _ two_tasks_wf). Defined.

Lemma semaphore_reset_fuel s st : semaphore_reset s st ≠ OutOfFuel.
Proof.
  unfold semaphore_reset, bind, load_sem, semaphore_init, bind, pgmoneta_log_error,
    emit, store_sem, ret.
  repeat case_match; done.
Qed.

(** X4. The loop of [queue_clear] always ends, on any queue whose count is
    an [int], well formed or not: the count is decremented once per
    iteration, so after at most [count mod 2^32] iterations the loop has
    ended or has stopped on a memory fault. *)
Theorem queue_clear_terminates q st (Hint : in_int (number_of_tasks q)) :
  queue_clear q st ≠ OutOfFuel.
Proof.
  unfold queue_clear, bind at 1.
  pose proof (queue_clear_loop_fuel (clear_fuel q) q st Hint (le_n _)) as Hloop.
  destruct (queue_clear_loop (clear_fuel q) q st) as [q1 st1| |]; try done.
  unfold bind.
  pose proof (semaphore_reset_fuel (has_tasks q1) st1).
  destruct (semaphore_reset (has_tasks q1) st1); done.
Qed.

Lemma queue_clear_terminates_witness :
  queue_clear (Queue (-2) (Some 5%positive) None (Some 2%positive)) (after two_tasks)
  ≠ OutOfFuel.
Proof.
  apply queue_clear_terminates. unfold in_int, INT_MIN, INT_MAX. simpl. lia.
Defined.

(** ** The error paths of [pgmoneta_workers_initialize] *)

(** X5. When the pool is allocated but the semaphore of its queue is not,
    the error path of lines 114-120 runs [queue_destroy] on a queue whose
    [has_tasks] is NULL, and [semaphore_reset] dereferences it: the call
    does not return 1, it ends in a memory fault. *)
Theorem initialize_faults_without_semaphore num st o
    (Hnum : 1 <= num) (Hoom : oom st = false :: true :: o) :
  workers_initialize_setup num st = Fault ∧ exec (L_initialize num) st = None.
Proof.
  assert (workers_initialize_setup num st = Fault) as Hsetup.
  { unfold workers_initialize_setup, bind at 1.
    rewrite (proj2 (Z.ltb_ge num 1) Hnum).
    unfold bind at 1, malloc at 1. simpl. rewrite Hoom.
    msimpl. reflexivity. }
  split; [done|]. unfold exec. simpl. unfold bind. by rewrite Hsetup.
Qed.

Lemma initialize_faults_without_semaphore_witness :
  workers_initialize_setup 2 (set_alloc 1%positive [false; true] world0) = Fault ∧
  exec (L_initialize 2) (set_alloc 1%positive [false; true] world0) = None.
Proof.
  apply (initialize_faults_without_semaphore 2 _ []).
  - lia.
  - reflexivity.
Defined.

(** X6. When [malloc] fails for the pool itself, or for the array of
    worker records after the queue has been set up, the call takes the
    error path and reports failure; the run flag is 1, one error is
    logged, and every heap and the threads are as before the call: the
    queue's semaphore and the pool have been released again. *)
Theorem initialize_allocation_failure num st o
    (Hnum : 1 <= num)
    (Hoom : oom st = true :: o ∨ oom st = false :: false :: true :: o)
    (Hpool : pools st !! brk st = None)
    (Hsem : sems st !! Pos.succ (brk st) = None) :
  ∃ b,
    workers_initialize_setup num st =
      Ok InitFailed (set_trace (trace st ++ [EvLogError])
                       (set_alloc b o (set_keepalive 1 st))) ∧
    exec (L_initialize num) st =
      Some (set_trace (trace st ++ [EvLogError; EvInitializeReturn num 1 None])
              (set_alloc b o (set_keepalive 1 st))).
Proof.
  assert (∃ b, workers_initialize_setup num st =
                 Ok InitFailed (set_trace (trace st ++ [EvLogError])
                                  (set_alloc b o (set_keepalive 1 st)))) as [b Hsetup].
  { unfold workers_initialize_setup, bind at 1.
    rewrite (proj2 (Z.ltb_ge num 1) Hnum).
    unfold bind at 1, malloc at 1. simpl.
    destruct Hoom as [Hoom|Hoom]; rewrite Hoom.
    - exists (brk st). reflexivity.
    - exists (Pos.succ (Pos.succ (brk st))).
      msimpl.
      rewrite ?insert_insert_eq, !delete_insert_id by done. reflexivity. }
  exists b. split; [done|]. unfold exec. simpl. unfold bind. rewrite Hsetup.
  simpl. by rewrite <- app_assoc.
Qed.

Lemma initialize_allocation_failure_witness :
  ∃ b,
    workers_initialize_setup 2 (set_alloc 1%positive [false; false; true] world0) =
      Ok InitFailed (set_trace [EvLogError] (set_alloc b [] (set_keepalive 1 world0))) ∧
    exec (L_initialize 2) (set_alloc 1%positive [false; false; true] world0) =
      Some (set_trace [EvLogError; EvInitializeReturn 2 1 None]
              (set_alloc b [] (set_keepalive 1 world0))).
Proof.
  refine (initialize_allocation_failure 2 (set_alloc 1%positive [false; false; true] world0)
            [] _ _ _ _).
  - lia.
  - right. reflexivity.
  - reflexivity.
  - reflexivity.
Defined.

(** ** Releasing a pool *)

Lemma lookup_free_all (ps : list ptr) : ∀ (h : gmap addr worker) a,
  (Some a ∈ ps → free_all h ps !! a = None) ∧
  (Some a ∉ ps → free_all h ps !! a = h !! a).
Proof.
  unfold free_all. induction ps as [|p ps IH]; intros h a.
  - split; [intros H; by apply not_elem_of_nil in H|done].
  - cbn [foldl]. split.
    + intros Hin. destruct (decide (Some a ∈ ps)) as [Hl|Hl]; [by apply IH|].
      rewrite (proj2 (IH _ a)) by done.
      apply elem_of_cons in Hin as [<-|?]; [|done]. apply lookup_delete_eq.
    + intros Hnin. rewrite (proj2 (IH _ a)).
      * destruct p as [b|]; [|done]. apply lookup_delete_ne.
        intros ->. apply Hnin. left.
      * intros Hl. apply Hnin. by right.
Qed.

(** The loop of lines 198-201 frees the records of the slots it visits. *)
Lemma destroy_workers_ok k : ∀ n st p w,
  pools st !! p = Some w →
  (n + k ≤ length (worker_array w))%nat →
  records_ok (wrecs st) (take k (drop n (worker_array w))) →
  destroy_workers k n (Some p) st =
    Ok tt (set_wrecs (free_all (wrecs st) (take k (drop n (worker_array w)))) st).
Proof.
  induction k as [|k IH]; intros n st p w Hw Hlen [Hnd Halloc].
  - simpl. unfold ret. by destruct st.
  - destruct (lookup_lt_is_Some_2 (worker_array w) n) as [x Hx]; [lia|].
    rewrite (drop_S _ x n Hx) in *. simpl take in *.
    simpl. unfold bind at 1, load_pool. rewrite Hw, Hx.
    unfold bind at 1, free_wrec. destruct x as [a|].
    + destruct (Halloc a) as [r Hr]; [left|]. rewrite Hr.
      simpl in Hnd. apply NoDup_cons in Hnd as [Ha Hnd].
      rewrite (IH (S n) _ p w); simpl; try done; [lia|].
      split; [done|]. intros b Hb.
      rewrite lookup_delete_ne; [apply Halloc; by right|].
      intros ->. apply Ha. apply list_elem_of_omap. exists (Some b). done.
    + rewrite (IH (S n) _ p w); try done; [lia|].
      split; [done|]. intros b Hb. apply Halloc. by right.
Qed.

(** What lines 196-204 do to a live pool. *)
Lemma destroy_finish_result st p w l total :
  pools st !! p = Some w →
  queue_wf st (wqueue w) l →
  (Z.to_nat total ≤ length (worker_array w))%nat →
  records_ok (wrecs st) (take (Z.to_nat total) (worker_array w)) →
  ∃ s st',
    has_tasks (wqueue w) = Some s ∧
    workers_destroy_finish (Some p) total st = Ok tt st' ∧
    pools st' = delete p (pools st) ∧
    sems st' = delete s (sems st) ∧
    tasks st' = foldl (λ h a, delete a h) (tasks st) l ∧
    wrecs st' = free_all (wrecs st) (take (Z.to_nat total) (worker_array w)) ∧
    trace st' = trace st ++ replicate (length l - 1) (EvSemSignal s) ∧
    threads st' = threads st ∧
    worker_keepalive st' = worker_keepalive st.
Proof.
  intros Hw Hwf Hlen Hrec.
  destruct (queue_clear_result st (wqueue w) l Hwf) as (s & Hs & Hclear).
  exists s. eexists. split; [done|].
  unfold workers_destroy_finish, bind at 1, on_queue, bind at 1, load_pool.
  rewrite Hw. unfold bind at 1, bind at 1, queue_destroy, bind at 1.
  rewrite Hclear. msimpl.
  rewrite Hw.
  erewrite (destroy_workers_ok (Z.to_nat total) 0 _ p
              (Workers (number_of_alive w) (number_of_working w) (outcome w)
                 (Queue 0 None None (Some s)) (worker_array w)));
    [| simpl; by rewrite lookup_insert_eq | simpl; lia | simpl; by rewrite drop_0 ].
  simpl. rewrite lookup_insert_eq. rewrite drop_0.
  split; [reflexivity|]. simpl.
  split; [by rewrite delete_insert_eq|]. split; [by rewrite delete_insert_eq|]. done.
Qed.

(** X7. The last part of [pgmoneta_workers_destroy] (lines 196-204) on a
    live pool whose queue still holds the tasks [l]: the call returns;
    the queued tasks are freed without being run, the semaphore and the
    pool are freed, and so are the worker records of the first
    [worker_total] slots of the array.  The records of the other slots
    are left allocated. *)
Theorem destroy_finish_releases st p w l total
    (Hw : pools st !! p = Some w)
    (Hwf : queue_wf st (wqueue w) l)
    (Hlen : (Z.to_nat total ≤ length (worker_array w))%nat)
    (Hrec : records_ok (wrecs st) (take (Z.to_nat total) (worker_array w))) :
  ∃ s st',
    has_tasks (wqueue w) = Some s ∧
    workers_destroy_finish (Some p) total st = Ok tt st' ∧
    pools st' = delete p (pools st) ∧
    sems st' = delete s (sems st) ∧
    (∀ a, a ∈ l → tasks st' !! a = None) ∧
    (∀ a, a ∉ l → tasks st' !! a = tasks st !! a) ∧
    (∀ a, Some a ∈ take (Z.to_nat total) (worker_array w) → wrecs st' !! a = None) ∧
    (∀ a, Some a ∉ take (Z.to_nat total) (worker_array w) →
          wrecs st' !! a = wrecs st !! a) ∧
    runs (emitted st st') = [] ∧ threads st' = threads st.
Proof.
  destruct (destroy_finish_result st p w l total Hw Hwf Hlen Hrec)
    as (s & st' & Hs & Hfinish & Hpools & Hsems & Htasks & Hwrecs & Htrace & Hthreads & _).
  exists s, st'. split; [done|]. split; [done|]. split; [done|]. split; [done|].
  split; [intros a Ha; rewrite Htasks; by apply lookup_free_all_tasks|].
  split; [intros a Ha; rewrite Htasks; by apply lookup_free_all_tasks|].
  split; [intros a Ha; rewrite Hwrecs; by apply lookup_free_all|].
  split; [intros a Ha; rewrite Hwrecs; by apply lookup_free_all|].
  split; [|done].
  unfold emitted. rewrite Htrace, drop_app_length. apply runs_signals.
Qed.

Lemma destroy_finish_releases_witness :
  ∃ s st',
    has_tasks (queue_of pool1 (after stopped)) = Some s ∧
    workers_destroy_finish (Some pool1) 1 (after stopped) = Ok tt st' ∧
    pools st' = delete pool1 (pools (after stopped)) ∧
    sems st' = delete s (sems (after stopped)) ∧
    (∀ a, a ∈ [] → tasks st' !! a = None) ∧
    (∀ a, a ∉ [] → tasks st' !! a = tasks (after stopped) !! a) ∧
    (∀ a, Some a ∈ [Some 4%positive] → wrecs st' !! a = None) ∧
    (∀ a, Some a ∉ [Some 4%positive] → wrecs st' !! a = wrecs (after stopped) !! a) ∧
    runs (emitted (after stopped) st') = [] ∧ threads st' = threads (after stopped).
Proof.
  refine (destroy_finish_releases (after stopped) pool1
            (Workers 0 0 true (Queue 0 None None (Some 2%positive)) [Some 4%positive])
            [] 1 _ _ _ _).
  - vm_compute. reflexivity.
  - constructor.
    + reflexivity.
    + reflexivity.
    + reflexivity.
    + apply NoDup_nil_2.
    + vm_compute. discriminate.
    + exists 2%positive, (Semaphore 1). split; vm_compute; reflexivity.
  - simpl. lia.
  - split.
    + apply NoDup_singleton.
    + intros a Ha. apply list_elem_of_singleton in Ha as [= ->].
      eexists. vm_compute. reflexivity.
Defined.

(** ** One worker, step by step *)

Lemma run_cons l ls st :
  run (l :: ls) st = match exec l st with Some st' => run ls st' | None => None end.
Proof. reflexivity. Qed.

Lemma run_app ls1 : ∀ ls2 st,
  run (ls1 ++ ls2) st = match run ls1 st with Some st' => run ls2 st' | None => None end.
Proof.
  induction ls1 as [|l ls1 IH]; intros ls2 st; [done|].
  simpl. destruct (exec l st); [apply IH|done].
Qed.

Section WorkerSteps.
Variables (st : world) (i : nat) (self p : addr).

Lemma worker_step_loop :
  threads st !! i = Some (Thread self (Some p) W_loop) →
  worker_keepalive st ≠ 0 →
  exec (L_worker i) st =
    Some (set_threads (<[i := Thread self (Some p) W_wait]> (threads st)) st).
Proof.
  intros Ht Hk. unfold exec, enabled, step, worker_ready, worker_step. rewrite Ht.
  simpl. unfold bind, read_keepalive. rewrite (proj2 (Z.eqb_neq _ _) Hk). simpl.
  unfold goto. by rewrite Ht.
Qed.

Lemma worker_step_wait w s :
  threads st !! i = Some (Thread self (Some p) W_wait) →
  pools st !! p = Some w → has_tasks (wqueue w) = Some s →
  sems st !! s = Some (Semaphore 1) →
  exec (L_worker i) st =
    Some (set_threads (<[i := Thread self (Some p) W_recheck]> (threads st))
            (set_sems (<[s := Semaphore 0]> (sems st)) st)).
Proof.
  intros Ht Hw Hs Hv. unfold exec, enabled, step, worker_ready, worker_step. rewrite Ht.
  simpl. rewrite Hw. unfold semaphore_ready. rewrite Hs, Hv. simpl.
  unfold bind, load_pool. rewrite Hw, Hs. unfold semaphore_wait, bind, load_sem.
  rewrite Hv. simpl. unfold goto. simpl. by rewrite Ht.
Qed.

(** Inside [semaphore_wait] with the semaphore not armed, the thread
    cannot move. *)
Lemma worker_step_blocked w s v :
  threads st !! i = Some (Thread self (Some p) W_wait) →
  pools st !! p = Some w → has_tasks (wqueue w) = Some s →
  sems st !! s = Some (Semaphore v) → v ≠ 1 →
  exec (L_worker i) st = None.
Proof.
  intros Ht Hw Hs Hv Hne. unfold exec, enabled, worker_ready. rewrite Ht.
  simpl. rewrite Hw. unfold semaphore_ready. rewrite Hs, Hv. simpl.
  by rewrite (proj2 (Z.eqb_neq _ _) Hne).
Qed.

Lemma worker_step_recheck :
  threads st !! i = Some (Thread self (Some p) W_recheck) →
  exec (L_worker i) st =
    Some (set_threads
            (<[i := Thread self (Some p)
                      (if worker_keepalive st =? 0 then W_loop else W_begin)]> (threads st))
            st).
Proof.
  intros Ht. unfold exec, enabled, step, worker_ready, worker_step. rewrite Ht.
  simpl. unfold bind, read_keepalive.
  destruct (worker_keepalive st =? 0); simpl; unfold goto; by rewrite Ht.
Qed.

Lemma worker_step_begin w :
  threads st !! i = Some (Thread self (Some p) W_begin) →
  pools st !! p = Some w →
  exec (L_worker i) st =
    Some (set_threads (<[i := Thread self (Some p) W_pull]> (threads st))
            (set_pools (<[p := set_working (wrap_int (number_of_working w + 1)) w]> (pools st))
               st)).
Proof.
  intros Ht Hw. unfold exec, enabled, step, worker_ready, worker_step. rewrite Ht.
  simpl. unfold bind, load_pool, store_pool, goto. rewrite Hw. simpl. by rewrite Ht.
Qed.

Lemma worker_step_pull w r q' st1 :
  threads st !! i = Some (Thread self (Some p) W_pull) →
  pools st !! p = Some w →
  queue_pull (wqueue w) st = Ok (r, q') st1 →
  pools st1 = pools st → threads st1 = threads st →
  exec (L_worker i) st =
    Some (set_threads (<[i := Thread self (Some p) (W_call r)]> (threads st))
            (set_pools (<[p := set_queue q' w]> (pools st)) st1)).
Proof.
  intros Ht Hw Hpull Hpools Hthreads.
  unfold exec, enabled, step, worker_ready, worker_step. rewrite Ht.
  simpl. unfold bind at 1, on_queue, bind at 1, load_pool. rewrite Hw.
  unfold bind at 1. rewrite Hpull. unfold bind at 1. rewrite Hpools, Hw.
  unfold bind, store_pool, ret, goto. simpl. rewrite Hthreads, Ht. by rewrite Hpools.
Qed.

Lemma worker_step_call a ta :
  threads st !! i = Some (Thread self (Some p) (W_call (Some a))) →
  tasks st !! a = Some ta →
  exec (L_worker i) st =
    Some (set_threads (<[i := Thread self (Some p) W_end]> (threads st))
            (set_tasks (delete a (tasks st))
               (set_trace (trace st ++ [EvRun (function ta) (wc ta)]) st))).
Proof.
  intros Ht Hta. unfold exec, enabled, step, worker_ready, worker_step. rewrite Ht.
  simpl. unfold bind, load_task, emit, free_task, goto. rewrite Hta. simpl.
  rewrite Hta. simpl. by rewrite Ht.
Qed.

Lemma worker_step_call_null :
  threads st !! i = Some (Thread self (Some p) (W_call None)) →
  exec (L_worker i) st =
    Some (set_threads (<[i := Thread self (Some p) W_end]> (threads st)) st).
Proof.
  intros Ht. unfold exec, enabled, step, worker_ready, worker_step. rewrite Ht.
  simpl. unfold goto. by rewrite Ht.
Qed.

Lemma worker_step_end w :
  threads st !! i = Some (Thread self (Some p) W_end) →
  pools st !! p = Some w →
  exec (L_worker i) st =
    Some (set_threads (<[i := Thread self (Some p) W_loop]> (threads st))
            (set_trace
               (trace st ++
                if wrap_int (number_of_working w - 1) =? 0 then [EvIdleSignal p] else [])
               (set_pools
                  (<[p := set_working (wrap_int (number_of_working w - 1)) w]> (pools st))
                  st))).
Proof.
  intros Ht Hw. unfold exec, enabled, step, worker_ready, worker_step. rewrite Ht.
  simpl. unfold bind at 1, load_pool. rewrite Hw.
  unfold bind at 1, store_pool. unfold bind at 1.
  destruct (wrap_int (number_of_working w - 1) =? 0).
  - unfold bind, the_addr, ret, emit, goto. simpl. by rewrite Ht.
  - unfold ret, goto. simpl. rewrite Ht, app_nil_r. done.
Qed.

Lemma worker_step_exit w :
  threads st !! i = Some (Thread self (Some p) W_exit) →
  pools st !! p = Some w →
  exec (L_worker i) st =
    Some (set_threads (<[i := Thread self (Some p) W_done]> (threads st))
            (set_pools (<[p := set_alive (wrap_int (number_of_alive w - 1)) w]> (pools st))
               st)).
Proof.
  intros Ht Hw. unfold exec, enabled, step, worker_ready, worker_step. rewrite Ht.
  simpl. unfold bind, load_pool, store_pool, goto. rewrite Hw. simpl. by rewrite Ht.
Qed.

End WorkerSteps.

Lemma queue_wf_sem_value st st' q l s v :
  queue_wf st q l → has_tasks q = Some s →
  tasks st' = tasks st → sems st' = <[s := v]> (sems st) →
  queue_wf st' q l.
Proof.
  intros [Hc Hr Hn Hnd Hb Hg] Hs Ht Hsems. constructor; try done.
  - by rewrite Ht.
  - exists s, v. split; [done|]. by rewrite Hsems, lookup_insert_eq.
Qed.

Lemma wrap_int_succ_pred n : 0 <= n < INT_MAX → wrap_int (wrap_int (n + 1) - 1) = n.
Proof.
  intros Hn. unfold INT_MAX in Hn.
  rewrite (wrap_int_id (n + 1)) by (unfold in_int, INT_MIN, INT_MAX; lia).
  replace (n + 1 - 1) with n by lia.
  apply wrap_int_id. unfold in_int, INT_MIN, INT_MAX. lia.
Qed.

(** One turn of the loop on a queue that holds [a :: l]. *)
Lemma one_turn_runs st i p a l n ta :
  serving st i p (a :: l) n → 0 <= n < INT_MAX → tasks st !! a = Some ta →
  ∃ st' s,
    run (one_turn i) st = Some st' ∧
    serving st' i p l n ∧
    tasks st' = delete a (tasks st) ∧
    trace st' = trace st ++ (if decide (l = []) then [] else [EvSemSignal s])
                         ++ [EvRun (function ta) (wc ta)]
                         ++ (if n =? 0 then [EvIdleSignal p] else []).
Proof.
  intros (self & w & s & Ht & Hk & Hw & Hwf & Hs & Harmed & Hn) Hrange Hta.
  pose proof (lookup_lt_Some _ _ _ Ht) as Hi.
  specialize (Harmed ltac:(done)).
  unfold one_turn. simpl replicate.
  (* line 320 *)
  rewrite run_cons, (worker_step_loop st i self p Ht Hk).
  (* line 322 *)
  rewrite run_cons.
  erewrite (worker_step_wait _ i self p w s);
    [|simpl; by apply list_lookup_insert_eq|done|done|done].
  (* line 324 *)
  rewrite run_cons.
  erewrite (worker_step_recheck _ i self p);
    [|simpl; rewrite list_insert_insert_eq; by apply list_lookup_insert_eq].
  simpl worker_keepalive. rewrite (proj2 (Z.eqb_neq _ _) Hk).
  (* lines 326-328 *)
  rewrite run_cons.
  erewrite (worker_step_begin _ i self p w);
    [|simpl; rewrite !list_insert_insert_eq; by apply list_lookup_insert_eq|done].
  (* line 330 *)
  set (w1 := set_working (wrap_int (number_of_working w + 1)) w).
  match goal with |- context [run _ ?s] => set (st4 := s) end.
  assert (queue_wf st4 (wqueue w1) (a :: l)) as Hwf4.
  { apply (queue_wf_sem_value st st4 _ _ s (Semaphore 0)); done. }
  destruct (queue_pull_cons st4 _ a l Hwf4)
    as (st5 & q' & Hpull & Hwf5 & Htasks5 & Hsem5 & _ & Hnil & Hcons).
  assert (pools st5 = pools st4 ∧ threads st5 = threads st4 ∧
          worker_keepalive st5 = worker_keepalive st ∧
          trace st5 = trace st ++ (if decide (l = []) then [] else [EvSemSignal s]) ∧
          sems st5 = <[s := Semaphore (if decide (l = []) then 0 else 1)]> (sems st))
    as (Hpools5 & Hthreads5 & Hk5 & Htrace5 & Hsems5).
  { destruct (decide (l = [])) as [->|Hne].
    - rewrite (Hnil eq_refl). simpl. by rewrite app_nil_r.
    - destruct (Hcons Hne) as (s' & Hs' & ->). simpl in Hs'.
      assert (s' = s) as -> by congruence. simpl. by rewrite insert_insert_eq. }
  assert (tasks st5 = tasks st) as Htasks by (by rewrite Htasks5).
  rewrite run_cons.
  erewrite (worker_step_pull st4 i self p w1 (Some a) q' st5);
    [|simpl; rewrite !list_insert_insert_eq; by apply list_lookup_insert_eq
     |simpl; by rewrite lookup_insert_eq|done|done|done].
  (* lines 331-337 *)
  rewrite run_cons.
  erewrite (worker_step_call _ i self p a ta);
    [|simpl; rewrite !list_insert_insert_eq; by apply list_lookup_insert_eq
     |simpl; by rewrite Htasks].
  (* lines 339-345 *)
  rewrite run_cons.
  erewrite (worker_step_end _ i self p (set_queue q' w1));
    [|simpl; rewrite !list_insert_insert_eq; by apply list_lookup_insert_eq
     |simpl; by rewrite lookup_insert_eq].
  simpl run. eexists _, s. split; [reflexivity|].
  simpl number_of_working. rewrite Hn, (wrap_int_succ_pred n Hrange).
  split; [|split].
  - exists self, (set_working n (set_queue q' w1)), s. simpl.
    split; [rewrite !list_insert_insert_eq; by apply list_lookup_insert_eq|].
    split; [by rewrite Hk5|].
    split; [by rewrite lookup_insert_eq|].
    split; [|split; [simpl in Hsem5; congruence|split; [|done]]].
    + destruct Hwf5 as [Hc5 Hr5 Hn5 Hnd5 Hb5 Hg5]. constructor; simpl; try done.
      rewrite Htasks. apply chain_delete_fresh; [|by rewrite <- Htasks].
      destruct Hwf as [_ _ _ Hnd _ _]. by apply NoDup_cons in Hnd as [? _].
    + intros Hne. rewrite Hsems5. rewrite decide_False by done.
      by rewrite lookup_insert_eq.
  - simpl. by rewrite Htasks.
  - simpl. rewrite Htrace5. by rewrite <- !app_assoc.
Qed.

Lemma turns_S k i : turns (S k) i = one_turn i ++ turns k i.
Proof.
  unfold turns, one_turn. replace (7 * S k)%nat with (7 + 7 * k)%nat by lia.
  apply replicate_add.
Qed.

Lemma runs_app e1 e2 : runs (e1 ++ e2) = runs e1 ++ runs e2.
Proof. apply omap_app. Qed.

(** X8. One turn of the loop of [worker_do] on a queue that holds
    [a :: l]: the seven steps can be taken; the body of the oldest task
    [a] is started once, with the argument stored in [a], and no other
    body is; [a] is freed; the queue then holds [l] with the semaphore
    armed again unless [l] is empty; the working count is back to its
    value, and the idle condition is signalled exactly when no other
    worker is busy. *)
Theorem worker_turn_runs_oldest st i p a l n ta
    (Hserving : serving st i p (a :: l) n)
    (Hrange : 0 <= n < INT_MAX)
    (Hta : tasks st !! a = Some ta) :
  ∃ st',
    run (one_turn i) st = Some st' ∧
    serving st' i p l n ∧
    runs (emitted st st') = [(function ta, wc ta)] ∧
    tasks st' = delete a (tasks st) ∧
    (EvIdleSignal p ∈ emitted st st' ↔ n = 0).
Proof.
  destruct (one_turn_runs st i p a l n ta Hserving Hrange Hta)
    as (st' & s & Hrun & Hserving' & Htasks & Htrace).
  exists st'. split; [done|]. split; [done|].
  unfold emitted. rewrite Htrace, drop_app_length.
  split; [|split; [done|]].
  - destruct (decide (l = [])), (n =? 0); done.
  - destruct (Z.eqb_spec n 0) as [->|Hne].
    + split; [done|]. intros _. rewrite app_assoc. apply elem_of_app. right. left.
    + split; [|done]. intros Hin.
      apply elem_of_app in Hin as [Hin|Hin].
      * destruct (decide (l = [])); [by apply not_elem_of_nil in Hin|].
        by apply list_elem_of_singleton in Hin.
      * rewrite app_nil_r in Hin. by apply list_elem_of_singleton in Hin.
Qed.

Lemma serving_task_allocated st i p l n a :
  serving st i p l n → a ∈ l → is_Some (tasks st !! a).
Proof.
  intros (self & w & s & _ & _ & _ & Hwf & _) Ha.
  destruct Hwf as [Hc _ _ _ _ _]. by eapply chain_allocated.
Qed.

Lemma task_call_delete st st' a b :
  tasks st' = delete a (tasks st) → b ≠ a → task_call st' b = task_call st b.
Proof. intros Ht Hne. unfold task_call. by rewrite Ht, lookup_delete_ne. Qed.

(** A single worker empties the queue, oldest task first. *)
Lemma turns_drain l : ∀ st i p n,
  serving st i p l n → 0 <= n < INT_MAX →
  ∃ st' evs,
    run (turns (length l) i) st = Some st' ∧
    serving st' i p [] n ∧
    trace st' = trace st ++ evs ∧
    runs evs = task_call st <$> l ∧
    tasks st' = foldl (λ h a, delete a h) (tasks st) l.
Proof.
  induction l as [|a l IH]; intros st i p n Hserving Hrange.
  - exists st, []. simpl. by rewrite app_nil_r.
  - destruct (serving_task_allocated st i p (a :: l) n a Hserving) as [ta Hta]; [left|].
    assert (NoDup (a :: l)) as Hnd.
    { destruct Hserving as (? & ? & ? & _ & _ & _ & [_ _ _ Hnd _ _] & _). done. }
    apply NoDup_cons in Hnd as [Hal Hnd].
    destruct (one_turn_runs st i p a l n ta Hserving Hrange Hta)
      as (st1 & s & Hrun1 & Hserving1 & Htasks1 & Htrace1).
    destruct (IH st1 i p n Hserving1 Hrange) as (st' & evs & Hrun & Hserving' & Htrace & Hruns & Htasks).
    exists st'. eexists. simpl length. rewrite turns_S, run_app, Hrun1.
    split; [done|]. split; [done|].
    split; [rewrite Htrace, Htrace1, <- app_assoc; reflexivity|].
    split.
    + rewrite runs_app, Hruns.
      match goal with |- runs ?e ++ _ = _ =>
        assert (runs e = [(function ta, wc ta)]) as ->
          by (destruct (decide (l = [])), (n =? 0); reflexivity)
      end.
      simpl. f_equal.
      * unfold task_call. by rewrite Hta.
      * apply list_fmap_ext. intros k b Hb.
        apply (task_call_delete st st1 a b Htasks1).
        intros ->. apply Hal. by eapply list_elem_of_lookup_2.
    + simpl. by rewrite Htasks, Htasks1.
Qed.

(** X9. A single worker at the head of its loop, with the run flag set
    and the semaphore armed, empties a queue of any length alone: seven
    steps per task can be taken, the task bodies are started in the order
    in which the tasks are queued, each once and with its own argument,
    every task is freed, and if no other worker is busy the condition on
    which [pgmoneta_workers_wait] loops is false at the end. *)
Theorem single_worker_drains_in_order st i p l n
    (Hserving : serving st i p l n) (Hrange : 0 <= n < INT_MAX) :
  ∃ st',
    run (turns (length l) i) st = Some st' ∧
    serving st' i p [] n ∧
    runs (emitted st st') = task_call st <$> l ∧
    (∀ a, a ∈ l → tasks st' !! a = None) ∧
    (n = 0 → workers_wait_condition p st' = false).
Proof.
  destruct (turns_drain l st i p n Hserving Hrange)
    as (st' & evs & Hrun & Hserving' & Htrace & Hruns & Htasks).
  exists st'. split; [done|]. split; [done|].
  unfold emitted. rewrite Htrace, drop_app_length. split; [done|]. split.
  - intros a Ha. rewrite Htasks. by apply lookup_free_all_tasks.
  - intros ->. destruct Hserving' as (self & w & s & _ & _ & Hw & Hwf & _ & _ & Hn).
    unfold workers_wait_condition. rewrite Hw, Hn.
    destruct Hwf as [_ _ Hcount _ _ _]. simpl in Hcount. by rewrite Hcount.
Qed.

Lemma two_tasks_serving : serving (after two_tasks) 0 pool1 [5%positive; 6%positive] 0.
Proof.
  exists 4%positive,
    (Workers 1 0 true (Queue 2 (Some 5%positive) (Some 6%positive) (Some 2%positive))
       [Some 4%positive]), 2%positive.
  split; [vm_compute; reflexivity|]. split; [vm_compute; discriminate|].
  split; [vm_compute; reflexivity|]. split; [exact two_tasks_wf|].
  split; [reflexivity|]. split; [|reflexivity].
  intros _. vm_compute. reflexivity.
Defined.

Lemma worker_turn_runs_oldest_witness :
  ∃ st',
    run (one_turn 0) (after two_tasks) = Some st' ∧
    serving st' 0 pool1 [6%positive] 0 ∧
    runs (emitted (after two_tasks) st') = [(7, None)] ∧
    tasks st' = delete 5%positive (tasks (after two_tasks)) ∧
    (EvIdleSignal pool1 ∈ emitted (after two_tasks) st' ↔ 0 = 0).
Proof.
  refine (worker_turn_runs_oldest (after two_tasks) 0 pool1 5%positive [6%positive] 0
            (Task 7 None (Some 6%positive)) two_tasks_serving _ _).
  - unfold INT_MAX. lia.
  - vm_compute. reflexivity.
Defined.

Lemma single_worker_drains_in_order_witness :
  ∃ st',
    run (turns 2 0) (after two_tasks) = Some st' ∧
    serving st' 0 pool1 [] 0 ∧
    runs (emitted (after two_tasks) st') =
      task_call (after two_tasks) <$> [5%positive; 6%positive] ∧
    (∀ a, a ∈ [5%positive; 6%positive] → tasks st' !! a = None) ∧
    (0 = 0 → workers_wait_condition pool1 st' = false).
Proof.
  refine (single_worker_drains_in_order (after two_tasks) 0 pool1
            [5%positive; 6%positive] 0 two_tasks_serving _).
  unfold INT_MAX. lia.
Defined.

(** X10. A wake-up on an empty queue.  When the semaphore is armed but the
    queue is empty (another worker took the task), one turn of the loop
    can be taken and runs nothing: [queue_pull] returns NULL, the pool,
    the tasks and the threads are as before, the semaphore is back to 0,
    and the only event is the idle signal, raised if no other worker is
    busy.  The thread then goes back into [semaphore_wait] and blocks. *)
Theorem wake_on_empty_queue st i self p w s
    (Ht : threads st !! i = Some (Thread self (Some p) W_loop))
    (Hk : worker_keepalive st ≠ 0)
    (Hw : pools st !! p = Some w)
    (Hwf : queue_wf st (wqueue w) [])
    (Hs : has_tasks (wqueue w) = Some s)
    (Harmed : sems st !! s = Some (Semaphore 1))
    (Hn : 0 <= number_of_working w < INT_MAX) :
  ∃ st' st'',
    run (one_turn i) st = Some st' ∧
    emitted st st' = (if number_of_working w =? 0 then [EvIdleSignal p] else []) ∧
    runs (emitted st st') = [] ∧
    pools st' = pools st ∧ tasks st' = tasks st ∧ threads st' = threads st ∧
    sems st' = <[s := Semaphore 0]> (sems st) ∧
    exec (L_worker i) st' = Some st'' ∧
    exec (L_worker i) st'' = None.
Proof.
  pose proof (lookup_lt_Some _ _ _ Ht) as Hi.
  unfold one_turn. simpl replicate.
  rewrite run_cons, (worker_step_loop st i self p Ht Hk).
  rewrite run_cons.
  erewrite (worker_step_wait _ i self p w s);
    [|simpl; by apply list_lookup_insert_eq|done|done|done].
  rewrite run_cons.
  erewrite (worker_step_recheck _ i self p);
    [|simpl; rewrite list_insert_insert_eq; by apply list_lookup_insert_eq].
  simpl worker_keepalive. rewrite (proj2 (Z.eqb_neq _ _) Hk).
  rewrite run_cons.
  erewrite (worker_step_begin _ i self p w);
    [|simpl; rewrite !list_insert_insert_eq; by apply list_lookup_insert_eq|done].
  set (w1 := set_working (wrap_int (number_of_working w + 1)) w).
  match goal with |- context [run _ ?s] => set (st4 := s) end.
  assert (queue_wf st4 (wqueue w1) []) as Hwf4.
  { apply (queue_wf_sem_value st st4 _ _ s (Semaphore 0)); done. }
  rewrite run_cons.
  erewrite (worker_step_pull st4 i self p w1 None (wqueue w1) st4);
    [|simpl; rewrite !list_insert_insert_eq; by apply list_lookup_insert_eq
     |simpl; by rewrite lookup_insert_eq|by apply queue_pull_nil|done|done].
  rewrite run_cons.
  erewrite (worker_step_call_null _ i self p);
    [|simpl; rewrite !list_insert_insert_eq; by apply list_lookup_insert_eq].
  rewrite run_cons.
  erewrite (worker_step_end _ i self p (set_queue (wqueue w1) w1));
    [|simpl; rewrite !list_insert_insert_eq; by apply list_lookup_insert_eq
     |simpl; by rewrite lookup_insert_eq].
  simpl run. simpl number_of_working. rewrite (wrap_int_succ_pred _ Hn).
  match goal with |- context [Some ?s = Some _] => set (st7 := s) end.
  assert (threads st7 = threads st) as Hthreads.
  { subst st7. simpl. rewrite !list_insert_insert_eq. by apply list_insert_id. }
  assert (pools st7 = pools st) as Hpools.
  { subst st7. simpl. rewrite !insert_insert_eq. apply insert_id.
    rewrite Hw. f_equal. by destruct w. }
  assert (threads st7 !! i = Some (Thread self (Some p) W_loop)) as Ht7 by (by rewrite Hthreads).
  assert (sems st7 = <[s := Semaphore 0]> (sems st)) as Hsems by done.
  assert (tasks st7 = tasks st) as Htasks by done.
  assert (worker_keepalive st7 = worker_keepalive st) as Hk7 by done.
  assert (trace st7 = trace st ++
            (if number_of_working w =? 0 then [EvIdleSignal p] else [])) as Htrace by done.
  clearbody st7.
  eexists st7, _. split; [reflexivity|].
  unfold emitted. rewrite Htrace, drop_app_length.
  split; [done|]. split; [by destruct (number_of_working w =? 0)|].
  split; [done|]. split; [done|]. split; [done|]. split; [done|].
  split.
  - apply (worker_step_loop st7 i self p Ht7). by rewrite Hk7.
  - apply (worker_step_blocked _ i self p w s 0).
    + simpl. apply list_lookup_insert_eq. by rewrite Hthreads.
    + simpl. by rewrite Hpools.
    + done.
    + simpl. by rewrite Hsems, lookup_insert_eq.
    + done.
Qed.

Lemma wake_on_empty_queue_witness :
  ∃ st' st'',
    run (one_turn 0) (after armed_empty) = Some st' ∧
    emitted (after armed_empty) st' = [EvIdleSignal pool1] ∧
    runs (emitted (after armed_empty) st') = [] ∧
    pools st' = pools (after armed_empty) ∧ tasks st' = tasks (after armed_empty) ∧
    threads st' = threads (after armed_empty) ∧
    sems st' = <[2%positive := Semaphore 0]> (sems (after armed_empty)) ∧
    exec (L_worker 0) st' = Some st'' ∧
    exec (L_worker 0) st'' = None.
Proof.
  refine (wake_on_empty_queue (after armed_empty) 0 4%positive pool1
            (Workers 2 0 true (Queue 0 None None (Some 2%positive))
               [Some 4%positive; Some 5%positive]) 2%positive _ _ _ _ _ _ _).
  - vm_compute. reflexivity.
  - vm_compute. discriminate.
  - vm_compute. reflexivity.
  - constructor.
    + reflexivity.
    + reflexivity.
    + reflexivity.
    + apply NoDup_nil_2.
    + vm_compute. discriminate.
    + exists 2%positive, (Semaphore 1). split; vm_compute; reflexivity.
  - reflexivity.
  - vm_compute. reflexivity.
  - simpl. unfold INT_MAX. lia.
Defined.

(** ** Shutting a pool down *)

Lemma worker_step_loop_exit st i self p :
  threads st !! i = Some (Thread self (Some p) W_loop) →
  worker_keepalive st = 0 →
  exec (L_worker i) st =
    Some (set_threads (<[i := Thread self (Some p) W_exit]> (threads st)) st).
Proof.
  intros Ht Hk. unfold exec, enabled, step, worker_ready, worker_step. rewrite Ht.
  simpl. unfold bind, read_keepalive. rewrite Hk. simpl.
  unfold goto. by rewrite Ht.
Qed.

Lemma destroy_begin_step st p w :
  pools st !! p = Some w →
  exec (L_destroy (Some p)) st =
    Some (set_pending (pending st ++ [InDestroy p (number_of_alive w)])
            (set_keepalive 0 st)).
Proof.
  intros Hw. unfold exec. simpl.
  unfold bind, load_pool. by rewrite Hw.
Qed.

Lemma destroy_round_step st p total w s sm :
  InDestroy p total ∈ pending st →
  pools st !! p = Some w → number_of_alive w ≠ 0 →
  has_tasks (wqueue w) = Some s → sems st !! s = Some sm →
  exec (L_destroy_round p total) st =
    Some (set_trace (trace st ++ [EvSemBroadcast s])
            (set_sems (<[s := Semaphore 1]> (sems st)) st)).
Proof.
  intros Hp Hw Halive Hs Hsm. unfold exec, enabled, is_pending.
  rewrite bool_decide_eq_true_2 by done. simpl.
  unfold bind at 1, workers_destroy_round, bind at 1, load_pool. rewrite Hw.
  rewrite (proj2 (Z.eqb_neq _ _) Halive). simpl.
  unfold bind, semaphore_post_all, bind, load_sem, store_sem, the_addr, emit, ret.
  rewrite Hs, Hsm. reflexivity.
Qed.

Lemma destroy_return_step st p total w st' :
  InDestroy p total ∈ pending st →
  pools st !! p = Some w → number_of_alive w = 0 →
  workers_destroy_finish (Some p) total
    (set_pending (remove_call (InDestroy p total) (pending st)) st) = Ok tt st' →
  exec (L_destroy_return p total) st =
    Some (set_trace (trace st' ++ [EvDestroyReturn p]) st').
Proof.
  intros Hp Hw Halive Hfinish. unfold exec, enabled, is_pending.
  rewrite bool_decide_eq_true_2 by done. rewrite Hw, Halive. simpl.
  unfold bind at 1, load_pool. rewrite Hw.
  unfold bind at 1, drop_pending. unfold bind at 1. rewrite Hfinish.
  reflexivity.
Qed.

(** The shutdown of a pool with one worker, from the call of destroy. *)
Lemma shutdown_result st i self p w s sm l :
  threads st !! i = Some (Thread self (Some p) W_wait) →
  pools st !! p = Some w → number_of_alive w = 1 →
  queue_wf st (wqueue w) l →
  has_tasks (wqueue w) = Some s → sems st !! s = Some sm →
  (1 ≤ length (worker_array w))%nat →
  records_ok (wrecs st) (take 1 (worker_array w)) →
  ∃ st1 st',
    exec (L_destroy (Some p)) st = Some st1 ∧
    exec (L_destroy_return p 1) st1 = None ∧
    run (shutdown p i) st1 = Some st' ∧
    worker_keepalive st' = 0 ∧
    threads st' = <[i := Thread self (Some p) W_done]> (threads st) ∧
    pools st' = delete p (pools st) ∧
    sems st' = delete s (sems st) ∧
    (∀ a, a ∈ l → tasks st' !! a = None) ∧
    (∀ a, Some a ∈ take 1 (worker_array w) → wrecs st' !! a = None) ∧
    trace st' = trace st ++ [EvSemBroadcast s]
                  ++ replicate (length l - 1) (EvSemSignal s) ++ [EvDestroyReturn p].
Proof.
  intros Ht Hw Halive Hwf Hs Hsm Hlen Hrec.
  pose proof (lookup_lt_Some _ _ _ Ht) as Hi.
  rewrite (destroy_begin_step st p w Hw), Halive.
  set (c := InDestroy p 1).
  set (st1 := set_pending (pending st ++ [c]) (set_keepalive 0 st)).
  assert (c ∈ pending st ++ [c]) as Hc.
  { apply elem_of_app. right. by apply list_elem_of_singleton. }
  exists st1.
  assert (exec (L_destroy_return p 1) st1 = None) as Hblocked.
  { unfold exec, enabled, is_pending. simpl.
    rewrite bool_decide_eq_true_2 by done. rewrite Hw, Halive. done. }
  assert (∃ st6,
            run (L_destroy_round p 1 :: replicate 4 (L_worker i)) st1 = Some st6 ∧
            worker_keepalive st6 = 0 ∧
            threads st6 = <[i := Thread self (Some p) W_done]> (threads st) ∧
            pools st6 = <[p := set_alive 0 w]> (pools st) ∧
            sems st6 = <[s := Semaphore 0]> (sems st) ∧
            tasks st6 = tasks st ∧ wrecs st6 = wrecs st ∧
            pending st6 = pending st ++ [c] ∧
            trace st6 = trace st ++ [EvSemBroadcast s])
    as (st6 & Hrun6 & Hk6 & Hthreads6 & Hpools6 & Hsems6 & Htasks6 & Hwrecs6 & Hpend6 & Htrace6).
  { eexists. simpl replicate.
    (* one round of semaphore_post_all *)
    rewrite run_cons.
    rewrite (destroy_round_step st1 p 1 w s sm); [|done|done|by rewrite Halive|done|done].
    (* the worker leaves semaphore_wait *)
    rewrite run_cons.
    erewrite (worker_step_wait _ i self p w s);
      [|done|done|done|simpl; by rewrite lookup_insert_eq].
    (* line 324 finds the flag at 0 *)
    rewrite run_cons.
    erewrite (worker_step_recheck _ i self p);
      [|simpl; by apply list_lookup_insert_eq].
    simpl worker_keepalive. change (0 =? 0) with true. cbv iota.
    (* so does line 320 *)
    rewrite run_cons.
    erewrite (worker_step_loop_exit _ i self p);
      [|simpl; rewrite !list_insert_insert_eq; by apply list_lookup_insert_eq|done].
    (* lines 349-351 *)
    rewrite run_cons.
    erewrite (worker_step_exit _ i self p w);
      [|simpl; rewrite !list_insert_insert_eq; by apply list_lookup_insert_eq|done].
    rewrite Halive. change (wrap_int (1 - 1)) with 0.
    simpl run. split; [reflexivity|]. simpl.
    rewrite !list_insert_insert_eq, insert_insert_eq. done. }
  clearbody st1.
  (* destroy sees no live worker and releases the pool *)
  set (w0 := set_alive 0 w).
  set (st6' := set_pending (remove_call c (pending st6)) st6).
  destruct (destroy_finish_result st6' p w0 l 1)
    as (s' & st7 & Hs' & Hfinish & Hpools & Hsems & Htasks & Hwrecs & Htrace & Hthreads & Hk).
  { simpl. by rewrite Hpools6, lookup_insert_eq. }
  { apply (queue_wf_sem_value st st6' _ _ s (Semaphore 0)); done. }
  { done. }
  { simpl. by rewrite Hwrecs6. }
  simpl in Hs'. assert (s' = s) as -> by congruence.
  exists (set_trace (trace st7 ++ [EvDestroyReturn p]) st7).
  unfold shutdown.
  change ([L_destroy_round p 1] ++ replicate 4 (L_worker i) ++ [L_destroy_return p 1])
    with ((L_destroy_round p 1 :: replicate 4 (L_worker i)) ++ [L_destroy_return p 1]).
  rewrite run_app, Hrun6, run_cons.
  rewrite (destroy_return_step st6 p 1 w0 st7);
    [|by rewrite Hpend6|by rewrite Hpools6, lookup_insert_eq|done|done].
  split; [reflexivity|]. split; [done|]. split; [reflexivity|]. simpl in *.
  split; [congruence|]. split; [congruence|].
  split; [by rewrite Hpools, Hpools6, delete_insert_eq|].
  split; [by rewrite Hsems, Hsems6, delete_insert_eq|].
  split; [intros a Ha; rewrite Htasks, Htasks6; by apply lookup_free_all_tasks|].
  split; [intros a Ha; rewrite Hwrecs, Hwrecs6; by apply lookup_free_all|].
  rewrite Htrace, Htrace6. by rewrite <- !app_assoc.
Qed.

(** X11. Destroying a pool whose single worker sits in [semaphore_wait],
    with the tasks [l] still queued.  Once the run flag is 0 the call
    cannot return while the worker is alive; after one round of
    [semaphore_post_all] the worker leaves in four steps, and the call
    then returns: the run flag is 0, the worker has returned, the pool,
    its semaphore and the worker record are freed, and the queued tasks
    have been freed without any of them being run. *)
Theorem destroy_discards_queued_tasks st i self p w s sm l
    (Ht : threads st !! i = Some (Thread self (Some p) W_wait))
    (Hw : pools st !! p = Some w)
    (Halive : number_of_alive w = 1)
    (Hwf : queue_wf st (wqueue w) l)
    (Hs : has_tasks (wqueue w) = Some s)
    (Hsm : sems st !! s = Some sm)
    (Hlen : (1 ≤ length (worker_array w))%nat)
    (Hrec : records_ok (wrecs st) (take 1 (worker_array w))) :
  ∃ st1 st',
    exec (L_destroy (Some p)) st = Some st1 ∧
    exec (L_destroy_return p 1) st1 = None ∧
    run (shutdown p i) st1 = Some st' ∧
    worker_keepalive st' = 0 ∧
    t_pc <$> threads st' !! i = Some W_done ∧
    pools st' !! p = None ∧ sems st' !! s = None ∧
    (∀ a, a ∈ l → tasks st' !! a = None) ∧
    (∀ a, Some a ∈ take 1 (worker_array w) → wrecs st' !! a = None) ∧
    runs (emitted st st') = [] ∧
    last (emitted st st') = Some (EvDestroyReturn p).
Proof.
  destruct (shutdown_result st i self p w s sm l Ht Hw Halive Hwf Hs Hsm Hlen Hrec)
    as (st1 & st' & Hbegin & Hblocked & Hrun & Hk & Hthreads & Hpools & Hsems & Htasks
        & Hwrecs & Htrace).
  exists st1, st'. split; [done|]. split; [done|]. split; [done|]. split; [done|].
  split.
  { rewrite Hthreads, list_lookup_insert_eq; [done|]. by eapply lookup_lt_Some. }
  split; [by rewrite Hpools, lookup_delete_eq|].
  split; [by rewrite Hsems, lookup_delete_eq|].
  split; [done|]. split; [done|].
  unfold emitted. rewrite Htrace, drop_app_length. split.
  - change (EvSemBroadcast s :: ?x) with ([EvSemBroadcast s] ++ x).
    by rewrite !runs_app, runs_signals.
  - rewrite app_assoc. apply last_snoc.
Qed.

Lemma destroy_discards_queued_tasks_witness :
  ∃ st1 st',
    exec (L_destroy (Some pool1)) (after waiting_with_tasks) = Some st1 ∧
    exec (L_destroy_return pool1 1) st1 = None ∧
    run (shutdown pool1 0) st1 = Some st' ∧
    worker_keepalive st' = 0 ∧
    t_pc <$> threads st' !! 0%nat = Some W_done ∧
    pools st' !! pool1 = None ∧ sems st' !! 2%positive = None ∧
    (∀ a, a ∈ [5%positive; 6%positive] → tasks st' !! a = None) ∧
    (∀ a, Some a ∈ [Some 4%positive] → wrecs st' !! a = None) ∧
    runs (emitted (after waiting_with_tasks) st') = [] ∧
    last (emitted (after waiting_with_tasks) st') = Some (EvDestroyReturn pool1).
Proof.
  refine (destroy_discards_queued_tasks (after waiting_with_tasks) 0 4%positive pool1
            (Workers 1 0 true (Queue 2 (Some 5%positive) (Some 6%positive) (Some 2%positive))
               [Some 4%positive])
            2%positive (Semaphore 1) [5%positive; 6%positive] _ _ _ _ _ _ _ _).
  - vm_compute. reflexivity.
  - vm_compute. reflexivity.
  - reflexivity.
  - constructor.
    + vm_compute. split; [reflexivity|]. eexists. split; [reflexivity|].
      split; [reflexivity|]. eexists. split; reflexivity.
    + reflexivity.
    + reflexivity.
    + apply NoDup_cons. split; [|apply NoDup_singleton].
      intros H. apply list_elem_of_singleton in H. discriminate.
    + vm_compute. discriminate.
    + exists 2%positive, (Semaphore 1). split; vm_compute; reflexivity.
  - reflexivity.
  - vm_compute. reflexivity.
  - simpl. lia.
  - split.
    + apply NoDup_singleton.
    + intros a Ha. apply list_elem_of_singleton in Ha as [= ->].
      eexists. vm_compute. reflexivity.
Defined.

(** ** The payload builder on paths that fit *)

Lemma copy_path_fits MAX_PATH src st :
  fits MAX_PATH src →
  copy_path MAX_PATH (replicate MAX_PATH Byte.x00) src st = Ok (padded MAX_PATH src) st.
Proof.
  intros Hfit. unfold copy_path, padded.
  destruct src as [s|]; cbn [default].
  - specialize (Hfit s eq_refl).
    destruct (0 <? length s)%nat eqn:Hpos.
    + unfold memcpy_field. rewrite (proj2 (Nat.leb_le _ _) Hfit).
      by rewrite drop_replicate.
    + apply Nat.ltb_ge in Hpos. assert (s = []) as -> by (apply nil_length_inv; lia).
      simpl. by rewrite Nat.sub_0_r.
  - simpl. by rewrite Nat.sub_0_r.
Qed.

Lemma create_worker_input_result MAX_PATH dir src dst lvl workers st :
  allocs_succeed 1 st = true →
  fits MAX_PATH dir → fits MAX_PATH src → fits MAX_PATH dst →
  pgmoneta_create_worker_input MAX_PATH dir src dst lvl workers st =
    Ok (0, Some (brk st))
       (set_inputs
          (<[brk st := WorkerInput workers (padded MAX_PATH dir) (padded MAX_PATH src)
                         (padded MAX_PATH dst) lvl None None None]> (inputs st))
          (set_alloc (Pos.succ (brk st)) (tl (oom st)) st)).
Proof.
  intros Halloc Hdir Hsrc Hdst.
  unfold pgmoneta_create_worker_input, bind at 1, malloc.
  unfold allocs_succeed in Halloc.
  assert (match oom st with true :: _ => False | _ => True end) as Hoom.
  { destruct (oom st) as [|[] o]; simpl in *; done. }
  destruct (oom st) as [|[] o]; try done;
    unfold bind; rewrite !copy_path_fits by done; reflexivity.
Qed.

Lemma padded_length MAX_PATH src :
  fits MAX_PATH src → length (padded MAX_PATH src) = MAX_PATH.
Proof.
  intros Hfit. unfold padded. rewrite length_app, length_replicate.
  destruct src as [s|]; simpl; [specialize (Hfit s eq_refl)|]; lia.
Qed.

(** X12. When [malloc] succeeds and the three paths fit their fields, the
    builder returns 0 with a new descriptor in which each path field has
    exactly [MAX_PATH] bytes: the characters of the argument, if any,
    followed by zero bytes; the level and the pool are stored, the three
    result pointers are NULL, and nothing else in the store changes. *)
Theorem create_worker_input_stores MAX_PATH dir src dst lvl workers st
    (Halloc : allocs_succeed 1 st = true)
    (Hdir : fits MAX_PATH dir) (Hsrc : fits MAX_PATH src) (Hdst : fits MAX_PATH dst) :
  ∃ st',
    pgmoneta_create_worker_input MAX_PATH dir src dst lvl workers st
      = Ok (0, Some (brk st)) st' ∧
    inputs st' !! brk st =
      Some (WorkerInput workers (padded MAX_PATH dir) (padded MAX_PATH src)
              (padded MAX_PATH dst) lvl None None None) ∧
    length (padded MAX_PATH dir) = MAX_PATH ∧
    length (padded MAX_PATH src) = MAX_PATH ∧
    length (padded MAX_PATH dst) = MAX_PATH ∧
    tasks st' = tasks st ∧ pools st' = pools st ∧ sems st' = sems st ∧
    threads st' = threads st ∧ trace st' = trace st.
Proof.
  eexists. split; [by apply create_worker_input_result|]. simpl.
  rewrite lookup_insert_eq, !padded_length by done. done.
Qed.

Lemma create_worker_input_stores_witness :
  ∃ st',
    pgmoneta_create_worker_input 4 (Some [Byte.x2f; Byte.x74]) None (Some []) 3
      (Some pool1) (after boot) = Ok (0, Some 5%positive) st' ∧
    inputs st' !! 5%positive =
      Some (WorkerInput (Some pool1) [Byte.x2f; Byte.x74; Byte.x00; Byte.x00]
              [Byte.x00; Byte.x00; Byte.x00; Byte.x00]
              [Byte.x00; Byte.x00; Byte.x00; Byte.x00] 3 None None None) ∧
    length [Byte.x2f; Byte.x74; Byte.x00; Byte.x00] = 4%nat ∧
    length [Byte.x00; Byte.x00; Byte.x00; Byte.x00] = 4%nat ∧
    length [Byte.x00; Byte.x00; Byte.x00; Byte.x00] = 4%nat ∧
    tasks st' = tasks (after boot) ∧ pools st' = pools (after boot) ∧
    sems st' = sems (after boot) ∧
    threads st' = threads (after boot) ∧ trace st' = trace (after boot).
Proof.
  refine (create_worker_input_stores 4 (Some [Byte.x2f; Byte.x74]) None (Some []) 3
            (Some pool1) (after boot) _ _ _ _).
  - reflexivity.
  - intros s [= <-]. simpl. lia.
  - intros s [=].
  - intros s [= <-]. simpl. lia.
Defined.

(** X13. A path of exactly [MAX_PATH] characters is accepted and fills
    its field completely: the field is the path itself, so when the path
    holds no zero byte (as the characters of a C string do not) the stored
    field has no terminating zero byte. *)
Theorem create_worker_input_unterminated MAX_PATH dir src dst lvl workers st
    (Halloc : allocs_succeed 1 st = true)
    (Hfull : length dir = MAX_PATH)
    (Hchars : Byte.x00 ∉ dir)
    (Hsrc : fits MAX_PATH src) (Hdst : fits MAX_PATH dst) :
  ∃ st' wi,
    pgmoneta_create_worker_input MAX_PATH (Some dir) src dst lvl workers st
      = Ok (0, Some (brk st)) st' ∧
    inputs st' !! brk st = Some wi ∧
    directory wi = dir ∧
    Byte.x00 ∉ directory wi.
Proof.
  assert (fits MAX_PATH (Some dir)) as Hdir by (intros s [= <-]; lia).
  eexists _, _. split; [by apply create_worker_input_result|]. simpl.
  rewrite lookup_insert_eq. split; [reflexivity|]. simpl.
  unfold padded. simpl. rewrite Hfull, Nat.sub_diag. simpl. rewrite app_nil_r. done.
Qed.

Lemma create_worker_input_unterminated_witness :
  ∃ st' wi,
    pgmoneta_create_worker_input 4 (Some [Byte.x2f; Byte.x74; Byte.x6d; Byte.x70]) None None 0
      (Some pool1) (after boot) = Ok (0, Some 5%positive) st' ∧
    inputs st' !! 5%positive = Some wi ∧
    directory wi = [Byte.x2f; Byte.x74; Byte.x6d; Byte.x70] ∧
    Byte.x00 ∉ directory wi.
Proof.
  refine (create_worker_input_unterminated 4 [Byte.x2f; Byte.x74; Byte.x6d; Byte.x70]
            None None 0 (Some pool1) (after boot) _ _ _ _ _).
  - reflexivity.
  - reflexivity.
  - intros H. repeat (apply elem_of_cons in H as [H|H]; [discriminate|]).
    by apply not_elem_of_nil in H.
  - intros s [=].
  - intros s [=].
Defined.

(** ** The counters of a pool in every reachable state *)

Lemma untouched_refl st : untouched st st.
Proof. unfold untouched. split; [done|]. split; [done|]. lia. Qed.

Lemma untouched_trans a b c : untouched a b → untouched b c → untouched a c.
Proof.
  intros (P1 & T1 & B1) (P2 & T2 & B2). unfold untouched.
  split; [congruence|]. split; [congruence|]. lia.
Qed.

Lemma same_counters_refl st : same_counters st st.
Proof. split; [eauto|]. split; [done|]. lia. Qed.

Lemma same_counters_trans a b c :
  same_counters a b → same_counters b c → same_counters a c.
Proof.
  intros (P1 & T1 & B1) (P2 & T2 & B2). split; [|split; [congruence|lia]].
  intros p w'' Hw''. destruct (P2 p w'' Hw'') as (w' & Hw' & Ha' & Hb').
  destruct (P1 p w' Hw') as (w & Hw & Ha & Hb).
  exists w. split; [done|]. split; congruence.
Qed.

Lemma untouched_same_counters st st' : untouched st st' → same_counters st st'.
Proof.
  intros (P & T & B). split; [|done]. intros p w' Hw'. rewrite P in Hw'. eauto.
Qed.

Lemma grows_refl a st : grows a st st.
Proof.
  split; [eauto|]. split; [|lia]. exists []. by rewrite app_nil_r.
Qed.

Lemma grows_trans x a b c : grows x a b → grows x b c → grows x a c.
Proof.
  intros (P1 & (n1 & T1 & F1) & B1) (P2 & (n2 & T2 & F2) & B2).
  split; [|split; [|lia]].
  - intros p w'' Hw''.
    destruct (P2 p w'' Hw'') as [(w' & Hw' & Ha' & Hb')|?]; [|by right].
    destruct (P1 p w' Hw') as [(w & Hw & Ha & Hb)|(-> & Ha & Hb)].
    + left. exists w. split; [done|]. split; congruence.
    + right. split; [done|]. split; congruence.
  - exists (n1 ++ n2). rewrite T2, T1, app_assoc. split; [done|].
    by apply Forall_app.
Qed.

Lemma same_counters_grows a st st' : same_counters st st' → grows a st st'.
Proof.
  intros (P & T & B). split; [|split; [|done]].
  - intros p w' Hw'. left. by apply P.
  - exists []. by rewrite app_nil_r.
Qed.

Lemma untouched_bind {A B} (m : M A) (k : A → M B) :
  keeps untouched m → (∀ a, keeps untouched (k a)) → keeps untouched (bind m k).
Proof. apply keeps_bind. exact untouched_trans. Qed.

Lemma untouched_ret {A} (a : A) : keeps untouched (ret a).
Proof. apply keeps_ret. exact untouched_refl. Qed.

Lemma same_counters_bind {A B} (m : M A) (k : A → M B) :
  keeps same_counters m → (∀ a, keeps same_counters (k a)) →
  keeps same_counters (bind m k).
Proof. apply keeps_bind. exact same_counters_trans. Qed.

Lemma same_counters_ret {A} (a : A) : keeps same_counters (ret a).
Proof. apply keeps_ret. exact same_counters_refl. Qed.

Lemma grows_bind x {A B} (m : M A) (k : A → M B) :
  keeps (grows x) m → (∀ a, keeps (grows x) (k a)) → keeps (grows x) (bind m k).
Proof. apply keeps_bind. exact (grows_trans x). Qed.

Lemma grows_ret x {A} (a : A) : keeps (grows x) (ret a).
Proof. apply keeps_ret. exact (grows_refl x). Qed.

(** Closes [keeps untouched m] for a primitive [m]. *)
Ltac untouched_prim :=
  let st := fresh "st" in let a := fresh "a" in
  let st' := fresh "st'" in let H := fresh "H" in
  intros st a st' H;
  repeat match type of H with
         | context [match ?x with _ => _ end] => destruct x eqn:?; try discriminate
         end;
  injection H as <- <-;
  (split; [reflexivity|split; [reflexivity|simpl; lia]]).

Lemma untouched_malloc : keeps untouched malloc.
Proof. unfold malloc. untouched_prim. Qed.
Lemma untouched_load_task p : keeps untouched (load_task p).
Proof. unfold load_task. untouched_prim. Qed.
Lemma untouched_store_task p t : keeps untouched (store_task p t).
Proof. unfold store_task. untouched_prim. Qed.
Lemma untouched_free_task p : keeps untouched (free_task p).
Proof. unfold free_task. untouched_prim. Qed.
Lemma untouched_load_sem p : keeps untouched (load_sem p).
Proof. unfold load_sem. untouched_prim. Qed.
Lemma untouched_store_sem p s : keeps untouched (store_sem p s).
Proof. unfold store_sem. untouched_prim. Qed.
Lemma untouched_free_sem p : keeps untouched (free_sem p).
Proof. unfold free_sem. untouched_prim. Qed.
Lemma untouched_load_pool p : keeps untouched (load_pool p).
Proof. unfold load_pool. untouched_prim. Qed.
Lemma untouched_store_wrec p w : keeps untouched (store_wrec p w).
Proof. unfold store_wrec. untouched_prim. Qed.
Lemma untouched_free_wrec p : keeps untouched (free_wrec p).
Proof. unfold free_wrec. untouched_prim. Qed.
Lemma untouched_the_addr p : keeps untouched (the_addr p).
Proof. unfold the_addr, ret, fault. untouched_prim. Qed.
Lemma untouched_add_pending c : keeps untouched (add_pending c).
Proof. unfold add_pending. untouched_prim. Qed.
Lemma untouched_drop_pending c : keeps untouched (drop_pending c).
Proof. unfold drop_pending. untouched_prim. Qed.
Lemma untouched_emit e : keeps untouched (emit e).
Proof. unfold emit. untouched_prim. Qed.
Lemma untouched_log : keeps untouched pgmoneta_log_error.
Proof. apply untouched_emit. Qed.
Lemma untouched_set_keepalive k : keeps untouched (λ st, Ok tt (set_keepalive k st)).
Proof. untouched_prim. Qed.

Create HintDb untouched discriminated.
#[global] Hint Resolve untouched_malloc untouched_load_task untouched_store_task
  untouched_free_task untouched_load_sem untouched_store_sem untouched_free_sem
  untouched_load_pool untouched_store_wrec untouched_free_wrec untouched_the_addr
  untouched_add_pending untouched_drop_pending untouched_emit untouched_log
  untouched_set_keepalive : untouched.

Ltac untouched_tac :=
  repeat first
    [ apply untouched_ret
    | apply keeps_fault
    | apply untouched_bind; [|intros ?]
    | match goal with
      | |- keeps _ (match ?x with _ => _ end) => destruct x
      | |- keeps _ (if ?x then _ else _) => destruct x
      | |- keeps _ (let _ := _ in _) => cbv zeta
      end
    | solve [eauto with untouched] ].

Lemma untouched_semaphore_init s v : keeps untouched (semaphore_init s v).
Proof. unfold semaphore_init. untouched_tac. Qed.
#[global] Hint Resolve untouched_semaphore_init : untouched.
Lemma untouched_semaphore_reset s : keeps untouched (semaphore_reset s).
Proof. unfold semaphore_reset. untouched_tac. Qed.
Lemma untouched_semaphore_post s : keeps untouched (semaphore_post s).
Proof. unfold semaphore_post. untouched_tac. Qed.
Lemma untouched_semaphore_post_all s : keeps untouched (semaphore_post_all s).
Proof. unfold semaphore_post_all. untouched_tac. Qed.
Lemma untouched_semaphore_wait s : keeps untouched (semaphore_wait s).
Proof. unfold semaphore_wait. untouched_tac. Qed.
#[global] Hint Resolve untouched_semaphore_reset untouched_semaphore_post
  untouched_semaphore_post_all untouched_semaphore_wait : untouched.
Lemma untouched_queue_init : keeps untouched queue_init.
Proof. unfold queue_init. untouched_tac. Qed.
Lemma untouched_queue_push q t : keeps untouched (queue_push q t).
Proof. unfold queue_push. untouched_tac. Qed.
Lemma untouched_queue_pull q : keeps untouched (queue_pull q).
Proof. unfold queue_pull. untouched_tac. Qed.
#[global] Hint Resolve untouched_queue_init untouched_queue_push untouched_queue_pull
  : untouched.
Lemma untouched_queue_clear_loop fuel : ∀ q, keeps untouched (queue_clear_loop fuel q).
Proof.
  induction fuel as [|fuel IH]; intros q; simpl.
  - destruct (number_of_tasks q =? 0); [apply untouched_ret|]. intros st a st' H. done.
  - untouched_tac.
Qed.
#[global] Hint Resolve untouched_queue_clear_loop : untouched.
Lemma untouched_queue_clear q : keeps untouched (queue_clear q).
Proof. unfold queue_clear. untouched_tac. Qed.
#[global] Hint Resolve untouched_queue_clear : untouched.
Lemma untouched_queue_destroy q : keeps untouched (queue_destroy q).
Proof. unfold queue_destroy. untouched_tac. Qed.
#[global] Hint Resolve untouched_queue_destroy : untouched.
Lemma untouched_destroy_round p : keeps untouched (workers_destroy_round p).
Proof. unfold workers_destroy_round. untouched_tac. Qed.
Lemma untouched_destroy_begin p : keeps untouched (workers_destroy_begin p).
Proof. unfold workers_destroy_begin. untouched_tac. Qed.
Lemma untouched_destroy_workers k : ∀ n p, keeps untouched (destroy_workers k n p).
Proof. induction k as [|k IH]; intros n p; simpl; untouched_tac. Qed.
#[global] Hint Resolve untouched_destroy_round untouched_destroy_begin
  untouched_destroy_workers : untouched.

Lemma bind_ok {A B} (m : M A) (k : A → M B) st b st' :
  bind m k st = Ok b st' → ∃ a st1, m st = Ok a st1 ∧ k a st1 = Ok b st'.
Proof. unfold bind. destruct (m st) as [a st1| |]; try done. eauto. Qed.

Lemma sc_of_untouched {A} (m : M A) : keeps untouched m → keeps same_counters m.
Proof. apply keeps_weaken. exact untouched_same_counters. Qed.

Lemma gr_of_same_counters a {A} (m : M A) : keeps same_counters m → keeps (grows a) m.
Proof. apply keeps_weaken. exact (same_counters_grows a). Qed.

(** Writing a pool back with its two counters as they were. *)
Lemma same_counters_update p (g : workers → workers) :
  (∀ w, number_of_alive (g w) = number_of_alive w ∧
        number_of_working (g w) = number_of_working w) →
  keeps same_counters (w <- load_pool p ;; store_pool p (g w)).
Proof.
  intros Hg st a st' H. unfold bind, load_pool, store_pool in H.
  destruct p as [p|]; [|done]. destruct (pools st !! p) as [w|] eqn:Hw; [|done].
  injection H as <- <-. split; [|split; [done|simpl; lia]].
  simpl. intros r w' Hw'. destruct (decide (r = p)) as [->|Hne].
  - rewrite lookup_insert_eq in Hw'. injection Hw' as <-. exists w.
    split; [done|]. apply Hg.
  - rewrite lookup_insert_ne in Hw' by done. eauto.
Qed.

Lemma same_counters_free_pool p : keeps same_counters (free_pool p).
Proof.
  intros st a st' H. unfold free_pool in H.
  destruct p as [p|]; [|injection H as <- <-; apply same_counters_refl].
  destruct (pools st !! p) as [w|] eqn:Hw; [|done].
  injection H as <- <-. split; [|split; [done|simpl; lia]].
  simpl. intros r w' Hw'. apply lookup_delete_Some in Hw' as [_ Hw']. eauto.
Qed.

Lemma same_counters_on_queue {A} p (f : queue → M (A * queue)) :
  (∀ q, keeps untouched (f q)) → keeps same_counters (on_queue p f).
Proof.
  intros Hf. unfold on_queue.
  apply same_counters_bind; [apply sc_of_untouched, untouched_load_pool|]. intros w.
  apply same_counters_bind; [apply sc_of_untouched, Hf|]. intros r.
  intros st a st' H.
  assert (keeps same_counters (w' <- load_pool p ;; store_pool p (set_queue (r.2) w'))) as Hk.
  { apply same_counters_update. by intros []. }
  unfold bind in H, Hk.
  destruct (load_pool p st) as [w0 st0| |] eqn:E0; try done.
  destruct (store_pool p (set_queue r.2 w0) st0) as [[] st1| |] eqn:E1; try done.
  injection H as <- <-.
  apply (Hk st tt st1). unfold bind. by rewrite E0, E1.
Qed.

Create HintDb same_counters discriminated.
#[global] Hint Resolve same_counters_free_pool : same_counters.
#[global] Hint Extern 1 (keeps same_counters (on_queue _ _)) =>
  (apply same_counters_on_queue; intros ?; untouched_tac) : same_counters.

Ltac sc_tac :=
  repeat first
    [ apply same_counters_ret
    | apply keeps_fault
    | solve [apply sc_of_untouched; untouched_tac]
    | solve [eauto with same_counters]
    | apply same_counters_bind; [|intros ?]
    | match goal with
      | |- keeps _ (match ?x with _ => _ end) => destruct x
      | |- keeps _ (if ?x then _ else _) => destruct x
      | |- keeps _ (let _ := _ in _) => cbv zeta
      end ].

Lemma same_counters_workers_add p f arg :
  keeps same_counters (pgmoneta_workers_add p f arg).
Proof. unfold pgmoneta_workers_add. sc_tac. Qed.

Lemma same_counters_destroy_finish p total :
  keeps same_counters (workers_destroy_finish p total).
Proof. unfold workers_destroy_finish. sc_tac. Qed.

(** Every step of a caller of the API other than the set-up of
    [pgmoneta_workers_initialize] leaves the counters and the threads as
    they are. *)
Lemma step_same_counters l st st' :
  step l st = Ok tt st' →
  (∀ i, l ≠ L_worker i) → (∀ num, l ≠ L_initialize num) →
  same_counters st st'.
Proof.
  intros Hstep Hw Hi.
  destruct l as [i|p f arg|num|num w|p|p total|p total]; simpl in Hstep.
  - by destruct (Hw i).
  - revert Hstep. apply same_counters_bind; [apply same_counters_workers_add|].
    intros ?. apply same_counters_ret.
  - by destruct (Hi num).
  - revert Hstep. sc_tac.
  - revert Hstep. sc_tac.
  - revert Hstep. sc_tac.
  - revert Hstep.
    apply same_counters_bind; [sc_tac|]. intros ?.
    apply same_counters_bind; [sc_tac|]. intros ?.
    apply same_counters_bind; [apply same_counters_destroy_finish|]. intros ?.
    sc_tac.
Qed.

(** The set-up of [pgmoneta_workers_initialize] once the pool has its
    address [a]. *)
Lemma grows_store_pool a n q :
  keeps (grows a) (store_pool (Some a) (Workers 0 0 n q [])).
Proof.
  intros st x st' H. unfold store_pool in H. injection H as <- <-.
  split; [|split; [|simpl; lia]].
  - simpl. intros p w' Hw'. destruct (decide (p = a)) as [->|Hne].
    + rewrite lookup_insert_eq in Hw'. injection Hw' as <-. by right.
    + rewrite lookup_insert_ne in Hw' by done. left. eauto.
  - exists []. by rewrite app_nil_r.
Qed.

Lemma grows_worker_init a : keeps (grows a) (worker_init (Some a)).
Proof.
  unfold worker_init.
  apply grows_bind; [apply gr_of_same_counters, sc_of_untouched, untouched_malloc|].
  intros [b|]; [|apply gr_of_same_counters; sc_tac].
  intros st x st' H. unfold bind, store_wrec, pthread_create, ret in H. simpl in H.
  rewrite lookup_insert_eq in H. simpl in H. injection H as <- <-.
  split; [|split; [|simpl; lia]].
  - simpl. intros p w' Hw'. left. eauto.
  - simpl. exists [Thread b (Some a) W_start]. split; [done|].
    by apply Forall_singleton.
Qed.

Lemma grows_spawn_workers a n : keeps (grows a) (spawn_workers n (Some a)).
Proof.
  induction n as [|n IH]; simpl; [apply grows_ret|].
  apply grows_bind; [apply grows_worker_init|]. intros r.
  intros st x st' H.
  assert (keeps same_counters
            (w <- load_pool (Some a) ;;
             store_pool (Some a) (set_worker_array (worker_array w ++ [r.2]) w))) as Hk.
  { apply same_counters_update. by intros []. }
  unfold bind in H, Hk.
  destruct (load_pool (Some a) st) as [w0 st0| |] eqn:E0; try done.
  destruct (store_pool (Some a) (set_worker_array (worker_array w0 ++ [r.2]) w0) st0)
    as [[] st1| |] eqn:E1; try done.
  apply (grows_trans a _ st1).
  - apply same_counters_grows. apply (Hk st tt st1). by rewrite E0, E1.
  - by eapply IH.
Qed.

Lemma grows_initialize_error a : keeps (grows a) (initialize_error (Some a)).
Proof. apply gr_of_same_counters. unfold initialize_error. sc_tac. Qed.

Lemma grows_initialize_rest num a :
  keeps (grows a)
    (rq <- queue_init ;;
     store_pool (Some a) (Workers 0 0 true (snd rq) []) ;;;
     if negb (fst rq =? 0) then pgmoneta_log_error ;;; initialize_error (Some a)
     else
       arr <- malloc ;;
       match arr with
       | None => pgmoneta_log_error ;;; initialize_error (Some a)
       | Some _ => spawn_workers (Z.to_nat num) (Some a) ;;; ret (InitWaiting a)
       end).
Proof.
  apply grows_bind; [apply gr_of_same_counters; sc_tac|]. intros rq.
  apply grows_bind; [apply grows_store_pool|]. intros _.
  destruct (negb (rq.1 =? 0)).
  { apply grows_bind; [apply gr_of_same_counters; sc_tac|]. intros _.
    apply grows_initialize_error. }
  apply grows_bind; [apply gr_of_same_counters; sc_tac|]. intros [b|].
  - apply grows_bind; [apply grows_spawn_workers|]. intros _. apply grows_ret.
  - apply grows_bind; [apply gr_of_same_counters; sc_tac|]. intros _.
    apply grows_initialize_error.
Qed.

(** The set-up either leaves pools and threads alone, or it has taken the
    next fresh address for the pool. *)
Lemma initialize_setup_grows num st r st' :
  workers_initialize_setup num st = Ok r st' →
  same_counters st st' ∨
  ∃ st1, untouched st st1 ∧ (brk st < brk st1)%positive ∧ grows (brk st) st1 st'.
Proof.
  unfold workers_initialize_setup. intros H.
  apply bind_ok in H as ([] & st0 & H0 & H). injection H0 as <-.
  destruct (num <? 1).
  { left. injection H as _ <-. split; [eauto|]. split; [done|simpl; lia]. }
  apply bind_ok in H as (w & st1 & H1 & H).
  unfold malloc in H1. simpl in H1.
  destruct (oom st) as [|[] o] eqn:Ho.
  - injection H1 as <- <-. right.
    exists (set_alloc (Pos.succ (brk st)) [] (set_keepalive 1 st)).
    split; [|split; [simpl; lia|]].
    { split; [done|]. split; [done|]. simpl. lia. }
    revert H. apply (grows_initialize_rest num (brk st)).
  - injection H1 as <- <-. left. revert H.
    assert (keeps same_counters (pgmoneta_log_error ;;; ret InitFailed)) as Hk by sc_tac.
    intros H. apply Hk in H. destruct H as (P & T & B).
    split; [exact P|]. split; [exact T|]. simpl in B. simpl. lia.
  - injection H1 as <- <-. right.
    exists (set_alloc (Pos.succ (brk st)) o (set_keepalive 1 st)).
    split; [|split; [simpl; lia|]].
    { split; [done|]. split; [done|]. simpl. lia. }
    revert H. apply (grows_initialize_rest num (brk st)).
Qed.

(** Counting the threads of a pool. *)
Lemma threads_at_app f p l1 l2 :
  threads_at f p (l1 ++ l2) = threads_at f p l1 + threads_at f p l2.
Proof. induction l1 as [|t l1 IH]; simpl; [done|]. rewrite IH. lia. Qed.

Lemma threads_at_none f p ts :
  Forall (λ t, t_pool t ≠ Some p ∨ f (t_pc t) = false) ts → threads_at f p ts = 0.
Proof.
  induction 1 as [|t ts [Hp|Hf] _ IH]; simpl; [done| |].
  - rewrite bool_decide_eq_false_2 by done. simpl. lia.
  - rewrite Hf, andb_false_r. lia.
Qed.

Lemma threads_at_zero f p ts t :
  threads_at f p ts = 0 → t ∈ ts → t_pool t = Some p → f (t_pc t) = false.
Proof.
  assert (∀ l, 0 ≤ threads_at f p l) as Hpos.
  { induction l as [|x l IH]; simpl; [lia|].
    destruct (bool_decide (t_pool x = Some p) && f (t_pc x)); lia. }
  induction ts as [|x ts IH]; simpl; intros Hz Hin Hp.
  - by apply elem_of_nil in Hin.
  - specialize (Hpos ts). apply elem_of_cons in Hin as [->|Hin].
    + rewrite bool_decide_eq_true_2 in Hz by done. simpl in Hz.
      destruct (f (t_pc x)); [lia|done].
    + apply IH; [|done..].
      destruct (bool_decide (t_pool x = Some p) && f (t_pc x)); lia.
Qed.

Lemma threads_at_bounds f p ts : 0 ≤ threads_at f p ts ≤ Z.of_nat (length ts).
Proof.
  induction ts as [|x ts IH]; simpl; [lia|].
  destruct (bool_decide (t_pool x = Some p) && f (t_pc x)); lia.
Qed.

Lemma threads_at_le f g p ts :
  (∀ pc, f pc = true → g pc = true) → threads_at f p ts ≤ threads_at g p ts.
Proof.
  intros Hfg. induction ts as [|x ts IH]; simpl; [lia|].
  destruct (bool_decide (t_pool x = Some p)); simpl; [|lia].
  destruct (f (t_pc x)) eqn:Hf; [rewrite (Hfg _ Hf); lia|].
  destruct (g (t_pc x)); lia.
Qed.

Lemma threads_at_insert f p pc' : ∀ ts i t,
  ts !! i = Some t →
  threads_at f p (<[i := set_pc pc' t]> ts) =
  threads_at f p ts +
  (if bool_decide (t_pool t = Some p) then Z.b2z (f pc') - Z.b2z (f (t_pc t)) else 0).
Proof.
  induction ts as [|x ts IH]; intros [|i] t Ht; simpl in *; try done.
  - injection Ht as ->. destruct (bool_decide (t_pool t = Some p)); simpl; [|lia].
    destruct (f pc'), (f (t_pc t)); simpl; lia.
  - rewrite (IH i t Ht). lia.
Qed.

Lemma wrap_int_add z d : wrap_int (wrap_int z + d) = wrap_int (z + d).
Proof.
  unfold wrap_int. f_equal.
  replace ((z + 2147483648) mod 4294967296 - 2147483648 + d + 2147483648)
    with ((z + 2147483648) mod 4294967296 + d) by lia.
  rewrite Zplus_mod_idemp_l. f_equal. lia.
Qed.

Lemma wrap_int_sub z d : wrap_int (wrap_int z - d) = wrap_int (z - d).
Proof. unfold Z.sub. apply wrap_int_add. Qed.

(** The steps of a thread, as [worker_moves]. *)
Lemma goto_moves i t pc' st st' :
  threads st !! i = Some t →
  counts_alive pc' = counts_alive (t_pc t) →
  counts_working pc' = counts_working (t_pc t) →
  goto i pc' st = Ok tt st' → worker_moves i t pc' st st'.
Proof.
  intros Ht Ha Hw H. unfold goto in H. rewrite Ht in H. injection H as <-.
  split; [done|]. split; [simpl; lia|]. simpl.
  intros q w' Hw'. exists w'. split; [done|]. split; [done|].
  intros _ ca cw Hca Hcw. rewrite Ha, Hw, !Z.sub_diag, !Z.add_0_r. done.
Qed.

Lemma body_moves {A} (m : M A) (g : A → wpc) i t st st' :
  keeps same_counters m →
  threads st !! i = Some t →
  (∀ x, counts_alive (g x) = counts_alive (t_pc t)) →
  (∀ x, counts_working (g x) = counts_working (t_pc t)) →
  (x <- m ;; goto i (g x)) st = Ok tt st' →
  ∃ pc', worker_moves i t pc' st st'.
Proof.
  intros Hm Ht Ha Hw H. apply bind_ok in H as (x & st1 & H1 & H).
  apply Hm in H1 as (P & T & B). exists (g x).
  apply (goto_moves i t) in H; [|by rewrite T|done..].
  destruct H as (T' & B' & P'). split; [by rewrite T', T|]. split; [lia|].
  intros q w' Hw'. destruct (P' q w' Hw') as (w1 & Hw1 & Hne & Heq).
  destruct (P q w1 Hw1) as (w & Hw0 & Ha0 & Hb0). exists w. split; [done|].
  split.
  - intros Hq. destruct (Hne Hq). split; congruence.
  - intros Hq ca cw Hca Hcw. apply Heq; [done|congruence..].
Qed.

Lemma bump_moves (g : workers → workers) pc' i t st st' :
  threads st !! i = Some t →
  (∀ w ca cw, number_of_alive w = wrap_int ca → number_of_working w = wrap_int cw →
     number_of_alive (g w) =
       wrap_int (ca + (Z.b2z (counts_alive pc') - Z.b2z (counts_alive (t_pc t)))) ∧
     number_of_working (g w) =
       wrap_int (cw + (Z.b2z (counts_working pc') - Z.b2z (counts_working (t_pc t))))) →
  ∀ st1 w, pools st !! default 1%positive (t_pool t) = Some w →
  is_Some (t_pool t) →
  threads st1 = threads st → brk st1 = brk st →
  pools st1 = <[default 1%positive (t_pool t) := g w]> (pools st) →
  goto i pc' st1 = Ok tt st' → worker_moves i t pc' st st'.
Proof.
  intros Ht Hg st1 w Hw [p Hp] T B P H. rewrite Hp in *. simpl in *.
  unfold goto in H. rewrite T, Ht in H. injection H as <-.
  split; [done|]. split; [simpl; lia|]. simpl. rewrite P.
  intros q w' Hw'. destruct (decide (q = p)) as [->|Hne].
  - rewrite lookup_insert_eq in Hw'. injection Hw' as <-. exists w.
    split; [done|]. split; [done|]. intros _ ca cw. apply Hg.
  - rewrite lookup_insert_ne in Hw' by done. exists w'. split; [done|].
    split; [done|]. intros Hq. rewrite Hp in Hq. by injection Hq as ->.
Qed.

Lemma worker_step_moves i t st st' :
  threads st !! i = Some t → worker_step i t st = Ok tt st' →
  ∃ pc', worker_moves i t pc' st st'.
Proof.
  intros Ht H. unfold worker_step in H.
  destruct (t_pc t) eqn:Hpc.
  - (* W_start *)
    exists W_loop. unfold bind, load_pool, store_pool in H.
    destruct (t_pool t) as [p|] eqn:Hp; [|done].
    destruct (pools st !! p) as [w|] eqn:Hw; [|done].
    eapply (bump_moves (λ w, set_alive (wrap_int (number_of_alive w + 1)) w));
      [done| |by rewrite Hp|by rewrite Hp| | | |exact H]; try done.
    + intros w0 ca cw Hca Hcw. rewrite Hpc. simpl.
      rewrite Hca, Hcw, ?wrap_int_add, ?wrap_int_sub. split; f_equal; lia.
    + simpl. by rewrite Hp.
  - (* W_loop *)
    unfold bind, read_keepalive in H.
    destruct (negb (worker_keepalive st =? 0)).
    + exists W_wait. apply goto_moves; try done; by rewrite Hpc.
    + exists W_exit. apply goto_moves; try done; by rewrite Hpc.
  - (* W_wait *)
    apply (body_moves (w <- load_pool (t_pool t) ;; semaphore_wait (has_tasks (wqueue w)))
             (λ _, W_recheck)); try done; try (by rewrite Hpc); [sc_tac|].
    revert H. unfold bind. destruct (load_pool (t_pool t) st); try done.
  - (* W_recheck *)
    unfold bind, read_keepalive in H.
    destruct (negb (worker_keepalive st =? 0)).
    + exists W_begin. apply goto_moves; try done; by rewrite Hpc.
    + exists W_loop. apply goto_moves; try done; by rewrite Hpc.
  - (* W_begin *)
    exists W_pull. unfold bind, load_pool, store_pool in H.
    destruct (t_pool t) as [p|] eqn:Hp; [|done].
    destruct (pools st !! p) as [w|] eqn:Hw; [|done].
    eapply (bump_moves (λ w, set_working (wrap_int (number_of_working w + 1)) w));
      [done| |by rewrite Hp|by rewrite Hp| | | |exact H]; try done.
    + intros w0 ca cw Hca Hcw. rewrite Hpc. simpl.
      rewrite Hca, Hcw, ?wrap_int_add, ?wrap_int_sub. split; f_equal; lia.
    + simpl. by rewrite Hp.
  - (* W_pull *)
    apply (body_moves (on_queue (t_pool t) queue_pull) (λ r, W_call r));
      try done; try (by rewrite Hpc). sc_tac.
  - (* W_call *)
    destruct t0 as [a|].
    + apply (body_moves (tk <- load_task (Some a) ;;
                         emit (EvRun (function tk) (wc tk)) ;;; free_task (Some a))
               (λ _, W_end)); try done; try (by rewrite Hpc); [sc_tac|].
      revert H. unfold bind. destruct (load_task (Some a) st); try done.
    + exists W_end. apply goto_moves; try done; by rewrite Hpc.
  - (* W_end *)
    exists W_loop. unfold bind at 1, load_pool in H.
    destruct (t_pool t) as [p|] eqn:Hp; [|done].
    destruct (pools st !! p) as [w|] eqn:Hw; [|done].
    cbv zeta in H. unfold bind at 1, store_pool in H.
    apply bind_ok in H as ([] & st1 & H1 & H).
    assert (untouched (set_pools (<[p:=set_working (wrap_int (number_of_working w - 1)) w]>
                                    (pools st)) st) st1) as (P & T & B).
    { match type of H1 with
      | ?m _ = _ => assert (keeps untouched m) as Hk by untouched_tac
      end.
      by eapply Hk. }
    assert (brk st1 = brk st) as B'.
    { revert H1. destruct (wrap_int (number_of_working w - 1) =? 0).
      - unfold bind, the_addr, ret, emit. by intros [= <-].
      - unfold ret. by intros [= <-]. }
    eapply (bump_moves (λ w, set_working (wrap_int (number_of_working w - 1)) w));
      [done| |by rewrite Hp|by rewrite Hp| | | |exact H]; try done.
    + intros w0 ca cw Hca Hcw. rewrite Hpc. simpl.
      rewrite Hca, Hcw, ?wrap_int_add, ?wrap_int_sub. split; f_equal; lia.
    + simpl. by rewrite Hp.
  - (* W_exit *)
    exists W_done. unfold bind, load_pool, store_pool in H.
    destruct (t_pool t) as [p|] eqn:Hp; [|done].
    destruct (pools st !! p) as [w|] eqn:Hw; [|done].
    eapply (bump_moves (λ w, set_alive (wrap_int (number_of_alive w - 1)) w));
      [done| |by rewrite Hp|by rewrite Hp| | | |exact H]; try done.
    + intros w0 ca cw Hca Hcw. rewrite Hpc. simpl.
      rewrite Hca, Hcw, ?wrap_int_add, ?wrap_int_sub. split; f_equal; lia.
    + simpl. by rewrite Hp.
  - done.
Qed.

(** [counters_ok] is an invariant of the program. *)
Lemma counters_ok_same st st' :
  counters_ok st → same_counters st st' → counters_ok st'.
Proof.
  intros [Hc Hp Ht] (P & T & B). split.
  - intros p w' Hw'. destruct (P p w' Hw') as (w & Hw & Ha & Hb).
    rewrite T, Ha, Hb. by apply Hc.
  - intros p [w' Hw']. destruct (P p w' Hw') as (w & Hw & _).
    specialize (Hp p (mk_is_Some _ _ Hw)). lia.
  - intros t Hin. rewrite T in Hin. destruct (Ht t Hin) as (p & Hpool & Hlt).
    exists p. split; [done|lia].
Qed.

Lemma counters_ok_grows a st st' :
  counters_ok st → grows a st st' →
  (∀ t, t ∈ threads st → t_pool t ≠ Some a) → (a < brk st)%positive →
  counters_ok st'.
Proof.
  intros [Hc Hp Ht] (P & (new & T & Hnew) & B) Hfresh Ha.
  assert (∀ f p, f W_start = false →
            threads_at f p (threads st') = threads_at f p (threads st)) as Hsame.
  { intros f p Hf. rewrite T, threads_at_app, (threads_at_none f p new); [lia|].
    eapply Forall_impl; [exact Hnew|]. intros t [_ Hpc]. right. by rewrite Hpc. }
  split.
  - intros p w' Hw'. rewrite !Hsame by done.
    destruct (P p w' Hw') as [(w & Hw & Hx & Hy)|(-> & Hx & Hy)].
    + rewrite Hx, Hy. by apply Hc.
    + rewrite Hx, Hy, !threads_at_none; [done|..];
        apply Forall_forall; intros t Hin; left; by apply Hfresh.
  - intros p [w' Hw'].
    destruct (P p w' Hw') as [(w & Hw & _)|(-> & _)]; [|lia].
    specialize (Hp p (mk_is_Some _ _ Hw)). lia.
  - intros t Hin. rewrite T in Hin. apply elem_of_app in Hin as [Hin|Hin].
    + destruct (Ht t Hin) as (p & Hpool & Hlt). exists p. split; [done|lia].
    + rewrite Forall_forall in Hnew. destruct (Hnew t Hin) as [Hpool _].
      exists a. split; [done|lia].
Qed.

Lemma counters_ok_moves i t pc' st st' :
  counters_ok st → threads st !! i = Some t → worker_moves i t pc' st st' →
  counters_ok st'.
Proof.
  intros [Hc Hp Ht] Hi (T & B & P). split.
  - intros q w' Hw'. destruct (P q w' Hw') as (w & Hw & Hne & Heq).
    destruct (Hc q w Hw) as [Hx Hy].
    rewrite T, !(threads_at_insert _ q pc' _ i t Hi).
    destruct (decide (t_pool t = Some q)) as [Hq|Hq].
    + rewrite bool_decide_eq_true_2 by done. by apply Heq.
    + rewrite bool_decide_eq_false_2, !Z.add_0_r by done.
      destruct (Hne Hq) as [-> ->]. done.
  - intros q [w' Hw']. destruct (P q w' Hw') as (w & Hw & _).
    specialize (Hp q (mk_is_Some _ _ Hw)). lia.
  - intros x Hin. rewrite T in Hin.
    apply list_elem_of_lookup in Hin as [j Hj].
    destruct (decide (j = i)) as [->|Hne].
    + rewrite list_lookup_insert_eq in Hj by (by eapply lookup_lt_Some).
      injection Hj as <-. simpl.
      destruct (Ht t) as (p & Hpool & Hlt); [by eapply list_elem_of_lookup_2|].
      exists p. split; [done|lia].
    + rewrite list_lookup_insert_ne in Hj by done.
      destruct (Ht x) as (p & Hpool & Hlt); [by eapply list_elem_of_lookup_2|].
      exists p. split; [done|lia].
Qed.

Lemma counters_ok_exec l st st' :
  counters_ok st → exec l st = Some st' → counters_ok st'.
Proof.
  intros Hok Hexec. apply exec_step in Hexec.
  destruct l as [i|p f arg|num|num w|p|p total|p total];
    try (eapply counters_ok_same; [exact Hok|];
         eapply step_same_counters; [exact Hexec|done..]).
  - simpl in Hexec. destruct (threads st !! i) as [t|] eqn:Ht; [|done].
    destruct (worker_step_moves i t st st' Ht Hexec) as [pc' Hm].
    by eapply counters_ok_moves.
  - simpl in Hexec. apply bind_ok in Hexec as (r & st1 & Hsetup & Hrest).
    assert (untouched st1 st') as Hu.
    { revert Hrest. destruct r; [apply untouched_emit|apply untouched_add_pending]. }
    eapply counters_ok_same; [|apply untouched_same_counters, Hu].
    destruct (initialize_setup_grows _ _ _ _ Hsetup) as [Hs|(st0 & Hu0 & Hlt & Hg)].
    + by eapply counters_ok_same.
    + eapply (counters_ok_grows (brk st) st0);
        [eapply counters_ok_same; [exact Hok|by apply untouched_same_counters]
        |exact Hg| |exact Hlt].
      destruct Hu0 as (_ & T & _). rewrite T. intros t Hin.
      destruct (co_threads _ Hok t Hin) as (p & Hpool & Hp). rewrite Hpool.
      intros [= ->]. lia.
Qed.

Lemma counters_ok_run ls : ∀ st st',
  counters_ok st → run ls st = Some st' → counters_ok st'.
Proof.
  induction ls as [|l ls IH]; simpl; intros st st' Hok Hrun.
  - by injection Hrun as <-.
  - destruct (exec l st) as [st1|] eqn:Hexec; [|done].
    eapply IH; [|exact Hrun]. by eapply counters_ok_exec.
Qed.

Lemma reachable_started st : reachable st → started st.
Proof. intros [ls Hrun]. exists [], ls. exact Hrun. Qed.

Lemma counters_ok_started st : started st → counters_ok st.
Proof.
  intros (o & ls & Hrun). eapply counters_ok_run; [|exact Hrun].
  split.
  - intros p w Hw. unfold image, world0 in Hw. simpl in Hw.
    by rewrite lookup_empty in Hw.
  - intros p [w Hw]. unfold image, world0 in Hw. simpl in Hw.
    by rewrite lookup_empty in Hw.
  - intros t Hin. by apply elem_of_nil in Hin.
Qed.

(** X14.  In every state the program can reach, whatever the interleaving
    of workers and callers and whichever calls of [malloc] fail, the field
    [number_of_alive] of a pool is the number of its threads that have
    passed line 317 and not yet line 350, and [number_of_working] is the
    number of its threads between line 327 and line 340, both as [int]s. *)
Theorem counters_count_threads st p w
    (Hreach : started st)
    (Hpool : pools st !! p = Some w) :
  number_of_alive w = wrap_int (threads_at counts_alive p (threads st)) ∧
  number_of_working w = wrap_int (threads_at counts_working p (threads st)).
Proof. by apply (co_counts _ (counters_ok_started st Hreach)). Qed.

Lemma counters_count_threads_witness :
  number_of_alive (Workers 1 1 true
                     (Queue 1 (Some 6%positive) (Some 6%positive) (Some 2%positive))
                     [Some 4%positive])
  = wrap_int (threads_at counts_alive pool1 (threads (after first_task_run))) ∧
  number_of_working (Workers 1 1 true
                       (Queue 1 (Some 6%positive) (Some 6%positive) (Some 2%positive))
                       [Some 4%positive])
  = wrap_int (threads_at counts_working pool1 (threads (after first_task_run))).
Proof.
  refine (counters_count_threads (after first_task_run) pool1 _ _ _).
  - exists [], first_task_run. vm_compute. reflexivity.
  - vm_compute. reflexivity.
Defined.

Lemma wrap_int_zero c : 0 ≤ c ≤ INT_MAX → wrap_int c = 0 → c = 0.
Proof.
  intros Hc. rewrite wrap_int_id; [done|]. unfold in_int, INT_MIN, INT_MAX in *. lia.
Qed.

(** X15.  The loop condition of [pgmoneta_workers_wait] (line 159) is
    false, so that a waiting caller returns, exactly when the queue of the
    pool counts no task and none of the pool's threads is between counting
    itself working (line 327) and having finished its task (line 340).
    The number of threads is assumed to fit an [int]. *)
Theorem wait_ends_when_pool_is_idle st p w
    (Hreach : started st)
    (Hpool : pools st !! p = Some w)
    (Hfew : Z.of_nat (length (threads st)) ≤ INT_MAX) :
  workers_wait_condition p st = false ↔
  number_of_tasks (wqueue w) = 0 ∧
  ∀ t, t ∈ threads st → t_pool t = Some p → counts_working (t_pc t) = false.
Proof.
  destruct (co_counts _ (counters_ok_started st Hreach) p w Hpool) as [_ Hw].
  pose proof (threads_at_bounds counts_working p (threads st)) as Hb.
  unfold workers_wait_condition. rewrite Hpool. split.
  - intros Hc. apply orb_false_elim in Hc as [Hq Hn].
    apply negb_false_iff, Z.eqb_eq in Hq. apply negb_false_iff, Z.eqb_eq in Hn.
    split; [done|]. intros t Hin Hp.
    eapply threads_at_zero; [|exact Hin|exact Hp].
    apply wrap_int_zero; [lia|congruence].
  - intros [Hq Hidle]. rewrite Hq, Hw, threads_at_none; [done|].
    apply Forall_forall. intros t Hin.
    destruct (decide (t_pool t = Some p)) as [Hp|Hp]; [right; by apply Hidle|by left].
Qed.

Lemma wait_ends_when_pool_is_idle_witness :
  workers_wait_condition pool1 (after two_pools) = false ↔
  number_of_tasks (wqueue (Workers 1 0 true (Queue 0 None None (Some 2%positive))
                             [Some 4%positive])) = 0 ∧
  ∀ t, t ∈ threads (after two_pools) → t_pool t = Some pool1 →
       counts_working (t_pc t) = false.
Proof.
  refine (wait_ends_when_pool_is_idle (after two_pools) pool1 _ _ _ _).
  - exists [], two_pools. vm_compute. reflexivity.
  - vm_compute. reflexivity.
  - vm_compute. discriminate.
Defined.

(** X16.  In every state the program can reach with at most [INT_MAX]
    threads, the counters of a pool are ordered: 0 <= working <= alive <=
    the number of threads ever started, so neither counter has wrapped
    around. *)
Theorem working_le_alive st p w
    (Hreach : started st)
    (Hpool : pools st !! p = Some w)
    (Hfew : Z.of_nat (length (threads st)) ≤ INT_MAX) :
  0 ≤ number_of_working w ≤ number_of_alive w ∧
  number_of_alive w ≤ Z.of_nat (length (threads st)).
Proof.
  destruct (co_counts _ (counters_ok_started st Hreach) p w Hpool) as [Ha Hw].
  pose proof (threads_at_bounds counts_working p (threads st)) as Hbw.
  pose proof (threads_at_bounds counts_alive p (threads st)) as Hba.
  assert (threads_at counts_working p (threads st)
          ≤ threads_at counts_alive p (threads st)) as Hle.
  { apply threads_at_le. by intros []. }
  rewrite wrap_int_id in Ha, Hw by (unfold in_int, INT_MIN, INT_MAX in *; lia).
  lia.
Qed.

Lemma working_le_alive_witness :
  0 ≤ number_of_working (Workers 1 1 true
                           (Queue 1 (Some 6%positive) (Some 6%positive) (Some 2%positive))
                           [Some 4%positive])
    ≤ number_of_alive (Workers 1 1 true
                         (Queue 1 (Some 6%positive) (Some 6%positive) (Some 2%positive))
                         [Some 4%positive]) ∧
  number_of_alive (Workers 1 1 true
                     (Queue 1 (Some 6%positive) (Some 6%positive) (Some 2%positive))
                     [Some 4%positive])
    ≤ Z.of_nat (length (threads (after first_task_run))).
Proof.
  refine (working_le_alive (after first_task_run) pool1 _ _ _ _).
  - exists [], first_task_run. vm_compute. reflexivity.
  - vm_compute. reflexivity.
  - vm_compute. discriminate.
Defined.

(** ** Wake-ups are not lost *)

Lemma touches_refl s st : touches s st st.
Proof. unfold touches. repeat split; try done. Qed.

Lemma touches_trans s a b c : touches s a b → touches s b c → touches s a c.
Proof.
  intros (S1 & P1 & T1 & K1 & B1) (S2 & P2 & T2 & K2 & B2).
  split; [|split; [congruence|split; [congruence|split; [congruence|lia]]]].
  intros s' Hs'. rewrite S2, S1; done.
Qed.

Lemma touches_bind s {A B} (m : M A) (k : A → M B) :
  keeps (touches s) m → (∀ a, keeps (touches s) (k a)) → keeps (touches s) (bind m k).
Proof. apply keeps_bind. exact (touches_trans s). Qed.

Lemma touches_ret s {A} (a : A) : keeps (touches s) (ret a).
Proof. apply keeps_ret. exact (touches_refl s). Qed.

(** Closes [keeps (touches s) m] for a primitive [m] that writes no
    semaphore. *)
Ltac touches_prim :=
  let st := fresh "st" in let a := fresh "a" in
  let st' := fresh "st'" in let H := fresh "H" in
  intros st a st' H;
  repeat match type of H with
         | context [match ?x with _ => _ end] => destruct x eqn:?; try discriminate
         end;
  injection H as <- <-;
  (split; [reflexivity|split; [reflexivity|split; [reflexivity|split;
     [reflexivity|simpl; lia]]]]).

Lemma touches_malloc s : keeps (touches s) malloc.
Proof. unfold malloc. touches_prim. Qed.
Lemma touches_load_task s p : keeps (touches s) (load_task p).
Proof. unfold load_task. touches_prim. Qed.
Lemma touches_store_task s p t : keeps (touches s) (store_task p t).
Proof. unfold store_task. touches_prim. Qed.
Lemma touches_free_task s p : keeps (touches s) (free_task p).
Proof. unfold free_task. touches_prim. Qed.
Lemma touches_load_sem s p : keeps (touches s) (load_sem p).
Proof. unfold load_sem. touches_prim. Qed.
Lemma touches_load_pool s p : keeps (touches s) (load_pool p).
Proof. unfold load_pool. touches_prim. Qed.
Lemma touches_the_addr s p : keeps (touches s) (the_addr p).
Proof. unfold the_addr, ret, fault. touches_prim. Qed.
Lemma touches_emit s e : keeps (touches s) (emit e).
Proof. unfold emit. touches_prim. Qed.
Lemma touches_log s : keeps (touches s) pgmoneta_log_error.
Proof. apply touches_emit. Qed.

Lemma touches_store_sem s x : keeps (touches s) (store_sem s x).
Proof.
  intros st a st' H. unfold store_sem in H. destruct s as [s|]; [|done].
  injection H as <- <-.
  split; [|split; [done|split; [done|split; [done|simpl; lia]]]].
  simpl. intros s' Hs'. apply lookup_insert_ne. congruence.
Qed.

Create HintDb touches discriminated.
#[global] Hint Resolve touches_malloc touches_load_task touches_store_task
  touches_free_task touches_load_sem touches_load_pool touches_the_addr
  touches_emit touches_log touches_store_sem : touches.

Ltac touches_tac :=
  repeat first
    [ apply touches_ret
    | apply keeps_fault
    | apply touches_bind; [|intros ?]
    | match goal with
      | |- keeps _ (match ?x with _ => _ end) => destruct x
      | |- keeps _ (if ?x then _ else _) => destruct x
      | |- keeps _ (let _ := _ in _) => cbv zeta
      end
    | solve [eauto with touches] ].

Lemma touches_semaphore_post s : keeps (touches s) (semaphore_post s).
Proof. unfold semaphore_post. touches_tac. Qed.
Lemma touches_semaphore_wait s : keeps (touches s) (semaphore_wait s).
Proof. unfold semaphore_wait. touches_tac. Qed.
#[global] Hint Resolve touches_semaphore_post touches_semaphore_wait : touches.

(** A post arms the semaphore. *)
Lemma semaphore_post_arms s st st' :
  semaphore_post s st = Ok tt st' →
  ∃ a, s = Some a ∧ sems st' !! a = Some (Semaphore 1).
Proof.
  unfold semaphore_post, bind, load_sem, store_sem, the_addr, ret, emit.
  destruct s as [a|]; [|done]. destruct (sems st !! a); [|done].
  intros [= <-]. exists a. split; [done|]. simpl. apply lookup_insert_eq.
Qed.

Lemma semaphore_post_sems s st st' :
  semaphore_post s st = Ok tt st' →
  ∃ a, s = Some a ∧ sems st' = <[a := Semaphore 1]> (sems st).
Proof.
  unfold semaphore_post, bind, load_sem, store_sem, the_addr, ret, emit.
  destruct s as [a|]; [|done]. destruct (sems st !! a); [|done].
  intros [= <-]. exists a. done.
Qed.

Lemma queue_push_arms q t st q' st' :
  queue_push q t st = Ok q' st' →
  touches (has_tasks q) st st' ∧
  has_tasks q' = has_tasks q ∧
  ∃ s, has_tasks q = Some s ∧ sems st' !! s = Some (Semaphore 1).
Proof.
  unfold queue_push. intros H.
  apply bind_ok in H as (tk & st1 & H01 & H).
  apply bind_ok in H as ([] & st2 & H12 & H).
  apply bind_ok in H as (q1 & st3 & H1 & H).
  apply (touches_load_task (has_tasks q)) in H01.
  apply (touches_store_task (has_tasks q)) in H12.
  assert (has_tasks q1 = has_tasks q ∧ touches (has_tasks q) st2 st3) as [Hq1 H23].
  { destruct (number_of_tasks q =? 0).
    - injection H1 as <- <-. split; [done|apply touches_refl].
    - apply bind_ok in H1 as (r & st4 & Ha & H1).
      apply bind_ok in H1 as ([] & st5 & Hb & H1). injection H1 as <- <-.
      split; [done|].
      apply (touches_load_task (has_tasks q)) in Ha.
      apply (touches_store_task (has_tasks q)) in Hb.
      by eapply touches_trans. }
  cbv zeta in H. apply bind_ok in H as ([] & st6 & Hpost & H).
  injection H as <- <-. simpl in *. rewrite Hq1 in Hpost.
  split; [|split; [done|]].
  - apply (touches_semaphore_post (has_tasks q)) in Hpost.
    eapply touches_trans; [exact H01|]. eapply touches_trans; [exact H12|].
    by eapply touches_trans.
  - apply semaphore_post_arms in Hpost as (a & Ha & Harmed).
    exists a. done.
Qed.

Lemma queue_pull_arms q st r q' st' :
  queue_pull q st = Ok (r, q') st' →
  touches (has_tasks q) st st' ∧
  has_tasks q' = has_tasks q ∧
  ((sems st' = sems st ∧ number_of_tasks q' = 0) ∨
   ∃ s, has_tasks q = Some s ∧ sems st' !! s = Some (Semaphore 1)).
Proof.
  unfold queue_pull. cbv zeta. intros H.
  destruct (number_of_tasks q =? 0) eqn:H0.
  { injection H as _ <- <-. split; [apply touches_refl|]. split; [done|]. left.
    split; [done|]. by apply Z.eqb_eq. }
  destruct (number_of_tasks q =? 1).
  { injection H as _ <- <-. split; [apply touches_refl|]. split; [done|]. by left. }
  apply bind_ok in H as (tk & st1 & H01 & H).
  apply bind_ok in H as ([] & st2 & Hpost & H).
  injection H as _ <- <-. simpl in *.
  apply (touches_load_task (has_tasks q)) in H01.
  split; [|split; [done|right]].
  - apply (touches_semaphore_post (has_tasks q)) in Hpost.
    by eapply touches_trans.
  - apply semaphore_post_arms in Hpost as (a & Ha & Harmed). exists a. done.
Qed.

(** [on_queue], explicitly, for a queue function that leaves the pools
    alone. *)
Lemma on_queue_inv {A} p (f : queue → M (A * queue)) st x st' :
  (∀ q s r s', f q s = Ok r s' → pools s' = pools s) →
  on_queue p f st = Ok x st' →
  ∃ a w r st1,
    p = Some a ∧ pools st !! a = Some w ∧
    f (wqueue w) st = Ok r st1 ∧ x = r.1 ∧
    st' = set_pools (<[a := set_queue r.2 w]> (pools st)) st1.
Proof.
  intros Hf H. unfold on_queue in H.
  apply bind_ok in H as (w & st0 & H0 & H).
  unfold load_pool in H0. destruct p as [a|]; [|done].
  destruct (pools st !! a) as [w0|] eqn:Hw; [|done]. injection H0 as <- <-.
  apply bind_ok in H as (r & st1 & H1 & H).
  pose proof (Hf _ _ _ _ H1) as P.
  unfold bind, load_pool, store_pool, ret in H. rewrite P, Hw in H.
  injection H as <- <-. exists a, w0, r, st1.
  repeat (split; [done|]). by rewrite ?P.
Qed.

Lemma same_queues_refl st : same_queues st st.
Proof.
  split; [done|]. split; [done|]. split; [done|]. split; [lia|].
  split; [|eauto]. exists []. by rewrite app_nil_r.
Qed.

Lemma same_queues_trans a b c : same_queues a b → same_queues b c → same_queues a c.
Proof.
  intros (H1 & S1 & K1 & B1 & (n1 & T1) & P1 & E1)
         (H2 & S2 & K2 & B2 & (n2 & T2) & P2 & E2).
  split; [congruence|]. split; [congruence|]. split; [congruence|].
  split; [lia|]. split; [|split].
  - exists (n1 ++ n2). by rewrite T2, T1, app_assoc.
  - intros p w'' Hw''. destruct (P2 p w'' Hw'') as (w' & Hw' & Hq').
    destruct (P1 p w' Hw') as (w & Hw & Hq). exists w. split; [done|congruence].
  - intros p Hp. by apply E2, E1.
Qed.

Lemma same_queues_bind {A B} (m : M A) (k : A → M B) :
  keeps same_queues m → (∀ a, keeps same_queues (k a)) → keeps same_queues (bind m k).
Proof. apply keeps_bind. exact same_queues_trans. Qed.

Lemma same_queues_ret {A} (a : A) : keeps same_queues (ret a).
Proof. apply keeps_ret. exact same_queues_refl. Qed.

Lemma same_queues_heaps st st' :
  tasks st' = tasks st →
  sems st' = sems st → worker_keepalive st' = worker_keepalive st →
  (brk st ≤ brk st')%positive → threads st' = threads st → pools st' = pools st →
  same_queues st st'.
Proof.
  intros H S K B T P. split; [done|]. split; [done|]. split; [done|].
  split; [done|]. split; [|split].
  - exists []. by rewrite app_nil_r.
  - intros p w' Hw'. rewrite P in Hw'. eauto.
  - intros p. by rewrite P.
Qed.

Ltac same_queues_prim :=
  let st := fresh "st" in let a := fresh "a" in
  let st' := fresh "st'" in let H := fresh "H" in
  intros st a st' H;
  repeat match type of H with
         | context [match ?x with _ => _ end] => destruct x eqn:?; try discriminate
         end;
  injection H as <- <-;
  apply same_queues_heaps; try reflexivity; simpl; lia.

Lemma same_queues_malloc : keeps same_queues malloc.
Proof. unfold malloc. same_queues_prim. Qed.
Lemma same_queues_load_pool p : keeps same_queues (load_pool p).
Proof. unfold load_pool. same_queues_prim. Qed.
Lemma same_queues_store_wrec p w : keeps same_queues (store_wrec p w).
Proof. unfold store_wrec. same_queues_prim. Qed.
Lemma same_queues_add_pending c : keeps same_queues (add_pending c).
Proof. unfold add_pending. same_queues_prim. Qed.
Lemma same_queues_drop_pending c : keeps same_queues (drop_pending c).
Proof. unfold drop_pending. same_queues_prim. Qed.
Lemma same_queues_emit e : keeps same_queues (emit e).
Proof. unfold emit. same_queues_prim. Qed.
Lemma same_queues_log : keeps same_queues pgmoneta_log_error.
Proof. apply same_queues_emit. Qed.

Lemma same_queues_pthread_create w : keeps same_queues (pthread_create w).
Proof.
  intros st a st' H. unfold pthread_create in H.
  destruct (wrecs st !! w); [|done]. injection H as <- <-.
  split; [done|]. split; [done|]. split; [done|]. split; [simpl; lia|].
  split; [by eexists|]. split; eauto.
Qed.

Lemma same_queues_update p (g : workers → workers) :
  (∀ w, wqueue (g w) = wqueue w) →
  keeps same_queues (w <- load_pool p ;; store_pool p (g w)).
Proof.
  intros Hg st a st' H. unfold bind, load_pool, store_pool in H.
  destruct p as [p|]; [|done]. destruct (pools st !! p) as [w|] eqn:Hw; [|done].
  injection H as <- <-.
  split; [done|]. split; [done|]. split; [done|]. split; [simpl; lia|].
  split; [|split].
  - exists []. by rewrite app_nil_r.
  - simpl. intros r w' Hw'. destruct (decide (r = p)) as [->|Hne].
    + rewrite lookup_insert_eq in Hw'. injection Hw' as <-. exists w. eauto.
    + rewrite lookup_insert_ne in Hw' by done. eauto.
  - simpl. intros r Hr. destruct (decide (r = p)) as [->|Hne].
    + rewrite lookup_insert_eq. eauto.
    + by rewrite lookup_insert_ne.
Qed.

Create HintDb same_queues discriminated.
#[global] Hint Resolve same_queues_malloc same_queues_load_pool same_queues_store_wrec
  same_queues_add_pending same_queues_drop_pending same_queues_emit same_queues_log
  same_queues_pthread_create : same_queues.

Ltac same_queues_tac :=
  repeat first
    [ apply same_queues_ret
    | apply keeps_fault
    | apply same_queues_bind; [|intros ?]
    | match goal with
      | |- keeps _ (match ?x with _ => _ end) => destruct x
      | |- keeps _ (if ?x then _ else _) => destruct x
      | |- keeps _ (let _ := _ in _) => cbv zeta
      end
    | solve [eauto with same_queues] ].

Lemma same_queues_worker_init p : keeps same_queues (worker_init p).
Proof. unfold worker_init. same_queues_tac. Qed.

Lemma same_queues_spawn_workers n p : keeps same_queues (spawn_workers n p).
Proof.
  induction n as [|n IH]; simpl; [apply same_queues_ret|].
  apply same_queues_bind; [apply same_queues_worker_init|]. intros r.
  intros st x st' H.
  assert (keeps same_queues
            (w <- load_pool p ;;
             store_pool p (set_worker_array (worker_array w ++ [r.2]) w))) as Hk.
  { apply same_queues_update. by intros []. }
  unfold bind in H, Hk.
  destruct (load_pool p st) as [w0 st0| |] eqn:E0; try done.
  destruct (store_pool p (set_worker_array (worker_array w0 ++ [r.2]) w0) st0)
    as [[] st1| |] eqn:E1; try done.
  apply (same_queues_trans _ st1).
  - apply (Hk st tt st1). by rewrite E0, E1.
  - by eapply IH.
Qed.

(** [queue_init], explicitly. *)
Lemma queue_init_inv st rq st' :
  queue_init st = Ok rq st' →
  tasks st' = tasks st ∧ pools st' = pools st ∧ threads st' = threads st ∧
  worker_keepalive st' = worker_keepalive st ∧
  ((rq.1 ≠ 0 ∧ rq.2 = Queue 0 None None None) ∨
   (rq.1 = 0 ∧ rq.2 = Queue 0 None None (Some (brk st)) ∧
    brk st' = Pos.succ (brk st) ∧
    sems st' = <[brk st := Semaphore 0]> (sems st))).
Proof.
  unfold queue_init, bind, malloc.
  destruct (oom st) as [|[] o]; simpl; unfold ret; intros [= <- <-]; simpl;
    repeat (split; [done|]); [right|left|right]; done.
Qed.

(** The error path of [pgmoneta_workers_initialize] on the pool just
    created. *)
Lemma initialize_error_inv a w s st r st' :
  pools st !! a = Some w → wqueue w = Queue 0 None None (Some s) →
  initialize_error (Some a) st = Ok r st' →
  pools st' = delete a (pools st) ∧
  (∀ s', s' ≠ s → sems st' !! s' = sems st !! s') ∧
  threads st' = threads st ∧ worker_keepalive st' = worker_keepalive st ∧
  brk st' = brk st.
Proof.
  intros Hw Hq. unfold initialize_error, bind at 1, load_pool. rewrite Hw, Hq.
  unfold queue_destroy, queue_clear, bind. simpl.
  unfold semaphore_reset, bind, load_sem.
  destruct (sems st !! s) as [sm|] eqn:Hs; [|done].
  rewrite semaphore_init_ok. unfold free_sem, ret. simpl.
  rewrite lookup_insert_eq. unfold free_pool. simpl. rewrite Hw.
  intros [= _ <-]. simpl. repeat (split; [done|]). split; [|done].
  intros s' Hs'. rewrite lookup_delete_ne, lookup_insert_ne by done. done.
Qed.

(** The set-up of [pgmoneta_workers_initialize] after the pool has
    received its address [a]. *)
Lemma initialize_rest_wakes num a st r st' :
  (rq <- queue_init ;;
   store_pool (Some a) (Workers 0 0 true (snd rq) []) ;;;
   if negb (fst rq =? 0) then pgmoneta_log_error ;;; initialize_error (Some a)
   else
     arr <- malloc ;;
     match arr with
     | None => pgmoneta_log_error ;;; initialize_error (Some a)
     | Some _ => spawn_workers (Z.to_nat num) (Some a) ;;; ret (InitWaiting a)
     end) st = Ok r st' →
  tasks st' = tasks st ∧
  worker_keepalive st' = worker_keepalive st ∧
  (brk st ≤ brk st')%positive ∧
  (∀ s, (s < brk st)%positive → sems st' !! s = sems st !! s) ∧
  (∀ p w', p ≠ a → pools st' !! p = Some w' →
     ∃ w, pools st !! p = Some w ∧ wqueue w' = wqueue w) ∧
  (∀ p, p ≠ a → is_Some (pools st !! p) → is_Some (pools st' !! p)) ∧
  match r with
  | InitFailed => threads st' = threads st ∧ pools st' !! a = None
  | InitWaiting a' =>
      a' = a ∧ (∃ new, threads st' = threads st ++ new) ∧
      ∃ w' s, pools st' !! a = Some w' ∧
              wqueue w' = Queue 0 None None (Some s) ∧
              (brk st ≤ s < brk st')%positive ∧ is_Some (sems st' !! s)
  end.
Proof.
  intros H. apply bind_ok in H as (rq & st1 & Hinit & H).
  apply queue_init_inv in Hinit as (H1 & P1 & T1 & K1 & Hq).
  apply bind_ok in H as ([] & st2 & Hstore & H).
  unfold store_pool in Hstore. injection Hstore as <-.
  destruct Hq as [[Hrc Hq]|(Hrc & Hq & B1 & S1)].
  { (* no semaphore: the error path dereferences NULL *)
    apply Z.eqb_neq in Hrc. rewrite Hrc, Hq in H. simpl in H.
    apply bind_ok in H as ([] & st3 & Hlog & H).
    unfold pgmoneta_log_error, emit in Hlog. injection Hlog as <-.
    unfold initialize_error, bind at 1, load_pool in H. simpl in H.
    rewrite lookup_insert_eq in H. unfold bind at 1 in H. simpl in H.
    done. }
  rewrite Hrc, Hq in H. simpl in H.
  apply bind_ok in H as (arr & st3 & Hm & H).
  assert (tasks st3 = tasks st) as H3.
  { unfold malloc in Hm. simpl in Hm.
    destruct (oom st1) as [|[] o]; by injection Hm as _ <-. }
  apply (touches_malloc None) in Hm as (S3 & P3 & T3 & K3 & B3). simpl in *.
  assert (∀ s, (s < brk st)%positive → sems st3 !! s = sems st !! s) as S3'.
  { intros s Hs. rewrite S3, S1 by done. apply lookup_insert_ne. lia. }
  destruct arr as [b|].
  - (* the threads are started *)
    apply bind_ok in H as ([] & st4 & Hspawn & H). injection H as <- <-.
    apply same_queues_spawn_workers in Hspawn
      as (H4 & S4 & K4 & B4 & (n4 & T4) & P4 & E4).
    split; [congruence|]. split; [congruence|]. split; [lia|].
    split; [intros s Hs; rewrite S4; by apply S3'|].
    split; [|split; [|split; [done|split; [exists n4; congruence|]]]].
    + intros p w' Hne Hw'. destruct (P4 p w' Hw') as (w & Hw & Hqw).
      rewrite P3, lookup_insert_ne, P1 in Hw by done. eauto.
    + intros p Hne Hp. apply E4. by rewrite P3, lookup_insert_ne, P1.
    + destruct (E4 a) as [w' Hw']; [rewrite P3, lookup_insert_eq; eauto|].
      destruct (P4 a w' Hw') as (w & Hw & Hqw).
      rewrite P3, lookup_insert_eq in Hw. injection Hw as <-.
      exists w', (brk st). split; [done|]. split; [done|]. split; [lia|].
      rewrite S4, S3, S1 by done. rewrite lookup_insert_eq. eauto.
  - (* the array of worker records cannot be allocated *)
    apply bind_ok in H as ([] & st4 & Hlog & H).
    assert (tasks st4 = tasks st) as H4.
    { unfold pgmoneta_log_error, emit in Hlog. by injection Hlog as <-. }
    apply (touches_log None) in Hlog as (S4 & P4 & T4 & K4 & B4).
    assert (tasks st' = tasks st4 ∧ r = InitFailed) as [H5 ->].
    { revert H. unfold initialize_error, bind at 1, load_pool.
      rewrite P4, P3, lookup_insert_eq. simpl.
      unfold queue_destroy, queue_clear, bind. simpl.
      unfold semaphore_reset, bind, load_sem.
      destruct (sems st4 !! brk st); [|done].
      rewrite semaphore_init_ok. unfold free_sem, ret. simpl.
      rewrite lookup_insert_eq. unfold free_pool. simpl.
      rewrite P4, P3, lookup_insert_eq. by intros [= <- <-]. }
    eapply (initialize_error_inv a _ (brk st)) in H as (P5 & S5 & T5 & K5 & B5);
      [|rewrite P4, P3; apply lookup_insert_eq|done].
    split; [congruence|]. split; [congruence|]. split; [lia|].
    split; [|split; [|split; [|split; [congruence|]]]].
    + intros s Hs. rewrite S5, S4 by (done || lia). by apply S3'.
    + intros p w' Hne Hw'. rewrite P5, P4, P3 in Hw'.
      rewrite lookup_delete_ne, lookup_insert_ne, P1 in Hw' by done. eauto.
    + intros p Hne Hp.
      by rewrite P5, P4, P3, lookup_delete_ne, lookup_insert_ne, P1.
    + rewrite P5. apply lookup_delete_eq.
Qed.

(** The whole set-up. *)
Lemma initialize_setup_wakes num st r st' :
  workers_initialize_setup num st = Ok r st' →
  worker_keepalive st' = 1 ∧
  tasks st' = tasks st ∧
  (brk st ≤ brk st')%positive ∧
  (∀ s, (s < brk st)%positive → sems st' !! s = sems st !! s) ∧
  (∀ p w', p ≠ brk st → pools st' !! p = Some w' →
     ∃ w, pools st !! p = Some w ∧ wqueue w' = wqueue w) ∧
  (∀ p, p ≠ brk st → is_Some (pools st !! p) → is_Some (pools st' !! p)) ∧
  match r with
  | InitFailed =>
      threads st' = threads st ∧
      (pools st' !! brk st = None ∨ pools st' = pools st)
  | InitWaiting a =>
      a = brk st ∧ (∃ new, threads st' = threads st ++ new) ∧
      ∃ w' s, pools st' !! a = Some w' ∧
              wqueue w' = Queue 0 None None (Some s) ∧
              (brk st ≤ s < brk st')%positive ∧ is_Some (sems st' !! s)
  end.
Proof.
  unfold workers_initialize_setup. intros H.
  apply bind_ok in H as ([] & st0 & H0 & H). injection H0 as <-.
  destruct (num <? 1).
  { injection H as <- <-. simpl. split; [done|]. split; [done|]. split; [lia|].
    split; [done|]. split; [eauto|]. split; [done|]. split; [done|]. by right. }
  apply bind_ok in H as (w & st1 & Hm & H).
  assert (tasks st1 = tasks st) as H1.
  { unfold malloc in Hm. simpl in Hm.
    destruct (oom st) as [|[] o]; by injection Hm as _ <-. }
  assert (touches None (set_keepalive 1 st) st1) as (S1 & P1 & T1 & K1 & B1).
  { by eapply touches_malloc. }
  simpl in *.
  destruct w as [a|].
  - assert (a = brk st ∧ brk st1 = Pos.succ (brk st)) as [-> B1'].
    { unfold malloc in Hm. simpl in Hm.
      destruct (oom st) as [|[] o]; try discriminate;
        injection Hm as <- <-; done. }
    apply initialize_rest_wakes in H as (H2 & K & B & S & P & E & Hr).
    split; [congruence|]. split; [congruence|]. split; [lia|].
    split; [|split; [|split]].
    + intros s Hs. rewrite S, S1 by (done || lia). done.
    + intros p w' Hne Hw'. rewrite P1 in P. by apply P.
    + intros p Hne Hp. apply E; [done|]. by rewrite P1.
    + destruct r as [|a'].
      * destruct Hr as [T Hnone]. split; [congruence|by left].
      * destruct Hr as (-> & (new & T) & w' & s & Hw' & Hq & Hlt & Hs).
        split; [done|]. split; [exists new; congruence|].
        exists w', s. split; [done|]. split; [done|]. split; [lia|done].
  - apply bind_ok in H as ([] & st2 & Hlog & H). injection H as <- <-.
    assert (tasks st2 = tasks st1) as H2.
    { unfold pgmoneta_log_error, emit in Hlog. by injection Hlog as <-. }
    apply (touches_log None) in Hlog as (S2 & P2 & T2 & K2 & B2).
    split; [congruence|]. split; [congruence|]. split; [lia|].
    split; [|split; [|split; [|split; [congruence|]]]].
    + intros s Hs. rewrite S2, S1 by done. done.
    + intros p w' _ Hw'. rewrite P2, P1 in Hw'. eauto.
    + intros p _ Hp. by rewrite P2, P1.
    + right. congruence.
Qed.

(** [pgmoneta_workers_add]: either nothing is queued, or the semaphore of
    the pool is armed. *)
Lemma workers_add_wakes p f arg st rc st' :
  pgmoneta_workers_add p f arg st = Ok rc st' →
  threads st' = threads st ∧ worker_keepalive st' = worker_keepalive st ∧
  (brk st ≤ brk st')%positive ∧
  ((pools st' = pools st ∧ sems st' = sems st) ∨
   ∃ a w q' s,
     pools st !! a = Some w ∧
     pools st' = <[a := set_queue q' w]> (pools st) ∧
     has_tasks (wqueue w) = Some s ∧ has_tasks q' = Some s ∧
     sems st' !! s = Some (Semaphore 1) ∧
     ∀ s', s' ≠ s → sems st' !! s' = sems st !! s').
Proof.
  unfold pgmoneta_workers_add. intros H.
  destruct p as [a|]; [|injection H as _ <-; repeat (split; [done || lia|]); by left].
  apply bind_ok in H as (t & st1 & Hm & H).
  assert (sems st1 = sems st ∧ touches None st st1) as (S1' & S1 & P1 & T1 & K1 & B1).
  { split; [|by eapply touches_malloc]. unfold malloc in Hm.
    destruct (oom st) as [|[] o]; by injection Hm as <- <-. }
  destruct t as [b|].
  - apply bind_ok in H as ([] & st2 & Hst & H).
    unfold store_task in Hst. injection Hst as <-.
    apply bind_ok in H as ([] & st3 & Hon & H). injection H as _ <-.
    apply on_queue_inv in Hon as (a' & w & r & st4 & [= <-] & Hw & Hf & _ & ->).
    2:{ intros q s r s' Hq. apply bind_ok in Hq as (q' & s1 & Hq & Hr).
        injection Hr as _ <-. by apply queue_push_arms in Hq as ((_ & P & _) & _). }
    apply bind_ok in Hf as (q' & st5 & Hpush & Hr). injection Hr as <- <-.
    apply queue_push_arms in Hpush as ((S5 & P5 & T5 & K5 & B5) & Hh & s & Hs & Harmed).
    simpl in *. rewrite P1 in Hw.
    split; [congruence|]. split; [congruence|]. split; [lia|]. right.
    exists a, w, q', s. split; [done|]. split; [by rewrite P1|].
    split; [done|]. split; [congruence|]. split; [done|].
    intros s' Hs'. rewrite S5, S1' by (rewrite Hs; congruence). done.
  - apply bind_ok in H as ([] & st2 & Hlog & H). injection H as _ <-.
    unfold pgmoneta_log_error, emit in Hlog. injection Hlog as <-. simpl.
    split; [done|]. split; [done|]. split; [done|]. left. done.
Qed.

(** The steps of a thread, as [worker_wakes]. *)
Lemma wakes_after i t pc' st st1 st' :
  threads st !! i = Some t →
  t_pc t ≠ W_pull →
  (worker_keepalive st ≠ 0 → woken (t_pc t) = true → woken pc' = true) →
  sems st1 = sems st → threads st1 = threads st →
  worker_keepalive st1 = worker_keepalive st → (brk st ≤ brk st1)%positive →
  (∀ q w', pools st1 !! q = Some w' →
     ∃ w, pools st !! q = Some w ∧ wqueue w' = wqueue w) →
  goto i pc' st1 = Ok tt st' →
  worker_wakes i t pc' st st'.
Proof.
  intros Ht Hpc Hwoken S T K B P H. unfold goto in H. rewrite T, Ht in H.
  injection H as <-. unfold worker_wakes. simpl.
  split; [done|]. split; [done|]. split; [done|]. split; [|split; [by left|split]].
  - intros q w' Hw'. destruct (P q w' Hw') as (w & Hw & Hq). exists w.
    split; [done|]. split; [congruence|done].
  - done.
  - intros Hw _ Hk. by apply Hwoken.
Qed.

Lemma same_queue_insert p (g : workers → workers) w (h : gmap addr workers) :
  h !! p = Some w → wqueue (g w) = wqueue w →
  ∀ q w', <[p := g w]> h !! q = Some w' →
    ∃ w0, h !! q = Some w0 ∧ wqueue w' = wqueue w0.
Proof.
  intros Hw Hg q w' Hw'. destruct (decide (q = p)) as [->|Hne].
  - rewrite lookup_insert_eq in Hw'. injection Hw' as <-. eauto.
  - rewrite lookup_insert_ne in Hw' by done. eauto.
Qed.

Lemma worker_step_wakes i t st st' :
  threads st !! i = Some t → worker_step i t st = Ok tt st' →
  ∃ pc', worker_wakes i t pc' st st'.
Proof.
  intros Ht H. unfold worker_step in H.
  destruct (t_pc t) eqn:Hpc.
  - (* W_start *)
    exists W_loop. unfold bind, load_pool, store_pool in H.
    destruct (t_pool t) as [p|] eqn:Hp; [|done].
    destruct (pools st !! p) as [w|] eqn:Hw; [|done].
    eapply wakes_after; [done|by rewrite Hpc|by rewrite Hpc| | | | | |exact H];
      try done.
    simpl. by apply same_queue_insert.
  - (* W_loop *)
    unfold bind, read_keepalive in H.
    destruct (negb (worker_keepalive st =? 0));
      [exists W_wait|exists W_exit];
      (eapply wakes_after; [done|by rewrite Hpc|by rewrite Hpc| | | | | |exact H];
       try done; eauto).
  - (* W_wait *)
    exists W_recheck. unfold bind, load_pool in H.
    destruct (t_pool t) as [p|] eqn:Hp; [|done].
    destruct (pools st !! p) as [w|] eqn:Hw; [|done].
    unfold semaphore_wait, bind, load_sem, store_sem in H.
    destruct (has_tasks (wqueue w)) as [s|] eqn:Hs; [|done].
    destruct (sems st !! s) as [sm|] eqn:Hsm; [|done].
    unfold goto in H. simpl in H. rewrite Ht in H. injection H as <-.
    unfold worker_wakes. simpl. rewrite Hpc, Hp.
    split; [done|]. split; [done|]. split; [done|]. split; [|split; [|split]].
    + intros q w' Hw'. eauto.
    + right. exists p, w, s. repeat (split; [done|]). split; [|by right].
      intros s' Hs'. by apply lookup_insert_ne.
    + done.
    + done.
  - (* W_recheck *)
    unfold bind, read_keepalive in H.
    destruct (negb (worker_keepalive st =? 0)) eqn:Hk;
      [exists W_begin|exists W_loop];
      (eapply wakes_after; [done|by rewrite Hpc| | | | | | |exact H];
       try done; eauto).
    intros Hne. apply negb_false_iff, Z.eqb_eq in Hk. done.
  - (* W_begin *)
    exists W_pull. unfold bind, load_pool, store_pool in H.
    destruct (t_pool t) as [p|] eqn:Hp; [|done].
    destruct (pools st !! p) as [w|] eqn:Hw; [|done].
    eapply wakes_after; [done|by rewrite Hpc|by rewrite Hpc| | | | | |exact H];
      try done.
    simpl. by apply same_queue_insert.
  - (* W_pull *)
    apply bind_ok in H as (r & st1 & Hon & H).
    apply on_queue_inv in Hon as (a & w & rq & st2 & Hp & Hw & Hpull & -> & ->).
    2:{ intros q s [r' q'] s' Hq. by apply queue_pull_arms in Hq as ((_ & P & _) & _). }
    destruct rq as [r q']. simpl in *.
    apply queue_pull_arms in Hpull as ((S2 & P2 & T2 & K2 & B2) & Hh & Harm).
    exists (W_call r). unfold goto in H. simpl in H. rewrite T2, Ht in H.
    injection H as <-. unfold worker_wakes. simpl. rewrite Hpc, Hp.
    split; [done|]. split; [done|]. split; [done|]. split; [|split; [|split]].
    + intros q w' Hw'. destruct (decide (q = a)) as [->|Hne].
      * rewrite lookup_insert_eq in Hw'. injection Hw' as <-. exists w.
        split; [done|]. split; [done|]. intros Hn. destruct Hn. done.
      * rewrite lookup_insert_ne in Hw' by done. exists w'. done.
    + destruct Harm as [[S _]|(s & Hs & _)]; [by left|right].
      exists a, w, s. repeat (split; [done|]). split; [|by left].
      intros s' Hs'. apply S2. rewrite Hs. congruence.
    + intros _ p w' s [= <-]. rewrite lookup_insert_eq. intros [= <-]. simpl.
      intros Hs. destruct Harm as [[_ Hz]|(s0 & Hs0 & Harmed)]; [by left|right].
      congruence.
    + done.
  - (* W_call *)
    exists W_end. destruct t0 as [a|].
    + unfold bind, load_task, emit, free_task in H.
      destruct (tasks st !! a) as [ta|] eqn:Hta; [|done].
      simpl in H. rewrite Hta in H.
      eapply wakes_after; [done|by rewrite Hpc|by rewrite Hpc| | | | | |exact H];
        try done; eauto.
    + eapply wakes_after; [done|by rewrite Hpc|by rewrite Hpc| | | | | |exact H];
        try done; eauto.
  - (* W_end *)
    exists W_loop. unfold bind at 1, load_pool in H.
    destruct (t_pool t) as [p|] eqn:Hp; [|done].
    destruct (pools st !! p) as [w|] eqn:Hw; [|done].
    cbv zeta in H. unfold bind at 1, store_pool in H.
    destruct (wrap_int (number_of_working w - 1) =? 0).
    + unfold bind, the_addr, ret, emit in H.
      eapply wakes_after; [done|by rewrite Hpc|by rewrite Hpc| | | | | |exact H];
        try done.
      simpl. by apply same_queue_insert.
    + unfold bind, ret in H.
      eapply wakes_after; [done|by rewrite Hpc|by rewrite Hpc| | | | | |exact H];
        try done.
      simpl. by apply same_queue_insert.
  - (* W_exit *)
    exists W_done. unfold bind, load_pool, store_pool in H.
    destruct (t_pool t) as [p|] eqn:Hp; [|done].
    destruct (pools st !! p) as [w|] eqn:Hw; [|done].
    eapply wakes_after; [done|by rewrite Hpc|by rewrite Hpc| | | | | |exact H];
      try done.
    simpl. by apply same_queue_insert.
  - done.
Qed.

(** [wakeups_ok] is kept by every step that is not one of
    [pgmoneta_workers_destroy]. *)
Lemma wakeups_ok_worker i t pc' st st' :
  wakeups_ok st → threads st !! i = Some t → worker_wakes i t pc' st st' →
  wakeups_ok st'.
Proof.
  intros [Hflag Hsem Hdist Harmed] Ht (T & K & B & P & S & Hpull & Hwoken).
  assert (worker_keepalive st ≠ 0) as Hk.
  { destruct Hflag as [Hnil|?]; [|done]. by rewrite Hnil in Ht. }
  assert (i < length (threads st))%nat as Hi by (by eapply lookup_lt_Some).
  split.
  - right. by rewrite K.
  - intros p w' Hw'. destruct (P p w' Hw') as (w & Hw & Hh & _).
    destruct (Hsem p w Hw) as (s & Hs & Hlt). exists s. split; [congruence|lia].
  - intros p1 p2 w1' w2' Hw1' Hw2' Heq.
    destruct (P p1 w1' Hw1') as (w1 & Hw1 & Hh1 & _).
    destruct (P p2 w2' Hw2') as (w2 & Hw2 & Hh2 & _).
    apply (Hdist p1 p2 w1 w2 Hw1 Hw2). congruence.
  - intros p w' s Hw' Hs' Hn.
    destruct (P p w' Hw') as (w & Hw & Hh & Hq).
    destruct (decide (t_pool t = Some p ∧ t_pc t = W_pull)) as [[Hp Hpc]|Hnot].
    { destruct (Hpull Hpc p w' s Hp Hw' Hs') as [?|?]; [done|by left]. }
    specialize (Hq Hnot). rewrite Hq in Hn. rewrite Hh in Hs'.
    destruct (Harmed p w s Hw Hs' Hn) as [Hon|(j & tj & Hj & Hpj & Hwj)].
    + destruct S as [S|(p0 & w0 & s0 & Hp0 & Hw0 & Hs0 & S & Hcase)].
      { left. by rewrite S. }
      destruct (decide (s = s0)) as [->|Hne]; [|left; by rewrite S].
      assert (p = p0) as <- by (apply (Hdist p p0 w w0 Hw Hw0); congruence).
      destruct Hcase as [Hpc| ->]; [by destruct Hnot|].
      right. exists i, (set_pc W_recheck t). rewrite T.
      split; [by apply list_lookup_insert_eq|done].
    + right. destruct (decide (j = i)) as [->|Hne].
      * rewrite Ht in Hj. injection Hj as <-.
        exists i, (set_pc pc' t). rewrite T.
        split; [by apply list_lookup_insert_eq|]. split; [done|]. simpl.
        apply Hwoken; [done| |done]. intros Hpc. by destruct Hnot.
      * exists j, tj. rewrite T. split; [|done].
        by rewrite list_lookup_insert_ne.
Qed.

Lemma wakeups_ok_add p f arg st rc st' :
  wakeups_ok st → pgmoneta_workers_add p f arg st = Ok rc st' → wakeups_ok st'.
Proof.
  intros [Hflag Hsem Hdist Harmed] H.
  apply workers_add_wakes in H as (T & K & B & Hcase).
  destruct Hcase as [[P S]|(a & w & q' & s & Hw & P & Hs & Hs' & Hon & S)].
  { split.
    - by rewrite T, K.
    - intros p0 w0 Hw0. rewrite P in Hw0.
      destruct (Hsem p0 w0 Hw0) as (s & Hs & Hlt). exists s. split; [done|lia].
    - intros p1 p2 w1 w2. rewrite P. apply Hdist.
    - intros p0 w0 s. rewrite P, S, T. apply Harmed. }
  assert (∀ p0 w0', pools st' !! p0 = Some w0' →
            ∃ w0, pools st !! p0 = Some w0 ∧
                  has_tasks (wqueue w0') = has_tasks (wqueue w0) ∧
                  (p0 ≠ a → w0' = w0)) as Hold.
  { intros p0 w0' Hw0'. rewrite P in Hw0'. destruct (decide (p0 = a)) as [->|Hne].
    - rewrite lookup_insert_eq in Hw0'. injection Hw0' as <-. exists w.
      split; [done|]. split; [simpl; congruence|done].
    - rewrite lookup_insert_ne in Hw0' by done. eauto. }
  split.
  - by rewrite T, K.
  - intros p0 w0' Hw0'. destruct (Hold p0 w0' Hw0') as (w0 & Hw0 & Hh & _).
    destruct (Hsem p0 w0 Hw0) as (s0 & Hs0 & Hlt). exists s0.
    split; [congruence|lia].
  - intros p1 p2 w1' w2' Hw1' Hw2' Heq.
    destruct (Hold p1 w1' Hw1') as (w1 & Hw1 & Hh1 & _).
    destruct (Hold p2 w2' Hw2') as (w2 & Hw2 & Hh2 & _).
    apply (Hdist p1 p2 w1 w2 Hw1 Hw2). congruence.
  - intros p0 w0' s0 Hw0' Hs0 Hn.
    destruct (Hold p0 w0' Hw0') as (w0 & Hw0 & Hh & Hsame).
    destruct (decide (p0 = a)) as [->|Hne].
    { left. rewrite Hw in Hw0. injection Hw0 as <-.
      assert (s0 = s) as -> by congruence. done. }
    rewrite (Hsame Hne) in Hs0, Hn.
    destruct (Harmed p0 w0 s0 Hw0 Hs0 Hn) as [Hon0|Hthread].
    + left. rewrite S; [done|]. intros ->. apply Hne.
      apply (Hdist p0 a w0 w Hw0 Hw). congruence.
    + right. by rewrite T.
Qed.

Lemma wakeups_ok_initialize num st r st' :
  wakeups_ok st → workers_initialize_setup num st = Ok r st' → wakeups_ok st'.
Proof.
  intros [Hflag Hsem Hdist Harmed] H.
  apply initialize_setup_wakes in H as (K & _ & B & S & P & _ & Hr).
  assert (∃ new, threads st' = threads st ++ new) as [new T].
  { destruct r; [exists []; rewrite app_nil_r; tauto|tauto]. }
  assert (∀ p w', pools st' !! p = Some w' →
            (∃ w, pools st !! p = Some w ∧ wqueue w' = wqueue w) ∨
            (p = brk st ∧ number_of_tasks (wqueue w') = 0 ∧
             ∃ s, has_tasks (wqueue w') = Some s ∧ (brk st ≤ s < brk st')%positive))
    as P'.
  { intros p w' Hw'. destruct (decide (p = brk st)) as [->|Hne]; [|left; eauto].
    destruct r as [|a].
    - destruct Hr as [_ [Hnone|Heq]]; [congruence|]. rewrite Heq in Hw'. eauto.
    - destruct Hr as (-> & _ & w0 & s & Hw0 & Hq & Hlt & _).
      rewrite Hw0 in Hw'. injection Hw' as <-. right. rewrite Hq. simpl. eauto. }
  split.
  - right. by rewrite K.
  - intros p w' Hw'.
    destruct (P' p w' Hw') as [(w & Hw & Hq)|(_ & _ & s & Hs & Hlt)].
    + destruct (Hsem p w Hw) as (s & Hs & Hlt). exists s.
      split; [congruence|lia].
    + exists s. split; [done|lia].
  - intros p1 p2 w1' w2' Hw1' Hw2' Heq.
    destruct (P' p1 w1' Hw1') as [(w1 & Hw1 & Hq1)|(Hp1 & _ & s1 & Hs1 & Hlt1)];
      destruct (P' p2 w2' Hw2') as [(w2 & Hw2 & Hq2)|(Hp2 & _ & s2 & Hs2 & Hlt2)].
    + apply (Hdist p1 p2 w1 w2 Hw1 Hw2). congruence.
    + destruct (Hsem p1 w1 Hw1) as (s1 & Hs1 & Hlt1).
      rewrite Hq1, Hs1, Hs2 in Heq. injection Heq as ->. lia.
    + destruct (Hsem p2 w2 Hw2) as (s2 & Hs2 & Hlt2).
      rewrite Hq2, Hs1, Hs2 in Heq. injection Heq as ->. lia.
    + congruence.
  - intros p w' s Hw' Hs Hn.
    destruct (P' p w' Hw') as [(w & Hw & Hq)|(_ & Hz & _)]; [|done].
    rewrite Hq in Hs, Hn.
    destruct (Hsem p w Hw) as (s0 & Hs0 & Hlt).
    assert (s0 = s) as -> by congruence.
    destruct (Harmed p w s Hw Hs Hn) as [Hon|(j & tj & Hj & Hrest)].
    + left. by rewrite S.
    + right. exists j, tj. rewrite T. split; [|done].
      by apply lookup_app_l_Some.
Qed.

Lemma wakeups_ok_same_queues st st' :
  wakeups_ok st → same_queues st st' → threads st' = threads st → wakeups_ok st'.
Proof.
  intros [Hflag Hsem Hdist Harmed] (_ & S & K & B & _ & P & _) T.
  split.
  - by rewrite T, K.
  - intros p w' Hw'. destruct (P p w' Hw') as (w & Hw & Hq).
    destruct (Hsem p w Hw) as (s & Hs & Hlt). exists s. split; [congruence|lia].
  - intros p1 p2 w1' w2' Hw1' Hw2' Heq.
    destruct (P p1 w1' Hw1') as (w1 & Hw1 & Hq1).
    destruct (P p2 w2' Hw2') as (w2 & Hw2 & Hq2).
    apply (Hdist p1 p2 w1 w2 Hw1 Hw2). congruence.
  - intros p w' s Hw' Hs Hn. destruct (P p w' Hw') as (w & Hw & Hq).
    rewrite Hq in Hs, Hn. rewrite S, T. by eapply Harmed.
Qed.

Lemma wakeups_ok_exec l st st' :
  wakeups_ok st → is_destroy l = false → exec l st = Some st' → wakeups_ok st'.
Proof.
  intros Hok Hl Hexec. apply exec_step in Hexec.
  destruct l as [i|p f arg|num|num w|p|p total|p total]; try done;
    simpl in Hexec.
  - destruct (threads st !! i) as [t|] eqn:Ht; [|done].
    destruct (worker_step_wakes i t st st' Ht Hexec) as [pc' Hm].
    by eapply wakeups_ok_worker.
  - apply bind_ok in Hexec as (rc & st1 & Hadd & Hret). injection Hret as <-.
    by eapply wakeups_ok_add.
  - apply bind_ok in Hexec as (r & st1 & Hsetup & Hrest).
    apply (wakeups_ok_same_queues st1).
    + by eapply wakeups_ok_initialize.
    + revert Hrest. destruct r; [apply same_queues_emit|apply same_queues_add_pending].
    + assert (untouched st1 st') as (_ & T & _); [|done].
      revert Hrest. destruct r; [apply untouched_emit|apply untouched_add_pending].
  - apply (wakeups_ok_same_queues st); [done| |].
    + revert Hexec. same_queues_tac.
    + assert (untouched st st') as (_ & T & _); [|done].
      revert Hexec. untouched_tac.
Qed.

Lemma wakeups_ok_run ls : ∀ st st',
  wakeups_ok st → forallb (λ l, negb (is_destroy l)) ls = true →
  run ls st = Some st' → wakeups_ok st'.
Proof.
  induction ls as [|l ls IH]; simpl; intros st st' Hok Hls Hrun.
  - by injection Hrun as <-.
  - apply andb_true_iff in Hls as [Hl Hls]. apply negb_true_iff in Hl.
    destruct (exec l st) as [st1|] eqn:Hexec; [|done].
    eapply IH; [|exact Hls|exact Hrun]. by eapply wakeups_ok_exec.
Qed.

Lemma wakeups_ok_image o : wakeups_ok (image o).
Proof.
  split.
  - by left.
  - intros p w Hw. unfold image, world0 in Hw. simpl in Hw.
    by rewrite lookup_empty in Hw.
  - intros p1 p2 w1 w2 Hw. unfold image, world0 in Hw. simpl in Hw.
    by rewrite lookup_empty in Hw.
  - intros p w s Hw. unfold image, world0 in Hw. simpl in Hw.
    by rewrite lookup_empty in Hw.
Qed.

(** X17.  No wake-up is lost.  After any interleaving of workers and
    callers in which no pool is being destroyed, and whichever calls of
    [malloc] fail, whenever the queue of a
    pool counts a task, its semaphore is armed, so that a worker inside or
    entering [semaphore_wait] goes through, or a worker of the pool has
    already come out of [semaphore_wait] and is on its way to
    [queue_pull]. *)
Theorem queued_task_has_a_waker o ls st p w
    (Hrun : run ls (image o) = Some st)
    (Hls : forallb (λ l, negb (is_destroy l)) ls = true)
    (Hpool : pools st !! p = Some w)
    (Htasks : number_of_tasks (wqueue w) ≠ 0) :
  semaphore_ready (has_tasks (wqueue w)) st = true ∨
  ∃ i t, threads st !! i = Some t ∧ t_pool t = Some p ∧ woken (t_pc t) = true.
Proof.
  pose proof (wakeups_ok_run ls (image o) st (wakeups_ok_image o) Hls Hrun) as Hok.
  destruct (wk_sem _ Hok p w Hpool) as (s & Hs & _).
  destruct (wk_armed _ Hok p w s Hpool Hs Htasks) as [Hon|Hthread]; [left|by right].
  unfold semaphore_ready. by rewrite Hs, Hon.
Qed.

Lemma queued_task_has_a_waker_witness :
  semaphore_ready
    (has_tasks (wqueue (Workers 1 0 true
                          (Queue 2 (Some 5%positive) (Some 6%positive) (Some 2%positive))
                          [Some 4%positive])))
    (after two_tasks) = true ∨
  ∃ i t, threads (after two_tasks) !! i = Some t ∧ t_pool t = Some pool1 ∧
         woken (t_pc t) = true.
Proof.
  refine (queued_task_has_a_waker [] two_tasks (after two_tasks) pool1 _ _ _ _ _).
  - vm_compute. reflexivity.
  - vm_compute. reflexivity.
  - vm_compute. reflexivity.
  - vm_compute. discriminate.
Defined.

(** ** When the calls return *)

Lemma brk_exec l st st' : exec l st = Some st' → (brk st ≤ brk st')%positive.
Proof.
  intros Hexec. apply exec_step in Hexec.
  destruct l as [i|p f arg|num|num w|p|p total|p total];
    try (assert (same_counters st st') as (_ & _ & B);
         [eapply step_same_counters; [exact Hexec|done..]|exact B]).
  - simpl in Hexec. destruct (threads st !! i) as [t|] eqn:Ht; [|done].
    by destruct (worker_step_moves i t st st' Ht Hexec) as [pc' (_ & B & _)].
  - simpl in Hexec. apply bind_ok in Hexec as (r & st1 & Hsetup & Hrest).
    assert (untouched st1 st') as (_ & _ & B).
    { revert Hrest. destruct r; [apply untouched_emit|apply untouched_add_pending]. }
    destruct (initialize_setup_grows _ _ _ _ Hsetup) as
      [(_ & _ & B1)|(st0 & (_ & _ & B0) & _ & (_ & _ & B1))]; lia.
Qed.

(** The threads of a pool are those its [pgmoneta_workers_initialize]
    started: no later step adds one. *)
Lemma threads_of_exec l st st' a :
  counters_ok st → (a < brk st)%positive → exec l st = Some st' →
  threads_of a (threads st') = threads_of a (threads st).
Proof.
  intros Hok Ha Hexec. apply exec_step in Hexec. unfold threads_of.
  destruct l as [i|p f arg|num|num w|p|p total|p total];
    try (assert (same_counters st st') as (_ & T & _);
         [eapply step_same_counters; [exact Hexec|done..]|by rewrite T]).
  - simpl in Hexec. destruct (threads st !! i) as [t|] eqn:Ht; [|done].
    destruct (worker_step_moves i t st st' Ht Hexec) as [pc' (T & _)].
    rewrite T, (threads_at_insert _ a pc' _ i t Ht).
    change (Z.b2z true - Z.b2z true) with 0.
    destruct (bool_decide _); apply Z.add_0_r.
  - simpl in Hexec. apply bind_ok in Hexec as (r & st1 & Hsetup & Hrest).
    assert (untouched st1 st') as (_ & T & _).
    { revert Hrest. destruct r; [apply untouched_emit|apply untouched_add_pending]. }
    rewrite T.
    destruct (initialize_setup_grows _ _ _ _ Hsetup) as
      [(_ & T1 & _)|(st0 & (_ & T0 & _) & _ & (_ & (new & T1 & Hnew) & _))].
    + by rewrite T1.
    + rewrite T1, T0, threads_at_app, (threads_at_none _ a new); [lia|].
      eapply Forall_impl; [exact Hnew|]. intros t [Hp _]. left. rewrite Hp.
      intros [= Heq]. lia.
Qed.

Lemma threads_of_run ls : ∀ st st' a,
  counters_ok st → (a < brk st)%positive → run ls st = Some st' →
  counters_ok st' ∧ threads_of a (threads st') = threads_of a (threads st).
Proof.
  induction ls as [|l ls IH]; simpl; intros st st' a Hok Ha Hrun.
  - by injection Hrun as <-.
  - destruct (exec l st) as [st1|] eqn:Hexec; [|done].
    pose proof (brk_exec _ _ _ Hexec) as B.
    destruct (IH st1 st' a) as [Hok' Hsame];
      [by eapply counters_ok_exec|lia|done|].
    split; [done|]. rewrite Hsame. by eapply threads_of_exec.
Qed.

(** The loop of line 105 cannot end for a pool that has fewer than [num]
    threads. *)
Lemma initialize_return_blocked st num a ls st' :
  counters_ok st → is_Some (pools st !! a) →
  threads_of a (threads st) < num → num ≤ INT_MAX →
  run ls st = Some st' →
  exec (L_initialize_return num a) st' = None.
Proof.
  intros Hok Ha Hshort Hnum Hrun.
  destruct (threads_of_run ls st st' a Hok (co_pools _ Hok a Ha) Hrun) as [Hok' Hsame].
  unfold exec, enabled, initialize_must_wait. simpl.
  destruct (pools st' !! a) as [w'|] eqn:Hw'.
  - destruct (co_counts _ Hok' a w' Hw') as [Halive _].
    pose proof (threads_at_bounds counts_alive a (threads st')) as Hb.
    assert (threads_at counts_alive a (threads st') ≤ threads_of a (threads st')) as Hle.
    { apply threads_at_le. done. }
    rewrite wrap_int_id in Halive by (unfold in_int, INT_MIN, INT_MAX in *; lia).
    rewrite (proj2 (Z.eqb_neq _ _)) by lia. simpl. by rewrite andb_false_r.
  - unfold bind, load_pool. rewrite Hw'. by destruct (_ && _).
Qed.

(** The threads [spawn_workers] starts: one per [worker_init] whose
    [malloc] succeeds. *)
Lemma spawn_workers_threads a : ∀ n st,
  is_Some (pools st !! a) →
  ∃ st', spawn_workers n (Some a) st = Ok tt st' ∧
         threads_of a (threads st') =
           threads_of a (threads st) + Z.of_nat n - Z.of_nat (failing (take n (oom st))) ∧
         is_Some (pools st' !! a) ∧ pending st' = pending st ∧
         (brk st ≤ brk st')%positive.
Proof.
  induction n as [|n IH]; intros st [w Hw].
  { exists st. simpl. unfold failing. simpl. repeat split; eauto; lia. }
  simpl. unfold bind at 1, worker_init, bind at 1, malloc.
  destruct (oom st) as [|[] o] eqn:Hoom.
  - unfold store_wrec, bind, pthread_create. simpl. rewrite lookup_insert_eq. simpl.
    unfold load_pool, store_pool. simpl. rewrite Hw.
    edestruct IH as (st' & Hrun & Hth & Hpool & Hpend & Hbrk);
      [|exists st'; split; [exact Hrun|]].
    { simpl. rewrite lookup_insert_eq. eauto. }
    simpl in *. rewrite Hth. unfold threads_of. rewrite threads_at_app. simpl.
    rewrite bool_decide_eq_true_2 by done. rewrite take_nil.
    repeat split; try done; unfold failing; simpl; lia.
  - unfold pgmoneta_log_error, emit, bind, ret.
    unfold load_pool, store_pool. simpl. rewrite Hw.
    edestruct IH as (st' & Hrun & Hth & Hpool & Hpend & Hbrk);
      [|exists st'; split; [exact Hrun|]].
    { simpl. rewrite lookup_insert_eq. eauto. }
    simpl in *. rewrite Hth.
    repeat split; try done; unfold failing; simpl; lia.
  - unfold store_wrec, bind, pthread_create. simpl. rewrite lookup_insert_eq. simpl.
    unfold load_pool, store_pool. simpl. rewrite Hw.
    edestruct IH as (st' & Hrun & Hth & Hpool & Hpend & Hbrk);
      [|exists st'; split; [exact Hrun|]].
    { simpl. rewrite lookup_insert_eq. eauto. }
    simpl in *. rewrite Hth. unfold threads_of. rewrite threads_at_app. simpl.
    rewrite bool_decide_eq_true_2 by done.
    repeat split; try done; unfold failing; simpl; lia.
Qed.

Lemma initialize_setup_spawns num st o :
  1 ≤ num → oom st = false :: false :: false :: o →
  workers_initialize_setup num st =
  (spawn_workers (Z.to_nat num) (Some (brk st)) ;;; ret (InitWaiting (brk st)))
    (ready_to_spawn o st).
Proof.
  intros Hnum Hoom. unfold workers_initialize_setup, ready_to_spawn.
  rewrite (proj2 (Z.ltb_ge num 1) Hnum).
  unfold bind, queue_init, bind, malloc. simpl. rewrite Hoom. simpl.
  reflexivity.
Qed.

Lemma failing_elem o : true ∈ o → (1 ≤ failing o)%nat.
Proof.
  unfold failing. induction o as [|[] o IH]; simpl; intros Hin.
  - by apply elem_of_nil in Hin.
  - lia.
  - apply elem_of_cons in Hin as [|Hin]; [done|by apply IH].
Qed.

Lemma started_exec l st st' : started st → exec l st = Some st' → started st'.
Proof.
  intros (o & ls & Hrun) Hexec. exists o, (ls ++ [l]).
  rewrite run_app, Hrun. simpl. by rewrite Hexec.
Qed.

(** X18.  [pgmoneta_workers_initialize] ignores the result of
    [worker_init] (line 102).  When the pool, its semaphore and the array
    are allocated but [malloc] fails for one of the [num] worker records,
    the call reaches the loop of line 105 with fewer than [num] threads,
    and whatever the threads and the other callers do afterwards the loop
    never ends: the call does not return. *)
Theorem initialize_hangs_after_failed_worker_allocation st num o
    (Hst : started st)
    (Hnum : 1 ≤ num ≤ INT_MAX)
    (Hoom : oom st = false :: false :: false :: o)
    (Hfail : true ∈ take (Z.to_nat num) o) :
  ∃ st1,
    exec (L_initialize num) st = Some st1 ∧
    InInitialize num (brk st) ∈ pending st1 ∧
    threads_of (brk st) (threads st1) < num ∧
    ∀ ls st', run ls st1 = Some st' →
              exec (L_initialize_return num (brk st)) st' = None.
Proof.
  pose proof (counters_ok_started st Hst) as Hok.
  destruct (spawn_workers_threads (brk st) (Z.to_nat num) (ready_to_spawn o st))
    as (st2 & Hspawn & Hth & Hpool & Hpend & _).
  { simpl. rewrite lookup_insert_eq. eauto. }
  set (st1 := set_pending (pending st2 ++ [InInitialize num (brk st)]) st2).
  assert (exec (L_initialize num) st = Some st1) as Hexec.
  { unfold exec. simpl. unfold bind at 1.
    rewrite (initialize_setup_spawns num st o) by (done || lia).
    unfold bind at 1. rewrite Hspawn. reflexivity. }
  assert (threads_of (brk st) (threads st1) < num) as Hshort.
  { simpl. rewrite Hth. simpl.
    assert (threads_of (brk st) (threads st) = 0) as ->.
    { apply threads_at_none, Forall_forall. intros t Hin. left.
      destruct (co_threads _ Hok t Hin) as (p & Hp & Hlt). rewrite Hp.
      intros [= Heq]. lia. }
    apply failing_elem in Hfail. lia. }
  exists st1. split; [done|]. split; [|split; [done|]].
  - simpl. apply elem_of_app. right. by apply list_elem_of_singleton.
  - intros ls st' Hrun.
    apply (initialize_return_blocked st1 num (brk st) ls st'); try done; [|lia].
    apply counters_ok_started. by eapply started_exec.
Qed.

Lemma initialize_hangs_after_failed_worker_allocation_witness :
  ∃ st1,
    exec (L_initialize 1) (image [false; false; false; true]) = Some st1 ∧
    InInitialize 1 (brk (image [false; false; false; true])) ∈ pending st1 ∧
    threads_of (brk (image [false; false; false; true])) (threads st1) < 1 ∧
    ∀ ls st', run ls st1 = Some st' →
              exec (L_initialize_return 1 (brk (image [false; false; false; true]))) st'
              = None.
Proof.
  refine (initialize_hangs_after_failed_worker_allocation
            (image [false; false; false; true]) 1 [true] _ _ _ _).
  - exists [false; false; false; true], []. reflexivity.
  - unfold INT_MAX. lia.
  - reflexivity.
  - simpl. apply list_elem_of_here.
Defined.

(** X19.  [pgmoneta_workers_initialize] returns 0 exactly when the call
    is in the loop of line 105, the pool is allocated and [num] of its
    threads have passed line 317 and not yet line 350: every worker the
    caller asked for has started. *)
Theorem initialize_returns_when_all_alive st num a
    (Hst : started st)
    (Hfew : Z.of_nat (length (threads st)) ≤ INT_MAX) :
  is_Some (exec (L_initialize_return num a) st) ↔
  InInitialize num a ∈ pending st ∧ is_Some (pools st !! a) ∧
  threads_at counts_alive a (threads st) = num.
Proof.
  pose proof (counters_ok_started st Hst) as Hok.
  pose proof (threads_at_bounds counts_alive a (threads st)) as Hb.
  unfold exec, enabled, is_pending, initialize_must_wait. simpl.
  unfold bind, load_pool.
  destruct (pools st !! a) as [w|] eqn:Hw.
  - destruct (co_counts _ Hok a w Hw) as [Halive _].
    rewrite wrap_int_id in Halive by (unfold in_int, INT_MIN, INT_MAX in *; lia).
    rewrite Halive. split.
    + destruct (bool_decide _) eqn:Hp; [|by intros [? ?]].
      apply bool_decide_eq_true in Hp.
      destruct (_ =? num) eqn:Hn; [|by intros [? ?]].
      apply Z.eqb_eq in Hn. eauto.
    + intros (Hp & _ & ->). rewrite bool_decide_eq_true_2, Z.eqb_refl by done.
      simpl. eauto.
  - split.
    + destruct (_ && _); by intros [? ?].
    + by intros (_ & [? ?] & _).
Qed.

Lemma initialize_returns_when_all_alive_witness :
  is_Some (exec (L_initialize_return 1 pool1) (after [L_initialize 1; L_worker 0])) ↔
  InInitialize 1 pool1 ∈ pending (after [L_initialize 1; L_worker 0]) ∧
  is_Some (pools (after [L_initialize 1; L_worker 0]) !! pool1) ∧
  threads_at counts_alive pool1 (threads (after [L_initialize 1; L_worker 0])) = 1.
Proof.
  refine (initialize_returns_when_all_alive (after [L_initialize 1; L_worker 0])
            1 pool1 _ _).
  - exists [], [L_initialize 1; L_worker 0]. vm_compute. reflexivity.
  - vm_compute. discriminate.
Defined.

(** X20.  [pgmoneta_workers_destroy] leaves its loops and frees the pool
    only in a state in which none of the pool's threads is between line
    317 and line 350: every worker that had counted itself alive has left
    its loop for good.  Afterwards the pool is gone. *)
Theorem destroy_returns_when_no_worker_alive st p total st'
    (Hst : started st)
    (Hfew : Z.of_nat (length (threads st)) ≤ INT_MAX)
    (Hexec : exec (L_destroy_return p total) st = Some st') :
  (∀ t, t ∈ threads st → t_pool t = Some p → counts_alive (t_pc t) = false) ∧
  pools st' !! p = None.
Proof.
  pose proof (counters_ok_started st Hst) as Hok.
  pose proof (threads_at_bounds counts_alive p (threads st)) as Hb.
  split.
  - unfold exec, enabled in Hexec.
    destruct (pools st !! p) as [w|] eqn:Hw.
    + destruct (co_counts _ Hok p w Hw) as [Halive _].
      destruct (number_of_alive w =? 0) eqn:Hz;
        [|by rewrite andb_false_r in Hexec].
      apply Z.eqb_eq in Hz. intros t Hin Hp.
      eapply threads_at_zero; [|exact Hin|exact Hp].
      apply wrap_int_zero; [lia|congruence].
    + simpl in Hexec. unfold bind at 1, load_pool in Hexec. rewrite Hw in Hexec.
      by destruct (_ && _).
  - apply exec_step in Hexec. simpl in Hexec.
    apply bind_ok in Hexec as (w & st1 & _ & H).
    apply bind_ok in H as ([] & st2 & _ & H).
    apply bind_ok in H as ([] & st3 & Hfin & H).
    unfold emit in H. injection H as <-. simpl.
    unfold workers_destroy_finish in Hfin.
    apply bind_ok in Hfin as ([] & st4 & _ & Hfin).
    apply bind_ok in Hfin as ([] & st5 & _ & Hfin).
    unfold free_pool in Hfin. destruct (pools st5 !! p); [|done].
    injection Hfin as <-. simpl. apply lookup_delete_eq.
Qed.

Lemma destroy_returns_when_no_worker_alive_witness :
  (∀ t, t ∈ threads (after stopped) → t_pool t = Some pool1 →
        counts_alive (t_pc t) = false) ∧
  pools (after (stopped ++ [L_destroy_return pool1 1])) !! pool1 = None.
Proof.
  refine (destroy_returns_when_no_worker_alive (after stopped) pool1 1
            (after (stopped ++ [L_destroy_return pool1 1])) _ _ _).
  - exists [], stopped. vm_compute. reflexivity.
  - vm_compute. discriminate.
  - vm_compute. reflexivity.
Defined.

(** ** Memory safety of the workers *)

Lemma chain_ext h h' p l :
  (∀ a, a ∈ l → h' !! a = h !! a) → chain h p l → chain h' p l.
Proof.
  revert p. induction l as [|a l IH]; intros p Heq; simpl; [done|].
  intros (-> & t & Ht & Hc). split; [done|]. exists t. split.
  - rewrite Heq; [done|]. apply elem_of_cons. by left.
  - apply IH; [|done]. intros b Hb. apply Heq, elem_of_cons. by right.
Qed.

Lemma queue_wf_frame st st' q l :
  (∀ a, a ∈ l → tasks st' !! a = tasks st !! a) →
  (∀ s, has_tasks q = Some s → is_Some (sems st !! s) → is_Some (sems st' !! s)) →
  queue_wf st q l → queue_wf st' q l.
Proof.
  intros Ht Hs [Hc Hr Hn Hnd Hb (s & sm & Hh & Hsm)]. constructor; try done.
  - by eapply chain_ext.
  - destruct (Hs s) as [sm' Hsm']; [done|eauto|]. eauto.
Qed.

(** Distinct addresses below [b] are fewer than [b]. *)
Lemma distinct_below (l : list addr) (b : addr) :
  NoDup l → (∀ a, a ∈ l → (a < b)%positive) →
  Z.of_nat (length l) < Z.pos b.
Proof.
  intros Hnd Hlt.
  assert (Pos.to_nat <$> l ⊆+ seq 1 (Pos.to_nat b - 1)) as Hsub.
  { apply NoDup_submseteq.
    - apply NoDup_fmap_2; [|done]. intros x y. apply Pos2Nat.inj.
    - intros n Hn. apply list_elem_of_fmap in Hn as (a & -> & Ha).
      apply elem_of_seq. specialize (Hlt a Ha). apply Pos2Nat.inj_lt in Hlt.
      pose proof (Pos2Nat.is_pos a). lia. }
  apply submseteq_length in Hsub. rewrite length_fmap, length_seq in Hsub.
  unfold addr in *. lia.
Qed.

Lemma heap_ok_frame c st st' :
  heap_ok c st →
  tasks st' = tasks st →
  (∀ p w s, pools st !! p = Some w → has_tasks (wqueue w) = Some s →
     is_Some (sems st !! s) → is_Some (sems st' !! s)) →
  (∀ p w', pools st' !! p = Some w' →
     ∃ w, pools st !! p = Some w ∧ wqueue w' = wqueue w) →
  (∀ i t', threads st' !! i = Some t' →
     (∃ p, t_pool t' = Some p ∧ is_Some (pools st' !! p) ∧ (p < brk st')%positive) ∧
     (∀ a, t_pc t' = W_call (Some a) →
        ∃ t, threads st !! i = Some t ∧ t_pc t = W_call (Some a))) →
  (brk st ≤ brk st')%positive →
  heap_ok c st'.
Proof.
  intros [Hwf Halloc Hdis Hheld Hsingle Hfresh Hpool] T S P Th B. split.
  - intros p w' Hw'. destruct (P p w' Hw') as (w & Hw & Hq).
    destruct (Hwf p w Hw) as (l & Hl & Hqwf). exists l. split; [done|].
    rewrite Hq. eapply queue_wf_frame; [| |exact Hqwf]; [by rewrite T|].
    intros s. by apply (S p w s).
  - intros p l a Hl Ha. rewrite T. by eapply Halloc.
  - done.
  - intros i t' a Ht' Hpc. destruct (Th i t' Ht') as [_ Hold].
    destruct (Hold a Hpc) as (t & Ht & Hpc0). rewrite T. by eapply Hheld.
  - intros i j t1 t2 a Ht1 Ht2 Hpc1 Hpc2.
    destruct (Th i t1 Ht1) as [_ Hold1]. destruct (Hold1 a Hpc1) as (u1 & Hu1 & Hq1).
    destruct (Th j t2 Ht2) as [_ Hold2]. destruct (Hold2 a Hpc2) as (u2 & Hu2 & Hq2).
    by eapply Hsingle.
  - intros a Ha. rewrite T in Ha. specialize (Hfresh a Ha). lia.
  - intros i t' Ht'. by destruct (Th i t' Ht') as [? _].
Qed.

(** Nothing that matters to the tasks has changed. *)
Lemma heap_ok_same c st st' :
  heap_ok c st →
  tasks st' = tasks st → sems st' = sems st → pools st' = pools st →
  threads st' = threads st → (brk st ≤ brk st')%positive →
  heap_ok c st'.
Proof.
  intros Hok T S P Th B. apply (heap_ok_frame c st); try done.
  - intros p w s _ _. by rewrite S.
  - intros p w'. rewrite P. eauto.
  - intros i t'. rewrite Th, P. intros Ht'. split; [|eauto].
    destruct (ho_pool _ _ Hok i t' Ht') as (p & Hp & Hlive & Hlt).
    exists p. split; [done|]. split; [done|lia].
Qed.

(** The threads after thread [i] has moved to a program point at which it
    holds no task, the pools being those of [h']. *)
Lemma threads_moved c st i t pc' (h' : gmap addr workers) (b' : addr) :
  heap_ok c st → threads st !! i = Some t →
  (∀ a, pc' ≠ W_call (Some a)) →
  (∀ p, is_Some (pools st !! p) → is_Some (h' !! p)) →
  (brk st ≤ b')%positive →
  ∀ j t', <[i := set_pc pc' t]> (threads st) !! j = Some t' →
    (∃ p, t_pool t' = Some p ∧ is_Some (h' !! p) ∧ (p < b')%positive) ∧
    (∀ a, t_pc t' = W_call (Some a) →
       ∃ t0, threads st !! j = Some t0 ∧ t_pc t0 = W_call (Some a)).
Proof.
  intros Hok Ht Hpc Hh Hb j t' Hj.
  destruct (decide (j = i)) as [->|Hne].
  - rewrite list_lookup_insert_eq in Hj by (by eapply lookup_lt_Some).
    injection Hj as <-. simpl. split.
    + destruct (ho_pool _ _ Hok i t Ht) as (p & Hp & Hlive & Hlt).
      exists p. split; [done|]. split; [by apply Hh|lia].
    + intros a Ha. by destruct (Hpc a).
  - rewrite list_lookup_insert_ne in Hj by done. split.
    + destruct (ho_pool _ _ Hok j t' Hj) as (p & Hp & Hlive & Hlt).
      exists p. split; [done|]. split; [by apply Hh|lia].
    + eauto.
Qed.

Lemma insert_pool_queue (h : gmap addr workers) p w (g : workers → workers) :
  h !! p = Some w → wqueue (g w) = wqueue w →
  (∀ q w', <[p := g w]> h !! q = Some w' →
     ∃ w0, h !! q = Some w0 ∧ wqueue w' = wqueue w0) ∧
  (∀ q, is_Some (h !! q) → is_Some (<[p := g w]> h !! q)).
Proof.
  intros Hw Hg. split.
  - by apply same_queue_insert.
  - intros q Hq. destruct (decide (q = p)) as [->|Hne].
    + rewrite lookup_insert_eq. eauto.
    + by rewrite lookup_insert_ne.
Qed.

(** A step of thread [i] to a program point at which it holds no task,
    that writes no task and keeps every queue. *)
Lemma heap_ok_moved c st i t pc' st' :
  heap_ok c st → threads st !! i = Some t →
  (∀ a, pc' ≠ W_call (Some a)) →
  threads st' = <[i := set_pc pc' t]> (threads st) →
  tasks st' = tasks st →
  (∀ s, is_Some (sems st !! s) → is_Some (sems st' !! s)) →
  (pools st' = pools st ∨
   ∃ p w g, pools st !! p = Some w ∧ wqueue (g w) = wqueue w ∧
            pools st' = <[p := g w]> (pools st)) →
  (brk st ≤ brk st')%positive →
  heap_ok c st'.
Proof.
  intros Hok Ht Hpc T H S P B.
  assert ((∀ q w', pools st' !! q = Some w' →
             ∃ w0, pools st !! q = Some w0 ∧ wqueue w' = wqueue w0) ∧
          (∀ q, is_Some (pools st !! q) → is_Some (pools st' !! q))) as [P1 P2].
  { destruct P as [->|(p & w & g & Hw & Hg & ->)]; [eauto|].
    by apply insert_pool_queue. }
  apply (heap_ok_frame c st); try done.
  - intros p w s _ _. apply S.
  - rewrite T. by eapply threads_moved.
Qed.

Lemma is_Some_insert_sem (h : gmap addr semaphore) s v s' :
  is_Some (h !! s') → is_Some (<[s := v]> h !! s').
Proof.
  intros Hs'. destruct (decide (s' = s)) as [->|Hne].
  - rewrite lookup_insert_eq. eauto.
  - by rewrite lookup_insert_ne.
Qed.

(** The thread takes the oldest task of its queue. *)
Lemma heap_ok_pulled c st i t p w a l q' st1 :
  heap_ok c st → threads st !! i = Some t → t_pool t = Some p →
  pools st !! p = Some w → c !! p = Some (a :: l) →
  queue_wf st (wqueue w) (a :: l) → queue_wf st1 q' l →
  tasks st1 = tasks st →
  (∀ s, is_Some (sems st !! s) → is_Some (sems st1 !! s)) →
  brk st1 = brk st →
  heap_ok (<[p := l]> c)
    (set_threads (<[i := set_pc (W_call (Some a)) t]> (threads st))
       (set_pools (<[p := set_queue q' w]> (pools st)) st1)).
Proof.
  intros [Hwf Halloc Hdis Hheld Hsingle Hfresh Hpool] Ht Hp Hw Hc Hq Hq' T S B.
  assert (a ∉ l) as Hal.
  { pose proof (wf_nodup _ _ _ Hq) as Hnd. by apply NoDup_cons in Hnd as [? _]. }
  assert (i < length (threads st))%nat as Hi by (by eapply lookup_lt_Some).
  assert (∀ p0 l0, <[p := l]> c !! p0 = Some l0 →
            ∃ l1, c !! p0 = Some l1 ∧ l0 ⊆ l1 ∧ (p0 ≠ p → l0 = l1)) as Hsub.
  { intros p0 l0 Hl0. destruct (decide (p0 = p)) as [->|Hne].
    - rewrite lookup_insert_eq in Hl0. injection Hl0 as <-.
      exists (a :: l). split; [done|]. split; [|done].
      intros x Hx. apply elem_of_cons. by right.
    - rewrite lookup_insert_ne in Hl0 by done. exists l0. done. }
  split; simpl.
  - intros p0 w0 Hw0. destruct (decide (p0 = p)) as [->|Hne].
    + rewrite lookup_insert_eq in Hw0. injection Hw0 as <-.
      exists l. rewrite lookup_insert_eq. split; [done|]. simpl.
      eapply queue_wf_ext; [| |exact Hq']; done.
    + rewrite lookup_insert_ne in Hw0 by done. rewrite lookup_insert_ne by done.
      destruct (Hwf p0 w0 Hw0) as (l0 & Hl0 & Hq0). exists l0. split; [done|].
      eapply queue_wf_frame; [| |exact Hq0]; simpl; [by rewrite T|].
      intros s _. apply S.
  - intros p0 l0 x Hl0 Hx. rewrite T.
    destruct (Hsub p0 l0 Hl0) as (l1 & Hl1 & Hincl & _).
    eapply Halloc; [exact Hl1|]. by apply Hincl.
  - intros p1 p2 l1 l2 x Hl1 Hl2 Hx1 Hx2.
    destruct (Hsub p1 l1 Hl1) as (k1 & Hk1 & Hincl1 & _).
    destruct (Hsub p2 l2 Hl2) as (k2 & Hk2 & Hincl2 & _).
    eapply Hdis; [exact Hk1|exact Hk2|by apply Hincl1|by apply Hincl2].
  - intros j tj x Hj Hpc. rewrite T.
    destruct (decide (j = i)) as [->|Hne].
    + rewrite list_lookup_insert_eq in Hj by done. injection Hj as <-.
      simpl in Hpc. injection Hpc as <-. split.
      * eapply Halloc; [exact Hc|]. apply elem_of_cons. by left.
      * intros p0 l0 Hl0 Hin. destruct (decide (p0 = p)) as [->|Hne].
        -- rewrite lookup_insert_eq in Hl0. injection Hl0 as <-. done.
        -- rewrite lookup_insert_ne in Hl0 by done. apply Hne.
           eapply (Hdis p0 p l0 (a :: l) a); try done. apply elem_of_cons. by left.
    + rewrite list_lookup_insert_ne in Hj by done.
      destruct (Hheld j tj x Hj Hpc) as [Hx Hnot]. split; [done|].
      intros p0 l0 Hl0 Hin. destruct (Hsub p0 l0 Hl0) as (l1 & Hl1 & Hincl & _).
      apply (Hnot p0 l1 Hl1). by apply Hincl.
  - intros j k tj tk x Hj Hk Hpcj Hpck.
    assert (∀ n tn, n ≠ i → threads st !! n = Some tn →
              t_pc tn = W_call (Some a) → False) as Hother.
    { intros n tn Hne Hn Hpc. destruct (Hheld n tn a Hn Hpc) as [_ Hnot].
      apply (Hnot p (a :: l) Hc). apply elem_of_cons. by left. }
    destruct (decide (j = i)) as [->|Hnj], (decide (k = i)) as [->|Hnk]; try done.
    + rewrite list_lookup_insert_eq in Hj by done. injection Hj as <-.
      simpl in Hpcj. injection Hpcj as <-.
      rewrite list_lookup_insert_ne in Hk by done. by destruct (Hother k tk).
    + rewrite list_lookup_insert_eq in Hk by done. injection Hk as <-.
      simpl in Hpck. injection Hpck as <-.
      rewrite list_lookup_insert_ne in Hj by done. by destruct (Hother j tj).
    + rewrite list_lookup_insert_ne in Hj, Hk by done. by eapply Hsingle.
  - intros x Hx. rewrite T in Hx. rewrite B. by apply Hfresh.
  - intros j tj Hj. rewrite B.
    assert (∃ t0, threads st !! j = Some t0 ∧ t_pool tj = t_pool t0) as (t0 & Ht0 & ->).
    { destruct (decide (j = i)) as [->|Hne].
      - rewrite list_lookup_insert_eq in Hj by done. injection Hj as <-. eauto.
      - rewrite list_lookup_insert_ne in Hj by done. eauto. }
    destruct (Hpool j t0 Ht0) as (p0 & Hp0 & Hlive & Hlt).
    exists p0. split; [done|]. split; [|done].
    destruct (decide (p0 = p)) as [->|Hne].
    + rewrite lookup_insert_eq. eauto.
    + by rewrite lookup_insert_ne.
Qed.

(** The thread runs the task it holds and frees it. *)
Lemma heap_ok_called c st i t a evs :
  heap_ok c st → threads st !! i = Some t → t_pc t = W_call (Some a) →
  heap_ok c
    (set_threads (<[i := set_pc W_end t]> (threads st))
       (set_tasks (delete a (tasks st)) (set_trace evs st))).
Proof.
  intros Hok Ht Hpc.
  pose proof Hok as [Hwf Halloc Hdis Hheld Hsingle Hfresh Hpool].
  destruct (Hheld i t a Ht Hpc) as [Ha Hnot].
  assert (i < length (threads st))%nat as Hi by (by eapply lookup_lt_Some).
  split; simpl.
  - intros p w Hw. destruct (Hwf p w Hw) as (l & Hl & Hq). exists l.
    split; [done|].
    apply (queue_wf_ext (set_tasks (delete a (tasks st)) st)); [done..|].
    apply queue_wf_free; [done|]. by eapply Hnot.
  - intros p l x Hl Hx. rewrite lookup_delete_ne; [by eapply Halloc|].
    intros <-. by apply (Hnot p l Hl).
  - done.
  - intros j tj x Hj Hpcj. destruct (decide (j = i)) as [->|Hne].
    { rewrite list_lookup_insert_eq in Hj by done. by injection Hj as <-. }
    rewrite list_lookup_insert_ne in Hj by done.
    destruct (Hheld j tj x Hj Hpcj) as [Hx Hnotx]. split; [|done].
    rewrite lookup_delete_ne; [done|]. intros <-.
    apply Hne. symmetry. by eapply Hsingle.
  - intros j k tj tk x Hj Hk Hpcj Hpck.
    destruct (decide (j = i)) as [->|Hnj].
    { rewrite list_lookup_insert_eq in Hj by done. by injection Hj as <-. }
    destruct (decide (k = i)) as [->|Hnk].
    { rewrite list_lookup_insert_eq in Hk by done. by injection Hk as <-. }
    rewrite list_lookup_insert_ne in Hj, Hk by done. by eapply Hsingle.
  - intros x Hx. apply Hfresh. destruct Hx as [tx Hx].
    apply lookup_delete_Some in Hx as [_ Hx]. eauto.
  - intros j tj Hj.
    destruct (decide (j = i)) as [->|Hne].
    + rewrite list_lookup_insert_eq in Hj by done. injection Hj as <-. simpl.
      by apply (Hpool i t).
    + rewrite list_lookup_insert_ne in Hj by done. by apply (Hpool j tj).
Qed.

(** A thread that can take a step does so without a memory fault, and the
    tasks stay in order. *)
Lemma worker_step_safe c st i t :
  heap_ok c st → threads st !! i = Some t → worker_ready t st = true →
  ∃ st' c', exec (L_worker i) st = Some st' ∧ heap_ok c' st'.
Proof.
  intros Hok Ht Hready.
  destruct (ho_pool _ _ Hok i t Ht) as (p & Hp & [w Hw] & Hlt).
  destruct (ho_wf _ _ Hok p w Hw) as (l & Hl & Hq).
  destruct t as [self pool pc]. simpl in Hp. subst pool.
  destruct pc as [| | | | | |r| | |].
  - (* W_start *)
    rewrite (worker_start_step st i _ p w Ht eq_refl eq_refl Hw).
    eexists _, c. split; [done|].
    eapply (heap_ok_moved c st i _ W_loop); try done. simpl.
    right. exists p, w, (set_alive (wrap_int (number_of_alive w + 1))). done.
  - (* W_loop *)
    destruct (decide (worker_keepalive st = 0)) as [Hk|Hk].
    + rewrite (worker_step_loop_exit st i self p Ht Hk).
      eexists _, c. split; [done|].
      eapply (heap_ok_moved c st i _ W_exit); try done. by left.
    + rewrite (worker_step_loop st i self p Ht Hk).
      eexists _, c. split; [done|].
      eapply (heap_ok_moved c st i _ W_wait); try done. by left.
  - (* W_wait *)
    unfold worker_ready in Hready. simpl in Hready. rewrite Hw in Hready.
    unfold semaphore_ready in Hready.
    destruct (has_tasks (wqueue w)) as [s|] eqn:Hs; [|done].
    destruct (sems st !! s) as [[v]|] eqn:Hv; [|done].
    simpl in Hready. apply Z.eqb_eq in Hready. subst v.
    rewrite (worker_step_wait st i self p w s Ht Hw Hs Hv).
    eexists _, c. split; [done|].
    eapply (heap_ok_moved c st i _ W_recheck); try done; simpl.
    + intros s'. apply is_Some_insert_sem.
    + by left.
  - (* W_recheck *)
    rewrite (worker_step_recheck st i self p Ht).
    eexists _, c. split; [done|].
    eapply (heap_ok_moved c st i _
              (if worker_keepalive st =? 0 then W_loop else W_begin)); try done.
    + intros a. by destruct (_ =? 0).
    + by left.
  - (* W_begin *)
    rewrite (worker_step_begin st i self p w Ht Hw).
    eexists _, c. split; [done|].
    eapply (heap_ok_moved c st i _ W_pull); try done. simpl.
    right. exists p, w, (set_working (wrap_int (number_of_working w + 1))). done.
  - (* W_pull *)
    destruct l as [|a l].
    + pose proof (queue_pull_nil st (wqueue w) Hq) as Hpull.
      rewrite (worker_step_pull st i self p w None (wqueue w) st Ht Hw Hpull)
        by done.
      eexists _, c. split; [done|].
      eapply (heap_ok_moved c st i _ (W_call None)); try done. simpl.
      right. exists p, w, (set_queue (wqueue w)). done.
    + destruct (queue_pull_cons st (wqueue w) a l Hq)
        as (st1 & q' & Hpull & Hq' & T & Hh & _ & Hnil & Hcons).
      assert (pools st1 = pools st ∧ threads st1 = threads st ∧ brk st1 = brk st ∧
              (∀ s, is_Some (sems st !! s) → is_Some (sems st1 !! s)))
        as (P1 & T1 & B1 & S1).
      { destruct l as [|b l].
        - rewrite (Hnil eq_refl). done.
        - destruct Hcons as (s & Hs & ->); [done|]. simpl.
          repeat (split; [done|]). intros s'. apply is_Some_insert_sem. }
      rewrite (worker_step_pull st i self p w (Some a) q' st1 Ht Hw Hpull P1 T1).
      eexists _, (<[p := l]> c). split; [done|].
      by apply (heap_ok_pulled c st i (Thread self (Some p) W_pull) p w a l q' st1).
  - (* W_call *)
    destruct r as [a|].
    + destruct (ho_held _ _ Hok i _ a Ht eq_refl) as [[ta Hta] _].
      rewrite (worker_step_call st i self p a ta Ht Hta).
      eexists _, c. split; [done|].
      by apply (heap_ok_called c st i (Thread self (Some p) (W_call (Some a))) a).
    + rewrite (worker_step_call_null st i self p Ht).
      eexists _, c. split; [done|].
      eapply (heap_ok_moved c st i _ W_end); try done. by left.
  - (* W_end *)
    rewrite (worker_step_end st i self p w Ht Hw).
    eexists _, c. split; [done|].
    eapply (heap_ok_moved c st i _ W_loop); try done. simpl.
    right. exists p, w, (set_working (wrap_int (number_of_working w - 1))). done.
  - (* W_exit *)
    rewrite (worker_step_exit st i self p w Ht Hw).
    eexists _, c. split; [done|].
    eapply (heap_ok_moved c st i _ W_done); try done. simpl.
    right. exists p, w, (set_alive (wrap_int (number_of_alive w - 1))). done.
  - (* W_done *)
    done.
Qed.

(** [queue_push] writes the new task and the last task of the queue, and
    no other. *)
Lemma queue_push_tasks q t st q' st' :
  queue_push q t st = Ok q' st' →
  ∀ x, Some x ≠ t → Some x ≠ rear q → tasks st' !! x = tasks st !! x.
Proof.
  unfold queue_push. intros H x Hxt Hxr.
  apply bind_ok in H as (tk & st1 & H1 & H).
  unfold load_task in H1. destruct t as [b|]; [|done].
  destruct (tasks st !! b) eqn:Hb; [|done]. injection H1 as <- <-.
  apply bind_ok in H as ([] & st2 & H2 & H).
  unfold store_task in H2. injection H2 as <-.
  apply bind_ok in H as (q1 & st3 & H3 & H).
  cbv zeta in H. apply bind_ok in H as ([] & st4 & Hpost & H).
  injection H as _ <-.
  assert (tasks st4 = tasks st3) as ->.
  { unfold semaphore_post, bind, load_sem, store_sem, the_addr, ret, emit in Hpost.
    simpl in Hpost. destruct (has_tasks q1) as [s|]; [|done].
    destruct (sems st3 !! s); [|done]. by injection Hpost as <-. }
  assert (tasks st3 !! x = <[b := set_previous None t]> (tasks st) !! x) as ->.
  { destruct (number_of_tasks q =? 0).
    - by injection H3 as _ <-.
    - apply bind_ok in H3 as (r & st5 & H5 & H3).
      unfold load_task in H5. destruct (rear q) as [e|]; [|done]. simpl in H5.
      destruct (_ !! e); [|done]. injection H5 as <- <-.
      apply bind_ok in H3 as ([] & st6 & H6 & H3).
      unfold store_task in H6. injection H6 as <-. injection H3 as _ <-.
      simpl. apply lookup_insert_ne. congruence. }
  apply lookup_insert_ne. congruence.
Qed.

(** [pgmoneta_workers_add] on a live pool, when [malloc] succeeds. *)
Lemma workers_add_ok c st p w l f arg :
  heap_ok c st → pools st !! p = Some w → c !! p = Some l →
  queue_wf st (wqueue w) l →
  head (oom st) ≠ Some true → Z.pos (brk st) < INT_MAX →
  ∃ st', pgmoneta_workers_add (Some p) f arg st = Ok 0 st' ∧
         heap_ok (<[p := l ++ [brk st]]> c) st'.
Proof.
  intros Hok Hw Hc Hq Hoom Hbound.
  pose proof Hok as [Hwf Halloc Hdis Hheld Hsingle Hfresh Hpool].
  set (b := brk st).
  assert (tasks st !! b = None) as Hb.
  { destruct (tasks st !! b) eqn:E; [|done].
    specialize (Hfresh b (mk_is_Some _ _ E)). unfold b in Hfresh. lia. }
  set (st2 := set_tasks (<[b := Task f arg None]> (tasks st))
                (set_alloc (Pos.succ b) (tl (oom st)) st)).
  assert (queue_wf st2 (wqueue w) l ∧ b ∉ l) as [Hq2 Hbl].
  { destruct (queue_wf_store_fresh st (wqueue w) l b (Task f arg None) Hq Hb)
      as [Hq2 Hbl]. split; [|done]. eapply queue_wf_ext; [| |exact Hq2]; done. }
  assert (Z.of_nat (length l) < INT_MAX) as Hlen.
  { assert (Z.of_nat (length l) < Z.pos b); [|unfold b; lia].
    apply distinct_below; [by destruct Hq|].
    intros a Ha. apply Hfresh. by eapply Halloc. }
  destruct (queue_push_wf st2 (wqueue w) l b (Task f arg None) Hq2)
    as (st3 & q' & h' & s & Hpush & Hq3 & Hst3 & Hdom & Hhb & Hh & Hs);
    [apply lookup_insert_eq|done|done|].
  pose proof (queue_push_tasks _ _ _ _ _ Hpush) as Hframe.
  assert (pools st3 = pools st ∧ threads st3 = threads st ∧
          brk st3 = Pos.succ b ∧ tasks st3 = h' ∧
          (∀ s', is_Some (sems st !! s') → is_Some (sems st3 !! s')))
    as (P3 & T3 & B3 & H3 & S3).
  { rewrite Hst3. simpl. repeat (split; [done|]).
    intros s'. apply is_Some_insert_sem. }
  assert (∀ x, is_Some (tasks st3 !! x) ↔ x = b ∨ is_Some (tasks st !! x)) as Hdom3.
  { intros x. rewrite H3, <- !elem_of_dom, Hdom. unfold st2. simpl.
    rewrite dom_insert, elem_of_union, elem_of_singleton. done. }
  exists (set_pools (<[p := set_queue q' w]> (pools st3)) st3). split.
  { assert (malloc st = Ok (Some b) (set_alloc (Pos.succ b) (tl (oom st)) st))
      as Hmalloc.
    { unfold malloc. destruct (oom st) as [|[] o]; [done|by destruct Hoom|done]. }
    unfold pgmoneta_workers_add, bind at 1. rewrite Hmalloc.
    unfold bind at 1, store_task.
    unfold bind at 1, on_queue, bind at 1, load_pool.
    change (set_tasks _ (set_alloc _ _ _)) with st2.
    replace (pools st2 !! p) with (Some w) by done.
    unfold bind. rewrite Hpush. unfold ret. rewrite P3, Hw.
    unfold store_pool. simpl. by rewrite P3. }
  assert (∀ p0 l0, <[p := l ++ [b]]> c !! p0 = Some l0 →
            (p0 = p ∧ l0 = l ++ [b]) ∨ (p0 ≠ p ∧ c !! p0 = Some l0)) as Hc'.
  { intros p0 l0 Hl0. destruct (decide (p0 = p)) as [->|Hne].
    - rewrite lookup_insert_eq in Hl0. injection Hl0 as <-. by left.
    - rewrite lookup_insert_ne in Hl0 by done. by right. }
  assert (∀ p0 l0, c !! p0 = Some l0 → b ∉ l0) as Hbfresh.
  { intros p0 l0 Hl0 Hin. destruct (Halloc p0 l0 b Hl0 Hin) as [? E]. congruence. }
  split; simpl.
  - intros p0 w0 Hw0. rewrite P3 in Hw0. destruct (decide (p0 = p)) as [->|Hne].
    + rewrite lookup_insert_eq in Hw0. injection Hw0 as <-.
      exists (l ++ [b]). rewrite lookup_insert_eq. split; [done|]. simpl.
      eapply queue_wf_ext; [| |exact Hq3]; done.
    + rewrite lookup_insert_ne in Hw0 by done. rewrite lookup_insert_ne by done.
      destruct (Hwf p0 w0 Hw0) as (l0 & Hl0 & Hq0). exists l0. split; [done|].
      eapply queue_wf_frame; [| |exact Hq0]; simpl; [|intros s0 _; apply S3].
      intros x Hx. rewrite Hframe.
      * unfold st2. simpl. apply lookup_insert_ne. intros <-.
        by apply (Hbfresh p0 l0).
      * intros [= ->]. by apply (Hbfresh p0 l0).
      * rewrite (wf_rear _ _ _ Hq). intros Hlast. symmetry in Hlast.
        apply last_Some_elem_of in Hlast. apply Hne.
        by eapply (Hdis p0 p l0 l x).
  - intros p0 l0 x Hl0 Hx. apply Hdom3.
    destruct (Hc' p0 l0 Hl0) as [[-> ->]|[Hne Hl0']].
    + apply elem_of_app in Hx as [Hx|Hx].
      * right. by eapply Halloc.
      * left. by apply list_elem_of_singleton in Hx.
    + right. by eapply Halloc.
  - intros p1 p2 l1 l2 x Hl1 Hl2 Hx1 Hx2.
    destruct (Hc' p1 l1 Hl1) as [[-> ->]|[Hne1 Hl1']];
      destruct (Hc' p2 l2 Hl2) as [[-> ->]|[Hne2 Hl2']]; try done.
    + apply elem_of_app in Hx1 as [Hx1|Hx1].
      * by eapply (Hdis p p2 l l2 x).
      * apply list_elem_of_singleton in Hx1. subst x. by destruct (Hbfresh p2 l2).
    + apply elem_of_app in Hx2 as [Hx2|Hx2].
      * by eapply (Hdis p1 p l1 l x).
      * apply list_elem_of_singleton in Hx2. subst x. by destruct (Hbfresh p1 l1).
    + by eapply Hdis.
  - intros j tj x Hj Hpc. rewrite T3 in Hj.
    destruct (Hheld j tj x Hj Hpc) as [Hx Hnot]. split.
    + apply Hdom3. by right.
    + intros p0 l0 Hl0 Hin.
      destruct (Hc' p0 l0 Hl0) as [[-> ->]|[Hne Hl0']]; [|by apply (Hnot p0 l0)].
      apply elem_of_app in Hin as [Hin|Hin]; [by apply (Hnot p l)|].
      apply list_elem_of_singleton in Hin. subst x.
      destruct Hx as [? Hx]. congruence.
  - intros j k tj tk x. rewrite T3. apply Hsingle.
  - intros x Hx. rewrite B3. apply Hdom3 in Hx as [->|Hx]; [lia|].
    specialize (Hfresh x Hx). unfold b. lia.
  - intros j tj Hj. rewrite T3 in Hj. rewrite B3, P3.
    destruct (Hpool j tj Hj) as (p0 & Hp0 & Hlive & Hlt).
    exists p0. split; [done|]. split; [|unfold b; lia].
    destruct (decide (p0 = p)) as [->|Hne].
    + rewrite lookup_insert_eq. eauto.
    + by rewrite lookup_insert_ne.
Qed.

Lemma heap_ok_add c st p f arg st' :
  heap_ok c st → Z.pos (brk st') ≤ INT_MAX →
  exec (L_add p f arg) st = Some st' → ∃ c', heap_ok c' st'.
Proof.
  intros Hok Hbound Hexec. apply exec_step in Hexec. simpl in Hexec.
  apply bind_ok in Hexec as (rc & st1 & Hadd & Hret). injection Hret as <-.
  destruct p as [a|]; [|injection Hadd as _ <-; by exists c].
  pose proof Hadd as H. unfold pgmoneta_workers_add in H.
  apply bind_ok in H as (t & st2 & Hm & H).
  unfold malloc in Hm.
  destruct (decide (head (oom st) = Some true)) as [Hoom|Hoom].
  { destruct (oom st) as [|[] o]; try done. injection Hm as <- <-.
    apply bind_ok in H as ([] & st3 & Hlog & H). injection H as _ <-.
    unfold pgmoneta_log_error, emit in Hlog. injection Hlog as <-.
    exists c. apply (heap_ok_same c st); try done. }
  assert (t = Some (brk st) ∧ brk st2 = Pos.succ (brk st) ∧ pools st2 = pools st)
    as (-> & B2 & P2).
  { destruct (oom st) as [|[] o]; try done; by injection Hm as <- <-. }
  apply bind_ok in H as ([] & st3 & Hst & H).
  unfold store_task in Hst. injection Hst as <-.
  apply bind_ok in H as ([] & st4 & Hon & H). injection H as _ <-.
  assert (same_counters
            (set_tasks (<[brk st := Task f arg None]> (tasks st2)) st2) st4)
    as (_ & _ & B4).
  { revert Hon. apply same_counters_on_queue. intros ?. untouched_tac. }
  simpl in B4.
  apply on_queue_inv in Hon as (a' & w & r & st5 & [= <-] & Hw & _).
  2:{ intros q s r s' Hq. apply bind_ok in Hq as (q' & s1 & Hq & Hr).
      injection Hr as _ <-. by apply queue_push_arms in Hq as ((_ & P & _) & _). }
  simpl in Hw. rewrite P2 in Hw.
  destruct (ho_wf _ _ Hok a w Hw) as (l & Hl & Hq).
  destruct (workers_add_ok c st a w l f arg Hok Hw Hl Hq Hoom) as (st'' & Hadd' & Hok'').
  { lia. }
  rewrite Hadd in Hadd'. injection Hadd' as _ <-. eauto.
Qed.

(** The set-up of [pgmoneta_workers_initialize] keeps the tasks in order. *)
Lemma heap_ok_initialize c st num r st' :
  heap_ok c st → wakeups_ok st →
  workers_initialize_setup num st = Ok r st' → ∃ c', heap_ok c' st'.
Proof.
  intros Hok Hwk H.
  pose proof (initialize_setup_grows _ _ _ _ H) as Hgrows.
  apply initialize_setup_wakes in H as (_ & T & B & S & P & E & Hr).
  assert (∀ p w s, pools st !! p = Some w → has_tasks (wqueue w) = Some s →
            is_Some (sems st !! s) → is_Some (sems st' !! s)) as S'.
  { intros p w s Hw Hs Hsome. destruct (wk_sem _ Hwk p w Hw) as (s' & Hs' & Hlt).
    rewrite S; [done|]. congruence. }
  destruct r as [|a].
  - (* the call fails: nothing is left of it *)
    destruct Hr as [Th Hp]. exists c. apply (heap_ok_frame c st); try done.
    + intros p w' Hw'. destruct (decide (p = brk st)) as [->|Hne]; [|eauto].
      destruct Hp as [Hp|Hp]; [congruence|]. rewrite Hp in Hw'. eauto.
    + intros i t'. rewrite Th. intros Ht'. split; [|eauto].
      destruct (ho_pool _ _ Hok i t' Ht') as (p & Hpool & Hlive & Hlt).
      exists p. split; [done|]. split; [apply E; [lia|done]|lia].
  - (* the pool is created with an empty queue *)
    destruct Hr as (-> & (new & Th) & w' & s & Hw' & Hq' & Hlt & Hs).
    assert (Forall (λ t, t_pool t = Some (brk st) ∧ t_pc t = W_start) new) as Hnew.
    { destruct Hgrows as [(_ & Th0 & _)|(st0 & (_ & T0 & _) & _ & _ & (n0 & Th0 & Hn0) & _)].
      - rewrite Th0 in Th. rewrite <- (app_nil_r (threads st)) in Th at 1.
        apply app_inv_head in Th as <-. done.
      - rewrite Th0, T0 in Th. by apply app_inv_head in Th as <-. }
    pose proof Hok as [Hwf Halloc Hdis Hheld Hsingle Hfresh Hpool].
    assert (∀ i t', threads st' !! i = Some t' →
              threads st !! i = Some t' ∨ t' ∈ new) as Hth.
    { intros i t' Ht'. rewrite Th in Ht'.
      apply lookup_app_Some in Ht' as [?|[_ Ht']]; [by left|right].
      by eapply list_elem_of_lookup_2. }
    assert (∀ i t' x, threads st' !! i = Some t' → t_pc t' = W_call (Some x) →
              threads st !! i = Some t') as Hth'.
    { intros i t' x Ht' Hpc. destruct (Hth i t' Ht') as [?|Hin]; [done|].
      rewrite Forall_forall in Hnew. destruct (Hnew t' Hin) as [_ Hstart].
      congruence. }
    assert (∀ p l, <[brk st := []]> c !! p = Some l →
              l = [] ∨ (p ≠ brk st ∧ c !! p = Some l)) as Hc'.
    { intros p l Hl. destruct (decide (p = brk st)) as [->|Hne].
      - rewrite lookup_insert_eq in Hl. injection Hl as <-. by left.
      - rewrite lookup_insert_ne in Hl by done. by right. }
    exists (<[brk st := []]> c). split.
    + intros p w0 Hw0. destruct (decide (p = brk st)) as [->|Hne].
      * rewrite Hw' in Hw0. injection Hw0 as <-. exists [].
        rewrite lookup_insert_eq. split; [done|]. rewrite Hq'.
        destruct Hs as [sm Hs]. constructor; simpl; try done.
        -- apply NoDup_nil_2.
        -- eauto.
      * rewrite lookup_insert_ne by done.
        destruct (P p w0 Hne Hw0) as (w & Hw & Hq).
        destruct (Hwf p w Hw) as (l & Hl & Hqwf). exists l. split; [done|].
        rewrite Hq. eapply queue_wf_frame; [| |exact Hqwf]; [by rewrite T|].
        intros s0. by apply (S' p w s0).
    + intros p l x Hl Hx. rewrite T.
      destruct (Hc' p l Hl) as [->|[_ Hl']]; [by apply elem_of_nil in Hx|].
      by eapply Halloc.
    + intros p1 p2 l1 l2 x Hl1 Hl2 Hx1 Hx2.
      destruct (Hc' p1 l1 Hl1) as [->|[_ Hl1']]; [by apply elem_of_nil in Hx1|].
      destruct (Hc' p2 l2 Hl2) as [->|[_ Hl2']]; [by apply elem_of_nil in Hx2|].
      by eapply Hdis.
    + intros i t' x Ht' Hpc. pose proof (Hth' i t' x Ht' Hpc) as Ht.
      destruct (Hheld i t' x Ht Hpc) as [Hx Hnot]. rewrite T. split; [done|].
      intros p l Hl Hin.
      destruct (Hc' p l Hl) as [->|[_ Hl']]; [by apply elem_of_nil in Hin|].
      by apply (Hnot p l).
    + intros i j t1 t2 x Ht1 Ht2 Hpc1 Hpc2.
      eapply Hsingle; [by eapply Hth'|by eapply Hth'|done..].
    + intros x Hx. rewrite T in Hx. specialize (Hfresh x Hx). lia.
    + intros i t' Ht'. destruct (Hth i t' Ht') as [Ht|Hin].
      * destruct (Hpool i t' Ht) as (p & Hp & Hlive & Hltp).
        exists p. split; [done|]. split; [apply E; [lia|done]|lia].
      * rewrite Forall_forall in Hnew. destruct (Hnew t' Hin) as [Hp _].
        exists (brk st). split; [done|]. split; [eauto|lia].
Qed.

Lemma heap_ok_exec c l st st' :
  heap_ok c st → wakeups_ok st → is_destroy l = false →
  Z.pos (brk st') ≤ INT_MAX →
  exec l st = Some st' → ∃ c', heap_ok c' st'.
Proof.
  intros Hok Hwk Hl Hbound Hexec.
  destruct l as [i|p f arg|num|num w|p|p total|p total]; try done.
  - assert (enabled (L_worker i) st = true) as Hen.
    { unfold exec in Hexec. by destruct (enabled _ _). }
    simpl in Hen. destruct (threads st !! i) as [t|] eqn:Ht; [|done].
    destruct (worker_step_safe c st i t Hok Ht Hen) as (st1 & c' & Hexec' & Hok').
    rewrite Hexec in Hexec'. injection Hexec' as ->. eauto.
  - by eapply heap_ok_add.
  - apply exec_step in Hexec. simpl in Hexec.
    apply bind_ok in Hexec as (r & st1 & Hsetup & Hrest).
    destruct (heap_ok_initialize c st num r st1 Hok Hwk Hsetup) as [c' Hok'].
    exists c'. apply (heap_ok_same c' st1); [done|..];
      destruct r; unfold emit, add_pending in Hrest; by injection Hrest as <-.
  - apply exec_step in Hexec. simpl in Hexec.
    apply bind_ok in Hexec as (w0 & st1 & Hload & Hrest).
    unfold load_pool in Hload. destruct (pools st !! w); [|done].
    injection Hload as _ <-.
    unfold bind, drop_pending, emit in Hrest. injection Hrest as <-.
    exists c. by apply (heap_ok_same c st).
Qed.

Lemma brk_run ls : ∀ st st', run ls st = Some st' → (brk st ≤ brk st')%positive.
Proof.
  induction ls as [|l ls IH]; simpl; intros st st' Hrun.
  - injection Hrun as <-. lia.
  - destruct (exec l st) as [st1|] eqn:Hexec; [|done].
    apply brk_exec in Hexec. apply IH in Hrun. lia.
Qed.

Lemma heap_ok_run ls : ∀ c st st',
  heap_ok c st → wakeups_ok st →
  forallb (λ l, negb (is_destroy l)) ls = true →
  Z.pos (brk st') ≤ INT_MAX →
  run ls st = Some st' → ∃ c', heap_ok c' st'.
Proof.
  induction ls as [|l ls IH]; simpl; intros c st st' Hok Hwk Hls Hbound Hrun.
  - injection Hrun as <-. eauto.
  - apply andb_true_iff in Hls as [Hl Hls]. apply negb_true_iff in Hl.
    destruct (exec l st) as [st1|] eqn:Hexec; [|done].
    pose proof (brk_run _ _ _ Hrun) as B.
    destruct (heap_ok_exec c l st st1 Hok Hwk Hl) as [c1 Hok1]; [lia|done|].
    eapply (IH c1 st1); try done. by eapply wakeups_ok_exec.
Qed.

Lemma heap_ok_image o : heap_ok ∅ (image o).
Proof.
  split.
  - intros p w Hw. unfold image, world0 in Hw. simpl in Hw.
    by rewrite lookup_empty in Hw.
  - intros p l a Hl. by rewrite lookup_empty in Hl.
  - intros p1 p2 l1 l2 a Hl. by rewrite lookup_empty in Hl.
  - intros i t a Ht. unfold image, world0 in Ht. simpl in Ht.
    by rewrite lookup_nil in Ht.
  - intros i j t t' a Ht. unfold image, world0 in Ht. simpl in Ht.
    by rewrite lookup_nil in Ht.
  - intros a [t Ht]. unfold image, world0 in Ht. simpl in Ht.
    by rewrite lookup_empty in Ht.
  - intros i t Ht. unfold image, world0 in Ht. simpl in Ht.
    by rewrite lookup_nil in Ht.
Qed.

Lemma heap_ok_reached o ls st :
  run ls (image o) = Some st →
  forallb (λ l, negb (is_destroy l)) ls = true →
  Z.pos (brk st) ≤ INT_MAX →
  ∃ c, heap_ok c st.
Proof.
  intros Hrun Hls Hmem.
  eapply (heap_ok_run ls ∅ (image o)); try done.
  - apply heap_ok_image.
  - apply wakeups_ok_image.
Qed.

(** X21.  The workers are memory safe.  After any interleaving of workers
    and callers in which no pool is being destroyed, whichever calls of
    [malloc] fail, and as long as fewer than [INT_MAX] objects have been
    allocated, a thread that is not blocked in [semaphore_wait] and has
    not returned takes its next step without a memory fault: the pool it
    reads is allocated, the task it pulls is linked in the queue and the
    task it runs and frees is allocated and owned by no one else. *)
Theorem worker_step_never_faults o ls st i
    (Hrun : run ls (image o) = Some st)
    (Hls : forallb (λ l, negb (is_destroy l)) ls = true)
    (Hmem : Z.pos (brk st) ≤ INT_MAX)
    (Hen : enabled (L_worker i) st = true) :
  is_Some (exec (L_worker i) st).
Proof.
  destruct (heap_ok_reached o ls st Hrun Hls Hmem) as [c Hok].
  simpl in Hen. destruct (threads st !! i) as [t|] eqn:Ht; [|done].
  destruct (worker_step_safe c st i t Hok Ht Hen) as (st' & _ & Hexec & _).
  eauto.
Qed.

Lemma worker_step_never_faults_witness :
  is_Some (exec (L_worker 0) (after first_task_run)).
Proof.
  refine (worker_step_never_faults [] first_task_run (after first_task_run) 0 _ _ _ _).
  - vm_compute. reflexivity.
  - vm_compute. reflexivity.
  - vm_compute. discriminate.
  - vm_compute. reflexivity.
Defined.

(** X22.  The representation invariant of the queue holds throughout.
    After any interleaving of workers and callers in which no pool is
    being destroyed, whichever calls of [malloc] fail and as long as
    fewer than [INT_MAX] objects have been allocated, the queue of every
    pool is well formed: the tasks linked from [front] are allocated and
    distinct, [rear] is the last of them, the count is their number, and
    the semaphore is allocated.  With it the invariant that a count of
    zero means NULL at both ends holds in every such state. *)
Theorem queues_well_formed_throughout o ls st p w
    (Hrun : run ls (image o) = Some st)
    (Hls : forallb (λ l, negb (is_destroy l)) ls = true)
    (Hmem : Z.pos (brk st) ≤ INT_MAX)
    (Hpool : pools st !! p = Some w) :
  ∃ l, queue_wf st (wqueue w) l ∧ queue_invariant st (wqueue w) ∧
       ∀ a, a ∈ l → is_Some (tasks st !! a).
Proof.
  destruct (heap_ok_reached o ls st Hrun Hls Hmem) as [c Hok].
  destruct (ho_wf _ _ Hok p w Hpool) as (l & Hl & Hq).
  exists l. split; [done|]. split; [by eapply queue_wf_invariant|].
  intros a Ha. by eapply (ho_alloc _ _ Hok p l).
Qed.

Lemma queues_well_formed_throughout_witness :
  ∃ l, queue_wf (after two_tasks)
         (wqueue (Workers 1 0 true
                    (Queue 2 (Some 5%positive) (Some 6%positive) (Some 2%positive))
                    [Some 4%positive])) l ∧
       queue_invariant (after two_tasks)
         (wqueue (Workers 1 0 true
                    (Queue 2 (Some 5%positive) (Some 6%positive) (Some 2%positive))
                    [Some 4%positive])) ∧
       ∀ a, a ∈ l → is_Some (tasks (after two_tasks) !! a).
Proof.
  refine (queues_well_formed_throughout [] two_tasks (after two_tasks) pool1 _ _ _ _ _).
  - vm_compute. reflexivity.
  - vm_compute. reflexivity.
  - vm_compute. discriminate.
  - vm_compute. reflexivity.
Defined.

(** X23.  No deadlock while work is queued.  After any interleaving of
    workers and callers in which no pool is being destroyed, if the queue
    of a pool counts a task and the pool has a thread between line 317
    and line 350, then some thread of the pool can take a step: it is not
    the case that every worker sleeps in [semaphore_wait] on a queue that
    holds work. *)
Theorem no_deadlock_with_queued_task o ls st p w j tj
    (Hrun : run ls (image o) = Some st)
    (Hls : forallb (λ l, negb (is_destroy l)) ls = true)
    (Hmem : Z.pos (brk st) ≤ INT_MAX)
    (Hpool : pools st !! p = Some w)
    (Htasks : number_of_tasks (wqueue w) ≠ 0)
    (Hj : threads st !! j = Some tj)
    (Hpj : t_pool tj = Some p)
    (Halive : counts_alive (t_pc tj) = true) :
  ∃ i t, threads st !! i = Some t ∧ t_pool t = Some p ∧
         is_Some (exec (L_worker i) st).
Proof.
  destruct (heap_ok_reached o ls st Hrun Hls Hmem) as [c Hok].
  pose proof (wakeups_ok_run ls (image o) st (wakeups_ok_image o) Hls Hrun) as Hwk.
  assert (∀ i t, threads st !! i = Some t → t_pool t = Some p →
            worker_ready t st = true →
            ∃ i t, threads st !! i = Some t ∧ t_pool t = Some p ∧
                   is_Some (exec (L_worker i) st)) as Hgo.
  { intros i t Ht Hp Hready. exists i, t. split; [done|]. split; [done|].
    destruct (worker_step_safe c st i t Hok Ht Hready) as (st' & _ & Hexec & _).
    eauto. }
  destruct (decide (t_pc tj = W_wait)) as [Hwait|Hwait].
  - destruct (wk_sem _ Hwk p w Hpool) as (s & Hs & _).
    destruct (wk_armed _ Hwk p w s Hpool Hs Htasks) as [Hon|(i & t & Ht & Hp & Hwoken)].
    + apply (Hgo j tj Hj Hpj). unfold worker_ready. rewrite Hwait, Hpj. simpl.
      rewrite Hpool. unfold semaphore_ready. by rewrite Hs, Hon.
    + apply (Hgo i t Ht Hp). unfold worker_ready. by destruct (t_pc t).
  - apply (Hgo j tj Hj Hpj). unfold worker_ready. by destruct (t_pc tj).
Qed.

Lemma no_deadlock_with_queued_task_witness :
  ∃ i t, threads (after two_tasks) !! i = Some t ∧ t_pool t = Some pool1 ∧
         is_Some (exec (L_worker i) (after two_tasks)).
Proof.
  refine (no_deadlock_with_queued_task [] two_tasks (after two_tasks) pool1
            (Workers 1 0 true
               (Queue 2 (Some 5%positive) (Some 6%positive) (Some 2%positive))
               [Some 4%positive])
            0 (Thread 4%positive (Some pool1) W_loop) _ _ _ _ _ _ _ _).
  - vm_compute. reflexivity.
  - vm_compute. reflexivity.
  - vm_compute. discriminate.
  - vm_compute. reflexivity.
  - vm_compute. discriminate.
  - vm_compute. reflexivity.
  - reflexivity.
  - reflexivity.
Defined.

(** X24.  [pgmoneta_workers_add] on a live pool returns, whatever the
    workers are doing, in every state reached without a pool being
    destroyed: when [malloc] fails it returns 1, otherwise the new task
    is linked behind the last one without a memory fault. *)
Theorem workers_add_never_faults o ls st p w f arg
    (Hrun : run ls (image o) = Some st)
    (Hls : forallb (λ l, negb (is_destroy l)) ls = true)
    (Hmem : Z.pos (brk st) < INT_MAX)
    (Hpool : pools st !! p = Some w) :
  ∃ rc st',
    pgmoneta_workers_add (Some p) f arg st = Ok rc st' ∧
    exec (L_add (Some p) f arg) st = Some st' ∧
    (rc = 1 ↔ head (oom st) = Some true) ∧
    (rc = 0 ∨ rc = 1).
Proof.
  destruct (heap_ok_reached o ls st Hrun Hls) as [c Hok]; [lia|].
  destruct (decide (head (oom st) = Some true)) as [Hoom|Hoom].
  - destruct (oom st) as [|[] o'] eqn:Ho; try done.
    eexists 1, _. split; [|split].
    + unfold pgmoneta_workers_add, bind, malloc. rewrite Ho. reflexivity.
    + unfold exec. simpl. unfold bind, pgmoneta_workers_add, bind, malloc.
      rewrite Ho. reflexivity.
    + split; [done|by right].
  - destruct (ho_wf _ _ Hok p w Hpool) as (l & Hl & Hq).
    destruct (workers_add_ok c st p w l f arg Hok Hpool Hl Hq Hoom Hmem)
      as (st' & Hadd & _).
    exists 0, st'. split; [done|]. split; [|split; [split; [done|by intros ?]|by left]].
    unfold exec, enabled, step. unfold bind at 1. by rewrite Hadd.
Qed.

Lemma workers_add_never_faults_witness :
  ∃ rc st',
    pgmoneta_workers_add (Some pool1) 9 None (after two_tasks) = Ok rc st' ∧
    exec (L_add (Some pool1) 9 None) (after two_tasks) = Some st' ∧
    (rc = 1 ↔ head (oom (after two_tasks)) = Some true) ∧
    (rc = 0 ∨ rc = 1).
Proof.
  refine (workers_add_never_faults [] two_tasks (after two_tasks) pool1
            (Workers 1 0 true
               (Queue 2 (Some 5%positive) (Some 6%positive) (Some 2%positive))
               [Some 4%positive]) 9 None _ _ _ _).
  - vm_compute. reflexivity.
  - vm_compute. reflexivity.
  - vm_compute. reflexivity.
  - vm_compute. reflexivity.
Defined.

(** ** What is run was submitted *)

Lemma calls_in_delete (h : gmap addr task) a t :
  h !! a = Some t →
  (function t, wc t) :: calls_in (delete a h) ≡ₚ calls_in h.
Proof.
  intros Ha. unfold calls_in. rewrite <- (map_to_list_delete h a t Ha). done.
Qed.

Lemma calls_in_delete_sub (h : gmap addr task) a : calls_in (delete a h) ⊆+ calls_in h.
Proof.
  destruct (h !! a) as [t|] eqn:Ha.
  - rewrite <- (calls_in_delete h a t Ha). by apply submseteq_cons.
  - by rewrite delete_id.
Qed.

Lemma calls_in_insert (h : gmap addr task) a t :
  calls_in (<[a := t]> h) ≡ₚ (function t, wc t) :: calls_in (delete a h).
Proof.
  rewrite <- insert_delete_eq. unfold calls_in.
  rewrite map_to_list_insert by apply lookup_delete_eq. done.
Qed.

Lemma calls_in_relink (h : gmap addr task) a t y :
  h !! a = Some t → calls_in (<[a := set_previous y t]> h) ≡ₚ calls_in h.
Proof.
  intros Ha. rewrite calls_in_insert. simpl. by apply calls_in_delete.
Qed.

Lemma accounted_refl st : accounted st st.
Proof. unfold accounted. done. Qed.

Lemma accounted_trans a b c : accounted a b → accounted b c → accounted a c.
Proof. unfold accounted. intros H1 H2. by etrans. Qed.

Lemma accounted_bind {A B} (m : M A) (k : A → M B) :
  keeps accounted m → (∀ a, keeps accounted (k a)) → keeps accounted (bind m k).
Proof. apply keeps_bind. exact accounted_trans. Qed.

Lemma accounted_ret {A} (a : A) : keeps accounted (ret a).
Proof. apply keeps_ret. exact accounted_refl. Qed.

Lemma accounted_same st st' :
  tasks st' = tasks st → runs (trace st') = runs (trace st) → accounted st st'.
Proof. intros T R. unfold accounted. by rewrite T, R. Qed.

Ltac accounted_prim :=
  let st := fresh "st" in let a := fresh "a" in
  let st' := fresh "st'" in let H := fresh "H" in
  intros st a st' H;
  repeat match type of H with
         | context [match ?x with _ => _ end] => destruct x eqn:?; try discriminate
         end;
  injection H as <- <-;
  apply accounted_same; simpl; rewrite ?runs_app, ?app_nil_r; reflexivity.

Lemma accounted_malloc : keeps accounted malloc.
Proof. unfold malloc. accounted_prim. Qed.
Lemma accounted_load_task p : keeps accounted (load_task p).
Proof. unfold load_task. accounted_prim. Qed.
Lemma accounted_load_sem p : keeps accounted (load_sem p).
Proof. unfold load_sem. accounted_prim. Qed.
Lemma accounted_store_sem p s : keeps accounted (store_sem p s).
Proof. unfold store_sem. accounted_prim. Qed.
Lemma accounted_free_sem p : keeps accounted (free_sem p).
Proof. unfold free_sem. accounted_prim. Qed.
Lemma accounted_load_pool p : keeps accounted (load_pool p).
Proof. unfold load_pool. accounted_prim. Qed.
Lemma accounted_store_pool p w : keeps accounted (store_pool p w).
Proof. unfold store_pool. accounted_prim. Qed.
Lemma accounted_free_pool p : keeps accounted (free_pool p).
Proof. unfold free_pool. accounted_prim. Qed.
Lemma accounted_store_wrec p w : keeps accounted (store_wrec p w).
Proof. unfold store_wrec. accounted_prim. Qed.
Lemma accounted_free_wrec p : keeps accounted (free_wrec p).
Proof. unfold free_wrec. accounted_prim. Qed.
Lemma accounted_the_addr p : keeps accounted (the_addr p).
Proof. unfold the_addr, ret, fault. accounted_prim. Qed.
Lemma accounted_add_pending c : keeps accounted (add_pending c).
Proof. unfold add_pending. accounted_prim. Qed.
Lemma accounted_drop_pending c : keeps accounted (drop_pending c).
Proof. unfold drop_pending. accounted_prim. Qed.
Lemma accounted_read_keepalive : keeps accounted read_keepalive.
Proof. unfold read_keepalive. accounted_prim. Qed.
Lemma accounted_set_keepalive k : keeps accounted (λ st, Ok tt (set_keepalive k st)).
Proof. accounted_prim. Qed.
Lemma accounted_goto i pc : keeps accounted (goto i pc).
Proof. unfold goto. accounted_prim. Qed.
Lemma accounted_pthread_create w : keeps accounted (pthread_create w).
Proof. unfold pthread_create. accounted_prim. Qed.

Lemma accounted_emit e : runs [e] = [] → keeps accounted (emit e).
Proof.
  intros He st a st' H. unfold emit in H. injection H as <- <-.
  apply accounted_same; simpl; [done|]. by rewrite runs_app, He, app_nil_r.
Qed.

Lemma accounted_free_task p : keeps accounted (free_task p).
Proof.
  intros st a st' H. unfold free_task in H.
  destruct p as [b|]; [|injection H as <- <-; apply accounted_refl].
  destruct (tasks st !! b); [|done]. injection H as <- <-.
  unfold accounted. simpl. apply submseteq_skips_l, calls_in_delete_sub.
Qed.

(** Rewriting the link of a task. *)
Lemma accounted_relink {A} p y (k : M A) :
  keeps accounted k →
  keeps accounted (tk <- load_task p ;; store_task p (set_previous y tk) ;;; k).
Proof.
  intros Hk st a st' H. unfold bind at 1, load_task in H.
  destruct p as [b|]; [|done]. destruct (tasks st !! b) as [t|] eqn:Hb; [|done].
  unfold bind at 1, store_task in H. apply Hk in H.
  eapply accounted_trans; [|exact H]. unfold accounted. simpl.
  by rewrite (calls_in_relink _ b t y Hb).
Qed.

Create HintDb accounted discriminated.
#[global] Hint Resolve accounted_malloc accounted_load_task accounted_load_sem
  accounted_store_sem accounted_free_sem accounted_load_pool accounted_store_pool
  accounted_free_pool accounted_store_wrec accounted_free_wrec accounted_the_addr
  accounted_add_pending accounted_drop_pending accounted_read_keepalive
  accounted_set_keepalive accounted_goto accounted_pthread_create
  accounted_free_task : accounted.
#[global] Hint Extern 1 (keeps accounted (emit _)) =>
  (apply accounted_emit; reflexivity) : accounted.
#[global] Hint Extern 1 (keeps accounted pgmoneta_log_error) =>
  (apply accounted_emit; reflexivity) : accounted.

Ltac accounted_tac :=
  repeat first
    [ apply accounted_ret
    | apply keeps_fault
    | apply accounted_relink
    | apply accounted_bind; [|intros ?]
    | match goal with
      | |- keeps _ (match ?x with _ => _ end) => destruct x
      | |- keeps _ (if ?x then _ else _) => destruct x
      | |- keeps _ (let _ := _ in _) => cbv zeta
      end
    | solve [eauto with accounted] ].

Lemma accounted_semaphore_init s v : keeps accounted (semaphore_init s v).
Proof. unfold semaphore_init. accounted_tac. Qed.
#[global] Hint Resolve accounted_semaphore_init : accounted.
Lemma accounted_semaphore_reset s : keeps accounted (semaphore_reset s).
Proof. unfold semaphore_reset. accounted_tac. Qed.
Lemma accounted_semaphore_post s : keeps accounted (semaphore_post s).
Proof. unfold semaphore_post. accounted_tac. Qed.
Lemma accounted_semaphore_post_all s : keeps accounted (semaphore_post_all s).
Proof. unfold semaphore_post_all. accounted_tac. Qed.
Lemma accounted_semaphore_wait s : keeps accounted (semaphore_wait s).
Proof. unfold semaphore_wait. accounted_tac. Qed.
#[global] Hint Resolve accounted_semaphore_reset accounted_semaphore_post
  accounted_semaphore_post_all accounted_semaphore_wait : accounted.
Lemma accounted_queue_init : keeps accounted queue_init.
Proof. unfold queue_init. accounted_tac. Qed.
Lemma accounted_queue_pull q : keeps accounted (queue_pull q).
Proof. unfold queue_pull. accounted_tac. Qed.
#[global] Hint Resolve accounted_queue_init accounted_queue_pull : accounted.
Lemma accounted_queue_push q t : keeps accounted (queue_push q t).
Proof. unfold queue_push. accounted_tac. Qed.
#[global] Hint Resolve accounted_queue_push : accounted.
Lemma accounted_queue_clear_loop fuel : ∀ q, keeps accounted (queue_clear_loop fuel q).
Proof.
  induction fuel as [|fuel IH]; intros q; simpl.
  - destruct (number_of_tasks q =? 0); [apply accounted_ret|]. intros st a st' H. done.
  - accounted_tac.
Qed.
#[global] Hint Resolve accounted_queue_clear_loop : accounted.
Lemma accounted_queue_clear q : keeps accounted (queue_clear q).
Proof. unfold queue_clear. accounted_tac. Qed.
#[global] Hint Resolve accounted_queue_clear : accounted.
Lemma accounted_queue_destroy q : keeps accounted (queue_destroy q).
Proof. unfold queue_destroy. accounted_tac. Qed.
#[global] Hint Resolve accounted_queue_destroy : accounted.
Lemma accounted_on_queue {A} p (f : queue → M (A * queue)) :
  (∀ q, keeps accounted (f q)) → keeps accounted (on_queue p f).
Proof. intros Hf. unfold on_queue. accounted_tac. Qed.
Lemma accounted_worker_init p : keeps accounted (worker_init p).
Proof. unfold worker_init. accounted_tac. Qed.
#[global] Hint Resolve accounted_worker_init : accounted.
Lemma accounted_spawn_workers n p : keeps accounted (spawn_workers n p).
Proof. induction n as [|n IH]; simpl; accounted_tac. Qed.
#[global] Hint Resolve accounted_spawn_workers : accounted.
Lemma accounted_initialize_error w : keeps accounted (initialize_error w).
Proof. unfold initialize_error. accounted_tac. Qed.
#[global] Hint Resolve accounted_initialize_error : accounted.
Lemma accounted_initialize_setup num : keeps accounted (workers_initialize_setup num).
Proof. unfold workers_initialize_setup. accounted_tac. Qed.
Lemma accounted_destroy_begin p : keeps accounted (workers_destroy_begin p).
Proof. unfold workers_destroy_begin. accounted_tac. Qed.
Lemma accounted_destroy_round p : keeps accounted (workers_destroy_round p).
Proof. unfold workers_destroy_round. accounted_tac. Qed.
Lemma accounted_destroy_workers k : ∀ n p, keeps accounted (destroy_workers k n p).
Proof. induction k as [|k IH]; intros n p; simpl; accounted_tac. Qed.
#[global] Hint Resolve accounted_initialize_setup accounted_destroy_begin
  accounted_destroy_round accounted_destroy_workers : accounted.
Lemma accounted_destroy_finish p total :
  keeps accounted (workers_destroy_finish p total).
Proof.
  unfold workers_destroy_finish.
  apply accounted_bind; [apply accounted_on_queue; intros ?; accounted_tac|].
  intros ?. accounted_tac.
Qed.
#[global] Hint Resolve accounted_destroy_finish : accounted.

(** Lines 331-337: the body of the task is started and the task freed. *)
Lemma accounted_call {A} t (k : M A) :
  keeps accounted k →
  keeps accounted
    (tk <- load_task t ;; emit (EvRun (function tk) (wc tk)) ;;; free_task t ;;; k).
Proof.
  intros Hk st a st' H. unfold bind at 1, load_task in H.
  destruct t as [b|]; [|done]. destruct (tasks st !! b) as [tk|] eqn:Hb; [|done].
  unfold bind at 1, emit in H. unfold bind at 1, free_task in H. simpl in H.
  rewrite Hb in H. apply Hk in H.
  eapply accounted_trans; [|exact H]. unfold accounted. simpl.
  rewrite runs_app. simpl. rewrite <- (calls_in_delete _ b tk Hb).
  rewrite <- app_assoc. done.
Qed.

Lemma accounted_worker_step i t : keeps accounted (worker_step i t).
Proof.
  unfold worker_step. destruct (t_pc t) as [| | | | | |r| | |].
  7:{ destruct r; [apply accounted_call|]; accounted_tac. }
  6:{ apply accounted_bind; [apply accounted_on_queue; intros ?; accounted_tac|].
      intros ?. accounted_tac. }
  all: accounted_tac.
Qed.

(** Every step but a call of [pgmoneta_workers_add] is accounted for. *)
Lemma step_accounted l st st' :
  step l st = Ok tt st' → submitted [l] = [] → accounted st st'.
Proof.
  intros Hstep Hl.
  destruct l as [i|p f arg|num|num w|p|p total|p total]; try done;
    simpl in Hstep.
  - destruct (threads st !! i) as [t|] eqn:Ht; [|done].
    by eapply accounted_worker_step.
  - revert Hstep. accounted_tac.
  - revert Hstep. accounted_tac.
  - revert Hstep. accounted_tac.
  - revert Hstep. accounted_tac.
  - revert Hstep. accounted_tac.
Qed.

(** A call of [pgmoneta_workers_add] makes at most the task it is given. *)
Lemma workers_add_accounted p f arg st rc st' :
  pgmoneta_workers_add p f arg st = Ok rc st' →
  runs (trace st') ++ calls_in (tasks st') ⊆+
  (f, arg) :: runs (trace st) ++ calls_in (tasks st).
Proof.
  unfold pgmoneta_workers_add. intros H.
  destruct p as [a|]; [|injection H as _ <-; by apply submseteq_cons].
  apply bind_ok in H as (t & st1 & Hm & H).
  apply accounted_malloc in Hm. unfold accounted in Hm.
  assert (runs (trace st') ++ calls_in (tasks st') ⊆+
          (f, arg) :: runs (trace st1) ++ calls_in (tasks st1)) as Hrest.
  { destruct t as [b|].
    - apply bind_ok in H as ([] & st2 & Hst & H).
      unfold store_task in Hst. injection Hst as <-.
      assert (keeps accounted
                (on_queue (Some a) (λ q, q' <- queue_push q (Some b) ;; ret (tt, q')) ;;;
                 ret 0)) as Hk.
      { apply accounted_bind; [apply accounted_on_queue; intros ?; accounted_tac|].
        intros ?. accounted_tac. }
      apply Hk in H. etrans; [exact H|]. simpl.
      rewrite calls_in_insert. simpl. rewrite <- Permutation_middle.
      apply submseteq_skip, submseteq_skips_l, calls_in_delete_sub.
    - apply submseteq_cons. revert H. accounted_tac. }
  etrans; [exact Hrest|]. by apply submseteq_skip.
Qed.

Lemma submitted_cons l ls : submitted (l :: ls) = submitted [l] ++ submitted ls.
Proof. by destruct l. Qed.

Lemma run_accounted ls : ∀ st st',
  run ls st = Some st' →
  runs (trace st') ++ calls_in (tasks st') ⊆+
  submitted ls ++ runs (trace st) ++ calls_in (tasks st).
Proof.
  induction ls as [|l ls IH]; intros st st' Hrun.
  - by injection Hrun as <-.
  - rewrite run_cons in Hrun. rewrite submitted_cons.
    destruct (exec l st) as [st1|] eqn:Hexec; [|done].
    apply IH in Hrun. etrans; [exact Hrun|]. apply exec_step in Hexec.
    destruct (submitted [l]) as [|[f arg] rest] eqn:Hl.
    + apply submseteq_skips_l. by apply (step_accounted l).
    + destruct l as [i|p f' arg'|num|num w|p|p total|p total]; try done.
      injection Hl as <- <- <-. simpl in Hexec.
      apply bind_ok in Hexec as (rc & st2 & Hadd & Hret). injection Hret as <-.
      apply workers_add_accounted in Hadd. simpl.
      rewrite (Permutation_middle (submitted ls)).
      by apply submseteq_skips_l.
Qed.

(** X25.  Whatever the interleaving of workers and callers, destroy
    included, and whichever calls of [malloc] fail: the task bodies that
    have been started, with their arguments, are among the calls given to
    [pgmoneta_workers_add], each no more often than it was given.  No
    task is run twice and no call is made up. *)
Theorem only_submitted_tasks_run o ls st
    (Hrun : run ls (image o) = Some st) :
  runs (trace st) ⊆+ submitted ls.
Proof.
  apply run_accounted in Hrun. unfold image, world0 in Hrun. simpl in Hrun.
  unfold calls_in in Hrun at 2. rewrite map_to_list_empty in Hrun.
  simpl in Hrun. rewrite app_nil_r in Hrun.
  etrans; [|exact Hrun]. by apply submseteq_inserts_r.
Qed.

Lemma only_submitted_tasks_run_witness :
  runs (trace (after lifecycle)) ⊆+ submitted lifecycle.
Proof.
  refine (only_submitted_tasks_run [] lifecycle (after lifecycle) _).
  vm_compute. reflexivity.
Defined.
